(** * Verification of the fixed-width bignum kernel (src/crypto/bignum.c)

    A [bignum256] is an array of nine 32-bit words holding digits in base
    2^30.  The C functions are embedded as Rocq functions over [list Z]; every
    C operation on [uint32_t] / [uint64_t] is written with its wrap-around. *)

From Stdlib Require Import ZArith List Lia Bool Znumtheory Ascii.
Import ListNotations.
Local Open Scope Z_scope.

(** ** Machine arithmetic *)

Module C.

Definition wrap8 (x : Z) : Z := x mod 2^8.
Definition wrap32 (x : Z) : Z := x mod 2^32.
Definition wrap64 (x : Z) : Z := x mod 2^64.

Definition add32 (x y : Z) : Z := wrap32 (x + y).
Definition sub32 (x y : Z) : Z := wrap32 (x - y).
Definition mul32 (x y : Z) : Z := wrap32 (x * y).
Definition neg32 (x : Z) : Z := wrap32 (- x).
Definition not32 (x : Z) : Z := wrap32 (- x - 1).
Definition shl32 (x : Z) (k : Z) : Z := wrap32 (Z.shiftl x k).

Definition add64 (x y : Z) : Z := wrap64 (x + y).
Definition sub64 (x y : Z) : Z := wrap64 (x - y).
Definition mul64 (x y : Z) : Z := wrap64 (x * y).

(** [>>] on unsigned operands never wraps. *)
Definition shr (x : Z) (k : Z) : Z := Z.shiftr x k.

(** C truth values of comparisons. *)
Definition ltu (x y : Z) : Z := if x <? y then 1 else 0.
Definition gtu (x y : Z) : Z := if y <? x then 1 else 0.
(** [!x] *)
Definition lnot (x : Z) : bool := x =? 0.

End C.

Import C.

(** ** Arrays and loops *)

Fixpoint upd {A : Type} (l : list A) (i : nat) (v : A) : list A :=
  match l, i with
  | [], _ => []
  | _ :: t, O => v :: t
  | h :: t, S j => h :: upd t j v
  end.

Definition get (l : list Z) (i : nat) : Z := nth i l 0.

(** [for (i = lo; i < lo + n; i++) body] *)
Fixpoint for_up {S : Type} (lo n : nat) (body : nat -> S -> S) (s : S) : S :=
  match n with
  | O => s
  | Datatypes.S n' => for_up (Datatypes.S lo) n' body (body lo s)
  end.

(** [for (i = hi; i > hi - n; i--) body] *)
Fixpoint for_down {S : Type} (hi n : nat) (body : nat -> S -> S) (s : S) : S :=
  match n with
  | O => s
  | Datatypes.S n' => for_down (Nat.pred hi) n' body (body hi s)
  end.

(** ** The bignum256 data model *)

Definition bignum256 := list Z.

Definition LIMB_MASK : Z := 0x3FFFFFFF.

Definition is_u32 (x : Z) : Prop := 0 <= x < 2^32.
Definition is_limb (x : Z) : Prop := 0 <= x < 2^30.

(** Well-formed for the C type: nine [uint32_t]. *)
Definition wf (a : bignum256) : Prop := length a = 9%nat /\ Forall is_u32 a.

(** Normalized: nine digits, each below 2^30. *)
Definition normalized (a : bignum256) : Prop := length a = 9%nat /\ Forall is_limb a.

(** The represented number: sum of val[i] * 2^(30 i). *)
Fixpoint value (a : list Z) : Z :=
  match a with
  | [] => 0
  | x :: t => x + 2^30 * value t
  end.

Definition bn_zero : bignum256 := repeat 0 9.

(** ** Byte encodings

    A byte buffer is a [list Z] of [uint8_t]; a pointer [data + off] is the
    buffer with the offset [off]. *)

Definition is_u8 (x : Z) : Prop := 0 <= x < 2^8.

Definition read_be (data : list Z) (off : nat) : Z :=
  Z.lor (Z.lor (Z.lor (shl32 (get data off) 24)
                      (shl32 (get data (off + 1)) 16))
               (shl32 (get data (off + 2)) 8))
        (get data (off + 3)).

Definition write_be (data : list Z) (off : nat) (x : Z) : list Z :=
  let data := upd data off (wrap8 (shr x 24)) in
  let data := upd data (off + 1) (wrap8 (shr x 16)) in
  let data := upd data (off + 2) (wrap8 (shr x 8)) in
  upd data (off + 3) (wrap8 x).

Definition read_le (data : list Z) (off : nat) : Z :=
  Z.lor (Z.lor (Z.lor (shl32 (get data (off + 3)) 24)
                      (shl32 (get data (off + 2)) 16))
               (shl32 (get data (off + 1)) 8))
        (get data off).

Definition write_le (data : list Z) (off : nat) (x : Z) : list Z :=
  let data := upd data (off + 3) (wrap8 (shr x 24)) in
  let data := upd data (off + 2) (wrap8 (shr x 16)) in
  let data := upd data (off + 1) (wrap8 (shr x 8)) in
  upd data off (wrap8 x).

(** [bn_read_be]: every limb of [out_number] is written. *)
Definition bn_read_be (in_number : list Z) : bignum256 :=
  let '(temp, out) :=
    for_up 0 8 (fun i '(temp, out) =>
        let limb := read_be in_number ((7 - i) * 4) in
        let temp := Z.lor temp (shl32 limb (2 * Z.of_nat i)) in
        let out := upd out i (Z.land temp 0x3FFFFFFF) in
        (shr limb (30 - 2 * Z.of_nat i), out))
      (0, bn_zero) in
  upd out 8 temp.

(** [bn_write_be]: writes the 32 bytes of [out_number]. *)
Definition bn_write_be (in_number : bignum256) (out_number : list Z) : list Z :=
  snd (for_up 0 8 (fun i '(temp, out) =>
         let limb := get in_number (7 - i) in
         let temp := Z.lor (shl32 temp (16 + 2 * Z.of_nat i))
                           (shr limb (14 - 2 * Z.of_nat i)) in
         (limb, write_be out (i * 4) temp))
       (get in_number 8, out_number)).

(** [bn_read_le] *)
Definition bn_read_le (in_number : list Z) : bignum256 :=
  let '(temp, out) :=
    for_up 0 8 (fun i '(temp, out) =>
        let limb := read_le in_number (i * 4) in
        let temp := Z.lor temp (shl32 limb (2 * Z.of_nat i)) in
        let out := upd out i (Z.land temp 0x3FFFFFFF) in
        (shr limb (30 - 2 * Z.of_nat i), out))
      (0, bn_zero) in
  upd out 8 temp.

(** [bn_write_le] *)
Definition bn_write_le (in_number : bignum256) (out_number : list Z) : list Z :=
  snd (for_up 0 8 (fun i '(temp, out) =>
         let limb := get in_number (7 - i) in
         let temp := Z.lor (shl32 temp (16 + 2 * Z.of_nat i))
                           (shr limb (14 - 2 * Z.of_nat i)) in
         (limb, write_le out ((7 - i) * 4) temp))
       (get in_number 8, out_number)).

(** ** Predicates *)

(** [bn_is_zero] *)
Definition bn_is_zero (a : bignum256) : bool :=
  let result := for_up 0 9 (fun i result => Z.lor result (get a i)) 0 in
  lnot result.

(** [bn_is_less] *)
Definition bn_is_less (a b : bignum256) : bool :=
  let '(res1, res2) :=
    for_down 8 9 (fun i '(res1, res2) =>
        (Z.lor (shl32 res1 1) (ltu (get a i) (get b i)),
         Z.lor (shl32 res2 1) (gtu (get a i) (get b i))))
      (0, 0) in
  res2 <? res1.

(** [bn_is_equal] *)
Definition bn_is_equal (a b : bignum256) : bool :=
  let result :=
    for_up 0 9 (fun i result => Z.lor result (Z.lxor (get a i) (get b i))) 0 in
  lnot result.

(** ** Subtraction *)

(** [bn_subtract]: res = a - b *)
Definition bn_subtract (a b : bignum256) : bignum256 :=
  snd (for_up 0 9 (fun i '(tmp, res) =>
         let tmp := add32 tmp (sub32 (add32 0x3FFFFFFF (get a i)) (get b i)) in
         let res := upd res i (Z.land tmp 0x3FFFFFFF) in
         (shr tmp 30, res))
       (1, bn_zero)).

(** ** Reduction modulo a prime close to 2^256 *)

(** [bn_fast_mod]: partly reduce x modulo prime (x is updated in place). *)
Definition bn_fast_mod (x prime : bignum256) : bignum256 :=
  let coef := shr (get x 8) 16 in
  let temp := sub64 (add64 0x2000000000000000 (get x 0))
                    (mul64 (get prime 0) coef) in
  let x := upd x 0 (Z.land temp 0x3FFFFFFF) in
  snd (for_up 1 8 (fun j '(temp, x) =>
         let temp := shr temp 30 in
         let temp := add64 temp (sub64 (add64 0x1FFFFFFF80000000 (get x j))
                                       (mul64 (get prime j) coef)) in
         (temp, upd x j (Z.land temp 0x3FFFFFFF)))
       (temp, x)).

(** [bn_mod]: x >= prime ? x - prime : x, by [bn_cmov]. *)
Definition bn_cmov (cond : Z) (truecase falsecase : bignum256) : bignum256 :=
  let tmask := neg32 cond in
  let fmask := not32 tmask in
  for_up 0 9 (fun i res =>
      upd res i (Z.lor (Z.land (get truecase i) tmask)
                       (Z.land (get falsecase i) fmask)))
    bn_zero.

Definition b2z (b : bool) : Z := if b then 1 else 0.

Definition bn_mod (x prime : bignum256) : bignum256 :=
  let flag := b2z (bn_is_less x prime) in
  let temp := bn_subtract x prime in
  bn_cmov flag x temp.

(** ** Multiplication *)

(** [bn_multiply_long]: k * x as eighteen digits in base 2^30. *)
Definition bn_multiply_long (k x : bignum256) (res : list Z) : list Z :=
  let '(temp, res) :=
    for_up 0 9 (fun i '(temp, res) =>
        let temp :=
          for_up 0 (S i) (fun j temp =>
              add64 temp (mul64 (get k j) (get x (i - j)))) temp in
        (shr temp 30, upd res i (Z.land temp 0x3FFFFFFF)))
      (0, res) in
  let '(temp, res) :=
    for_up 9 8 (fun i '(temp, res) =>
        let temp :=
          for_up (i - 8) (17 - i) (fun j temp =>
              add64 temp (mul64 (get k j) (get x (i - j)))) temp in
        (shr temp 30, upd res i (Z.land temp 0x3FFFFFFF)))
      (temp, res) in
  upd res 17 (wrap32 temp).

(** [bn_multiply_reduce_step] *)
Definition bn_multiply_reduce_step (res : list Z) (prime : bignum256) (i : nat)
  : list Z :=
  let coef := add32 (shr (get res i) 16) (shl32 (get res (i + 1)) 14) in
  let temp := sub64 (add64 0x2000000000000000 (get res (i - 8)))
                    (mul64 (get prime 0) coef) in
  let res := upd res (i - 8) (Z.land temp 0x3FFFFFFF) in
  let '(temp, res) :=
    for_up 1 8 (fun j '(temp, res) =>
        let temp := shr temp 30 in
        let temp :=
          add64 temp (sub64 (add64 0x1FFFFFFF80000000 (get res (i - 8 + j)))
                            (mul64 (get prime j) coef)) in
        (temp, upd res (i - 8 + j) (Z.land temp 0x3FFFFFFF)))
      (temp, res) in
  let temp := shr temp 30 in
  let temp := add64 temp (add64 0x1FFFFFFF80000000 (get res (i - 8 + 9))) in
  upd res (i - 8 + 9) (Z.land temp 0x3FFFFFFF).

(** [bn_multiply_reduce]: returns the new [x] and the final contents of
    [res]. *)
Definition bn_multiply_reduce (x : bignum256) (res : list Z) (prime : bignum256)
  : bignum256 * list Z :=
  let res := for_down 16 9 (fun i res => bn_multiply_reduce_step res prime i) res in
  (for_up 0 9 (fun i x => upd x i (get res i)) x, res).

(** Modelled from the spec: [memzero] (declared in memzero.h, which is not
    among the sources) is the "securely erase buffer" primitive; it
    overwrites the whole buffer with zero bytes. *)
Definition memzero (buf : list Z) : list Z := repeat 0 (length buf).

(** [bn_multiply]: returns the new [x] together with the contents of the
    local scratch array [res] when the function returns. *)
Definition bn_multiply_st (k x prime : bignum256) : bignum256 * list Z :=
  let res := repeat 0 18 in
  let res := bn_multiply_long k x res in
  let '(x, res) := bn_multiply_reduce x res prime in
  let res := memzero res in
  (x, res).

Definition bn_multiply (k x prime : bignum256) : bignum256 :=
  fst (bn_multiply_st k x prime).

(** ** Small constructors *)

(** [bn_read_uint32] *)
Definition bn_read_uint32 (in_number : Z) : bignum256 :=
  [Z.land in_number 0x3FFFFFFF; shr in_number 30; 0; 0; 0; 0; 0; 0; 0].

(** [bn_read_uint64] *)
Definition bn_read_uint64 (in_number : Z) : bignum256 :=
  let v0 := Z.land in_number 0x3FFFFFFF in
  let in_number := shr in_number 30 in
  let v1 := Z.land in_number 0x3FFFFFFF in
  let in_number := shr in_number 30 in
  [wrap32 v0; wrap32 v1; wrap32 in_number; 0; 0; 0; 0; 0; 0].

(** [bn_one] *)
Definition bn_one : bignum256 := [1; 0; 0; 0; 0; 0; 0; 0; 0].

(** ** Division by small constants *)

(** [bn_divmod58]: a / 58 and the remainder. *)
Definition bn_divmod58 (a : bignum256) : bignum256 * Z :=
  let rem := get a 8 mod 58 in
  let a := upd a 8 (get a 8 / 58) in
  for_down 7 8 (fun i '(a, rem) =>
      let tmp := add32 (mul32 rem 4) (get a i) in
      let a := upd a i (add32 (mul32 rem 18512790) (tmp / 58)) in
      (a, tmp mod 58))
    (a, rem).

(** [bn_divmod1000]: a / 1000 and the remainder. *)
Definition bn_divmod1000 (a : bignum256) : bignum256 * Z :=
  let rem := get a 8 mod 1000 in
  let a := upd a 8 (get a 8 / 1000) in
  for_down 7 8 (fun i '(a, rem) =>
      let tmp := add32 (mul32 rem 824) (get a i) in
      let a := upd a i (add32 (mul32 rem 1073741) (tmp / 1000)) in
      (a, tmp mod 1000))
    (a, rem).

(** [bn_digitcount]: [i] runs over 0, 3, ..., 75. *)
Definition bn_digitcount (a : bignum256) : Z :=
  snd (for_up 0 26 (fun k '(val, digits) =>
         let i := 3 * Z.of_nat k in
         let '(val, limb) := bn_divmod1000 val in
         let digits :=
           if 100 <=? limb then i + 3
           else if 10 <=? limb then i + 2
           else if 1 <=? limb then i + 1
           else digits in
         (val, digits))
       (a, 1)).

(** ** Decimal formatting

    The output buffer is a [list ascii]; the pointers [start], [end] and
    [str] are indices into it.  An access outside the buffer is undefined
    behaviour of the C program and is reported as [Undefined]. *)

Inductive outcome (A : Type) : Type :=
| Ok (a : A)
| Return0 (out : list ascii)
| Undefined.

Arguments Ok {A} a.
Arguments Return0 {A} out.
Arguments Undefined {A}.

Definition bind {A B : Type} (m : outcome A) (f : A -> outcome B) : outcome B :=
  match m with
  | Ok a => f a
  | Return0 out => Return0 out
  | Undefined => Undefined
  end.

Record fmt : Type := mk_fmt {
  f_out : list ascii;
  f_str : nat;
  f_decimals : Z;
  f_exponent : Z
}.

(** ['0' + (n)] stored into a [char]. *)
Definition digit_char (n : Z) : ascii := ascii_of_N (Z.to_N ((48 + n) mod 256)).

(** [BN_FORMAT_PUSH_CHECKED(c)] *)
Definition push_checked (start : nat) (c : ascii) (s : fmt) : outcome fmt :=
  if Nat.eqb (f_str s) start then Return0 (f_out s)
  else
    match f_str s with
    | O => Undefined
    | S str' =>
        if Nat.ltb str' (length (f_out s))
        then Ok (mk_fmt (upd (f_out s) str' c) str' (f_decimals s) (f_exponent s))
        else Undefined
    end.

(** [BN_FORMAT_PUSH(n)] *)
Definition format_push (start end_ : nat) (trailing : bool) (n : Z) (s : fmt)
  : outcome fmt :=
  if f_exponent s <? 0 then
    Ok (mk_fmt (f_out s) (f_str s) (f_decimals s) (f_exponent s + 1))
  else
    bind (if (0 <? n) || trailing || negb (Nat.eqb (f_str s) end_)
             || (f_decimals s <=? 1)
          then push_checked start (digit_char n) s
          else Ok s)
      (fun s =>
         if 0 <? f_decimals s then
           let s' := mk_fmt (f_out s) (f_str s) (f_decimals s - 1) (f_exponent s) in
           if f_decimals s =? 1 then push_checked start "."%char s' else Ok s'
         else Ok s).

(** [for (; exponent > 0; exponent--) BN_FORMAT_PUSH(0);] *)
Fixpoint format_exponent (start end_ : nat) (trailing : bool) (n : nat) (s : fmt)
  : outcome fmt :=
  match n with
  | O => Ok s
  | S n' =>
      bind (format_push start end_ trailing 0 s)
        (fun s =>
           format_exponent start end_ trailing n'
             (mk_fmt (f_out s) (f_str s) (f_decimals s) (f_exponent s - 1)))
  end.

(** The three pushes of one group of three digits. *)
Definition format_group (start end_ : nat) (trailing : bool) (limb : Z) (s : fmt)
  : outcome fmt :=
  bind (format_push start end_ trailing (limb mod 10) s) (fun s =>
  let limb := limb / 10 in
  bind (format_push start end_ trailing (limb mod 10) s) (fun s =>
  let limb := limb / 10 in
  format_push start end_ trailing (limb mod 10) s)).

(** [for (i = 0; i < digits / 3; i++) ...] *)
Fixpoint format_groups (start end_ : nat) (trailing : bool) (n : nat)
    (val : bignum256) (s : fmt) : outcome (bignum256 * fmt) :=
  match n with
  | O => Ok (val, s)
  | S n' =>
      let '(val, limb) := bn_divmod1000 val in
      bind (format_group start end_ trailing limb s)
        (fun s => format_groups start end_ trailing n' val s)
  end.

(** [if (digits % 3 != 0) ... switch (digits % 3)] *)
Definition format_rest (start end_ : nat) (trailing : bool) (digits : Z)
    (val : bignum256) (s : fmt) : outcome fmt :=
  if digits mod 3 =? 0 then Ok s
  else
    let '(val, limb) := bn_divmod1000 val in
    if digits mod 3 =? 2 then
      bind (format_push start end_ trailing (limb mod 10) s) (fun s =>
      let limb := limb / 10 in
      format_push start end_ trailing (limb mod 10) s)
    else if digits mod 3 =? 1 then
      format_push start end_ trailing (limb mod 10) s
    else Ok s.

(** [while (decimals > 0 || str[0] == '\0' || str[0] == '.')
       BN_FORMAT_PUSH(0);]
    [None] when the fuel does not suffice. *)
Fixpoint format_while (start end_ : nat) (trailing : bool) (fuel : nat) (s : fmt)
  : option (outcome fmt) :=
  let c := nth (f_str s) (f_out s) zero in
  if (0 <? f_decimals s) || Ascii.eqb c zero || Ascii.eqb c "."%char then
    match fuel with
    | O => None
    | S fuel' =>
        match format_push start end_ trailing 0 s with
        | Ok s => format_while start end_ trailing fuel' s
        | Return0 out => Some (Return0 out)
        | Undefined => Some Undefined
        end
    end
  else Some (Ok s).

Definition strlen_opt (s : option (list ascii)) : nat :=
  match s with
  | Some l => length l
  | None => 0
  end.

Definition chars_opt (s : option (list ascii)) : list ascii :=
  match s with
  | Some l => l
  | None => []
  end.

(** [memcpy(&dst[off], src, n)] and [memmove] inside one buffer. *)
Definition memcpy (dst : list ascii) (off : nat) (src : list ascii)
  : outcome (list ascii) :=
  if Nat.leb (off + length src) (length dst)
  then Ok (firstn off dst ++ src ++ skipn (off + length src) dst)
  else Undefined.

(** The iterations the final loop of [bn_format] can take. *)
Definition format_fuel (s : fmt) : nat :=
  Z.to_nat (- f_exponent s) + Z.to_nat (f_decimals s) + 2.

(** The part of [bn_format] from the exponent loop to the digits: [s]
    holds the buffer after prefix, suffix and terminator are in place. *)
Definition format_body (start end_ : nat) (trailing : bool) (val : bignum256)
    (s : fmt) : outcome fmt :=
  bind (format_exponent start end_ trailing (Z.to_nat (f_exponent s)) s) (fun s =>
  let digits := bn_digitcount val in
  bind (format_groups start end_ trailing (Z.to_nat (digits / 3)) val s)
    (fun '(val, s) => format_rest start end_ trailing digits val s)).

(** The final [memmove] and the returned length. *)
Definition format_finish (prefixlen outlen : nat) (s : fmt)
  : outcome (nat * list ascii) :=
  let len := (outlen - f_str s)%nat in
  if Nat.leb (prefixlen + len) outlen
  then Ok ((prefixlen + len - 1)%nat,
           firstn prefixlen (f_out s) ++ skipn (f_str s) (f_out s)
             ++ skipn (prefixlen + len) (f_out s))
  else Undefined.

(** The final loop, then [format_finish]. *)
Definition format_loop (start end_ : nat) (trailing : bool)
    (prefixlen outlen : nat) (r : outcome fmt)
  : option (outcome (nat * list ascii)) :=
  match r with
  | Ok s =>
      match format_while start end_ trailing (format_fuel s) s with
      | None => None
      | Some r' => Some (bind r' (format_finish prefixlen outlen))
      end
  | Return0 out => Some (Return0 out)
  | Undefined => Some Undefined
  end.

(** Prefix, suffix and terminator are written first. *)
Definition format_prologue (pfx sfx out : list ascii) : outcome (list ascii) :=
  let outlen := length out in
  bind (if Nat.eqb (length pfx) 0 then Ok out else memcpy out 0 pfx) (fun out =>
  bind (if Nat.eqb (length sfx) 0 then Ok out
        else if Nat.leb (length sfx + 1) outlen
             then memcpy out (outlen - length sfx - 1) sfx
             else Undefined) (fun out =>
  if Nat.leb 1 outlen then Ok (upd out (outlen - 1) zero) else Undefined)).

(** [bn_format]; [outlen] is the length of [out].  The result is the
    returned length together with the buffer, [Return0] with the buffer
    when the function returns 0; [None] would mean that the final loop
    does not end within [format_fuel] iterations. *)
Definition bn_format (amnt : bignum256) (prefix suffix : option (list ascii))
    (decimals : Z) (exponent : Z) (trailing : bool) (out : list ascii)
  : option (outcome (nat * list ascii)) :=
  let outlen := length out in
  let prefixlen := strlen_opt prefix in
  let suffixlen := strlen_opt suffix in
  match format_prologue (chars_opt prefix) (chars_opt suffix) out with
  | Ok out =>
      let start := prefixlen in
      let end_ := (outlen - suffixlen - 1)%nat in
      let val := amnt in
      let exponent := if bn_is_zero val then 0 else exponent in
      format_loop start end_ trailing prefixlen outlen
        (format_body start end_ trailing val (mk_fmt out end_ decimals exponent))
  | Return0 out => Some (Return0 out)
  | Undefined => Some Undefined
  end.

(** The C string stored at the beginning of a buffer. *)
Fixpoint c_string (buf : list ascii) : list ascii :=
  match buf with
  | [] => []
  | c :: t => if Ascii.eqb c zero then [] else c :: c_string t
  end.

(** ** Addition, shifts and bits *)

(** [bn_add]: a = a + b *)
Definition bn_add (a b : bignum256) : bignum256 :=
  snd (for_up 0 9 (fun i '(tmp, a) =>
         let tmp := add32 tmp (add32 (get a i) (get b i)) in
         (shr tmp 30, upd a i (Z.land tmp 0x3FFFFFFF)))
       (0, a)).

(** [bn_addi]: a = a + b for a 32-bit [b] *)
Definition bn_addi (a : bignum256) (b : Z) : bignum256 :=
  snd (for_up 0 9 (fun i '(tmp, a) =>
         let tmp := add32 tmp (get a i) in
         (shr tmp 30, upd a i (Z.land tmp 0x3FFFFFFF)))
       (b, a)).

(** [bn_normalize] *)
Definition bn_normalize (a : bignum256) : bignum256 := bn_addi a 0.

(** [bn_addmod] *)
Definition bn_addmod (a b prime : bignum256) : bignum256 :=
  let a := for_up 0 9 (fun i a => upd a i (add32 (get a i) (get b i))) a in
  bn_fast_mod a prime.

(** [bn_subi] *)
Definition bn_subi (a : bignum256) (b : Z) (prime : bignum256) : bignum256 :=
  let a := upd a 0 (sub32 (get a 0) b) in
  bn_add a prime.

(** [bn_subtractmod]: res = a + (2 * prime - b) *)
Definition bn_subtractmod (a b prime : bignum256) : bignum256 :=
  snd (for_up 0 9 (fun i '(temp, res) =>
         let temp :=
           add32 temp
             (sub32 (add32 (add32 0x3FFFFFFF (get a i)) (mul32 2 (get prime i)))
                    (get b i)) in
         (shr temp 30, upd res i (Z.land temp 0x3FFFFFFF)))
       (1, bn_zero)).

(** [bn_mult_k]: x = k * x mod prime, for a small [k] *)
Definition bn_mult_k (x : bignum256) (k : Z) (prime : bignum256) : bignum256 :=
  let x := for_up 0 9 (fun j x => upd x j (mul32 k (get x j))) x in
  bn_fast_mod x prime.

(** [bn_mult_half]: x = x / 2 mod prime *)
Definition bn_mult_half (x prime : bignum256) : bignum256 :=
  let xodd := neg32 (Z.land (get x 0) 1) in
  let tmp1 := shr (add32 (get x 0) (Z.land (get prime 0) xodd)) 1 in
  let '(tmp1, x) :=
    for_up 0 8 (fun j '(tmp1, x) =>
        let tmp2 := add32 (get x (j + 1)) (Z.land (get prime (j + 1)) xodd) in
        let tmp1 := add32 tmp1 (shl32 (Z.land tmp2 1) 29) in
        let x := upd x j (Z.land tmp1 0x3fffffff) in
        let tmp1 := shr tmp1 30 in
        let tmp1 := add32 tmp1 (shr tmp2 1) in
        (tmp1, x))
      (tmp1, x) in
  upd x 8 tmp1.

(** [bn_lshift]: a = 2 * a *)
Definition bn_lshift (a : bignum256) : bignum256 :=
  let a :=
    for_down 8 8 (fun i a =>
        upd a i (Z.lor (Z.land (shl32 (get a i) 1) 0x3FFFFFFF)
                       (shr (Z.land (get a (i - 1)) 0x20000000) 29)))
      a in
  upd a 0 (Z.land (shl32 (get a 0) 1) 0x3FFFFFFF).

(** [bn_rshift]: a = a / 2 *)
Definition bn_rshift (a : bignum256) : bignum256 :=
  let a :=
    for_up 0 8 (fun i a =>
        upd a i (Z.lor (shr (get a i) 1) (shl32 (Z.land (get a (i + 1)) 1) 29)))
      a in
  upd a 8 (shr (get a 8) 1).

(** [bn_setbit], [bn_clearbit], [bn_testbit]; [bit] is a [uint8_t]. *)
Definition bn_setbit (a : bignum256) (bit : Z) : bignum256 :=
  let i := Z.to_nat (bit / 30) in
  upd a i (Z.lor (get a i) (shl32 1 (bit mod 30))).

Definition bn_clearbit (a : bignum256) (bit : Z) : bignum256 :=
  let i := Z.to_nat (bit / 30) in
  upd a i (Z.land (get a i) (not32 (shl32 1 (bit mod 30)))).

Definition bn_testbit (a : bignum256) (bit : Z) : Z :=
  Z.land (get a (Z.to_nat (bit / 30))) (shl32 1 (bit mod 30)).

(** [bn_xor]: a = b ^ c *)
Definition bn_xor (b c : bignum256) : bignum256 :=
  for_up 0 9 (fun i a => upd a i (Z.lxor (get b i) (get c i))) bn_zero.

(** [bn_bitcount]; [32 - __builtin_clz(tmp)] is the bit length of [tmp]. *)
Definition bn_bitcount (a : bignum256) : Z :=
  match
    for_down 8 9 (fun i r =>
        match r with
        | Some _ => r
        | None =>
            let tmp := get a i in
            if tmp =? 0 then None else Some (Z.of_nat i * 30 + (Z.log2 tmp + 1))
        end)
      None
  with
  | Some r => r
  | None => 0
  end.

(** ** Exponentiation *)

(** The loop over the 30 bits of one exponent limb, shared by [bn_sqrt] and
    [bn_inverse]; [i] is the index of the limb and [n] the number of
    iterations left. *)
Fixpoint pow_bits (i n : nat) (limb : Z) (x res prime : bignum256)
  : bignum256 * bignum256 :=
  match n with
  | O => (x, res)
  | S n' =>
      if Nat.eqb i 8 && (limb =? 0) then (x, res)
      else
        let res := if Z.land limb 1 =? 0 then res else bn_multiply x res prime in
        let limb := shr limb 1 in
        let x := bn_multiply x x prime in
        pow_bits i n' limb x res prime
  end.

(** [bn_inverse]: returns the new [x] together with the contents of the
    local accumulator [res] when the function returns. *)
Definition bn_inverse_st (x prime : bignum256) : bignum256 * bignum256 :=
  let res := bn_one in
  let '(x, res) :=
    for_up 0 9 (fun i '(x, res) =>
        let limb := get prime i in
        let limb := if Nat.eqb i 0 then sub32 limb 2 else limb in
        pow_bits i 30 limb x res prime)
      (x, res) in
  let res := bn_mod res prime in
  let x := res in
  (x, res).

Definition bn_inverse (x prime : bignum256) : bignum256 :=
  fst (bn_inverse_st x prime).

(** [bn_sqrt]: returns the new [x] together with the contents of the locals
    [res] and [p] when the function returns. *)
Definition bn_sqrt_st (x prime : bignum256)
  : bignum256 * bignum256 * bignum256 :=
  let res := bn_one in
  let p := prime in
  let p := bn_addi p 1 in
  let p := bn_rshift p in
  let p := bn_rshift p in
  let '(x, res) :=
    for_up 0 9 (fun i '(x, res) =>
        let limb := get p i in
        pow_bits i 30 limb x res prime)
      (x, res) in
  let res := bn_mod res prime in
  let x := res in
  let res := memzero res in
  let p := memzero p in
  (x, res, p).

Definition bn_sqrt (x prime : bignum256) : bignum256 :=
  fst (fst (bn_sqrt_st x prime)).

(** ** The predicates as C programs, and what their execution lets out

    [bn_is_zero], [bn_is_equal] and [bn_is_less] (and, for contrast,
    [bn_bitcount]) once more, as abstract syntax of the C statements they
    are made of.  The semantics below runs any such program and records what
    an observer of the execution path sees: the outcome of every branch
    (loop test or [if]) and the index of every array access.

    The operators [<], [>], [!=] and [!] of C yield a value.  Whether
    computing that value is itself a branch is up to the target, and the
    source says so: "constant time (on some architectures, in particular
    ARM)".  A [Predicated] target computes a comparison into a register
    (conditional instructions, as ARM has them); a [Jumping] target computes
    it with a conditional jump, whose outcome the observer sees. *)

Inductive operand : Type := OpA | OpB.

Inductive observation : Type :=
| Branch (taken : bool)
| Access (arr : operand) (index : Z).

Inductive target : Type := Predicated | Jumping.

(** The local variables of the four functions. *)
Inductive cvar : Type := Vi | Vtmp | Vresult | Vres1 | Vres2.

Definition cvar_eqb (x y : cvar) : bool :=
  match x, y with
  | Vi, Vi | Vtmp, Vtmp | Vresult, Vresult | Vres1, Vres1 | Vres2, Vres2 => true
  | _, _ => false
  end.

(** [int] arithmetic and comparisons (the loop counter), [uint32_t] bit
    operations and comparisons (the limbs). *)
Inductive binop : Type :=
| Oadd | Osub | Omul
| Olt | Oge | One
| Oor | Oxor | Oshl
| Oltu | Ogtu.

(** [!e] and [32 - __builtin_clz(e)]. *)
Inductive unop : Type := Unot | Ubitlen.

Inductive expr : Type :=
| EConst (z : Z)
| EVar (v : cvar)
| ELoad (arr : operand) (index : expr)
| EBin (op : binop) (e1 e2 : expr)
| EUn (op : unop) (e : expr).

(** [SLoop c body step] is [for (; c; step) body]. *)
Inductive stmt : Type :=
| SSkip
| SAssign (v : cvar) (e : expr)
| SSeq (s1 s2 : stmt)
| SIf (c : expr) (s1 s2 : stmt)
| SLoop (c : expr) (body step : stmt)
| SReturn (e : expr).

Definition SFor (init : stmt) (c : expr) (step body : stmt) : stmt :=
  SSeq init (SLoop c body step).

Definition store : Type := cvar -> Z.

Definition set_var (st : store) (v : cvar) (x : Z) : store :=
  fun w => if cvar_eqb w v then x else st w.

Definition binop_sem (op : binop) (x y : Z) : Z :=
  match op with
  | Oadd => x + y
  | Osub => x - y
  | Omul => x * y
  | Olt => b2z (x <? y)
  | Oge => b2z (y <=? x)
  | One => b2z (negb (x =? y))
  | Oor => Z.lor x y
  | Oxor => Z.lxor x y
  | Oshl => shl32 x y
  | Oltu => ltu x y
  | Ogtu => gtu x y
  end.

Definition unop_sem (op : unop) (x : Z) : Z :=
  match op with
  | Unot => b2z (lnot x)
  | Ubitlen => Z.log2 x + 1
  end.

Definition comparison (op : binop) : bool :=
  match op with
  | Olt | Oge | One | Oltu | Ogtu => true
  | _ => false
  end.

Definition negation (op : unop) : bool :=
  match op with
  | Unot => true
  | Ubitlen => false
  end.

(** What computing a comparison with result [x] lets out. *)
Definition jump (tgt : target) (is_comparison : bool) (x : Z)
  : list observation :=
  match tgt with
  | Predicated => []
  | Jumping => if is_comparison then [Branch (negb (x =? 0))] else []
  end.

(** [arr->val[i]]; an index outside the array is undefined behaviour
    ([None]). *)
Definition load (a b : bignum256) (arr : operand) (i : Z) : option Z :=
  if 0 <=? i
  then nth_error (match arr with OpA => a | OpB => b end) (Z.to_nat i)
  else None.

(** The value of an expression and the observations of its evaluation. *)
Fixpoint eval (tgt : target) (a b : bignum256) (st : store) (e : expr)
  : option (Z * list observation) :=
  match e with
  | EConst z => Some (z, [])
  | EVar v => Some (st v, [])
  | ELoad arr index =>
      match eval tgt a b st index with
      | Some (i, t) =>
          match load a b arr i with
          | Some x => Some (x, t ++ [Access arr i])
          | None => None
          end
      | None => None
      end
  | EBin op e1 e2 =>
      match eval tgt a b st e1 with
      | Some (x, t1) =>
          match eval tgt a b st e2 with
          | Some (y, t2) =>
              let z := binop_sem op x y in
              Some (z, t1 ++ t2 ++ jump tgt (comparison op) z)
          | None => None
          end
      | None => None
      end
  | EUn op e1 =>
      match eval tgt a b st e1 with
      | Some (x, t) =>
          let z := unop_sem op x in
          Some (z, t ++ jump tgt (negation op) z)
      | None => None
      end
  end.

(** The result of running a statement: the store, the returned value when a
    [return] was executed, and the observations.  [None]: undefined
    behaviour, or more than [fuel] nested steps. *)
Definition result : Type := (store * option Z * list observation)%type.

Fixpoint exec (tgt : target) (fuel : nat) (a b : bignum256) (s : stmt)
  (st : store)
  : option result :=
  match fuel with
  | O => None
  | S fuel =>
      match s with
      | SSkip => Some (st, None, [])
      | SAssign v e =>
          match eval tgt a b st e with
          | Some (x, t) => Some (set_var st v x, None, t)
          | None => None
          end
      | SSeq s1 s2 =>
          match exec tgt fuel a b s1 st with
          | Some (st1, None, t1) =>
              match exec tgt fuel a b s2 st1 with
              | Some (st2, r, t2) => Some (st2, r, t1 ++ t2)
              | None => None
              end
          | Some (st1, Some r, t1) => Some (st1, Some r, t1)
          | None => None
          end
      | SIf c s1 s2 =>
          match eval tgt a b st c with
          | Some (x, t) =>
              match exec tgt fuel a b (if x =? 0 then s2 else s1) st with
              | Some (st1, r, t1) =>
                  Some (st1, r, t ++ Branch (negb (x =? 0)) :: t1)
              | None => None
              end
          | None => None
          end
      | SLoop c body step =>
          match eval tgt a b st c with
          | Some (x, t) =>
              if x =? 0 then Some (st, None, t ++ [Branch false])
              else
                match exec tgt fuel a b body st with
                | Some (st1, None, t1) =>
                    match exec tgt fuel a b step st1 with
                    | Some (st2, _, t2) =>
                        match exec tgt fuel a b (SLoop c body step) st2 with
                        | Some (st3, r, t3) =>
                            Some (st3, r, t ++ Branch true :: t1 ++ t2 ++ t3)
                        | None => None
                        end
                    | None => None
                    end
                | Some (st1, Some r, t1) =>
                    Some (st1, Some r, t ++ Branch true :: t1)
                | None => None
                end
          | None => None
          end
      | SReturn e =>
          match eval tgt a b st e with
          | Some (x, t) => Some (st, Some x, t)
          | None => None
          end
      end
  end.

(** Running a function body: the locals start uninitialised (here 0; every
    program assigns a local before it reads it). *)
Definition run (tgt : target) (s : stmt) (a b : bignum256) : option result :=
  exec tgt 64 a b s (fun _ => 0).

Definition returned (r : option result) : option Z :=
  match r with
  | Some (_, x, _) => x
  | None => None
  end.

Definition leakage (r : option result) : option (list observation) :=
  match r with
  | Some (_, _, t) => Some t
  | None => None
  end.




(** [bn_bitcount], which leaves its loop at the first limb that is not
    zero. *)
Definition bn_bitcount_c : stmt :=
  SSeq (SFor (SAssign Vi (EConst 8))
             (EBin Oge (EVar Vi) (EConst 0))
             (SAssign Vi (EBin Osub (EVar Vi) (EConst 1)))
         (SSeq (SAssign Vtmp (ELoad OpA (EVar Vi)))
               (SIf (EBin One (EVar Vtmp) (EConst 0))
                    (SReturn (EBin Oadd (EBin Omul (EVar Vi) (EConst 30))
                                        (EUn Ubitlen (EVar Vtmp))))
                    SSkip)))
  (SReturn (EConst 0)).



(** *** A check for data-independent execution paths

    The loop counter is public, everything read from the operands is
    secret.  A statement passes the check when every branch condition,
    every array index and every operand of a comparison that the target
    computes with a jump is built from constants and public variables only,
    and public variables are assigned public expressions only. *)

Definition public (v : cvar) : bool :=
  match v with
  | Vi => true
  | _ => false
  end.

Fixpoint public_expr (e : expr) : bool :=
  match e with
  | EConst _ => true
  | EVar v => public v
  | ELoad _ _ => false
  | EBin _ e1 e2 => public_expr e1 && public_expr e2
  | EUn _ e1 => public_expr e1
  end.

Definition jumps (tgt : target) (is_comparison : bool) : bool :=
  match tgt with
  | Predicated => false
  | Jumping => is_comparison
  end.

Fixpoint public_path (tgt : target) (e : expr) : bool :=
  match e with
  | EConst _ | EVar _ => true
  | ELoad _ index => public_expr index
  | EBin op e1 e2 =>
      public_path tgt e1 && public_path tgt e2
      && (negb (jumps tgt (comparison op)) || (public_expr e1 && public_expr e2))
  | EUn op e1 =>
      public_path tgt e1 && (negb (jumps tgt (negation op)) || public_expr e1)
  end.

Fixpoint constant_path (tgt : target) (s : stmt) : bool :=
  match s with
  | SSkip => true
  | SAssign v e => public_path tgt e && (negb (public v) || public_expr e)
  | SSeq s1 s2 => constant_path tgt s1 && constant_path tgt s2
  | SIf c s1 s2 =>
      public_expr c && constant_path tgt s1 && constant_path tgt s2
  | SLoop c body step =>
      public_expr c && constant_path tgt body && constant_path tgt step
  | SReturn e => public_path tgt e
  end.



(** ** Loop-free forms of the limb loops

    Each C loop over the nine limbs is also given as a recursion on the limb
    lists; the two forms are proved equal on nine-limb arrays. *)

Fixpoint sub_chain (tmp : Z) (a b : list Z) : list Z :=
  match a, b with
  | x :: a', y :: b' =>
      let t := add32 tmp (sub32 (add32 0x3FFFFFFF x) y) in
      Z.land t 0x3FFFFFFF :: sub_chain (shr t 30) a' b'
  | _, _ => []
  end.

Fixpoint less_acc (a b : list Z) : Z * Z :=
  match a, b with
  | x :: a', y :: b' =>
      let '(r1, r2) := less_acc a' b' in
      (Z.lor (shl32 r1 1) (ltu x y), Z.lor (shl32 r2 1) (gtu x y))
  | _, _ => (0, 0)
  end.

Fixpoint xor_acc (r : Z) (a b : list Z) : Z :=
  match a, b with
  | x :: a', y :: b' => xor_acc (Z.lor r (Z.lxor x y)) a' b'
  | _, _ => r
  end.

Fixpoint or_acc (r : Z) (a : list Z) : Z :=
  match a with
  | x :: a' => or_acc (Z.lor r x) a'
  | [] => r
  end.

(** The biased subtract-and-carry loop shared by [bn_fast_mod] and
    [bn_multiply_reduce_step]: returns the last accumulator and the limbs
    written. *)
Fixpoint red_chain (coef temp : Z) (x p : list Z) : Z * list Z :=
  match x, p with
  | xj :: x', pj :: p' =>
      let temp := shr temp 30 in
      let temp := add64 temp (sub64 (add64 0x1FFFFFFF80000000 xj)
                                    (mul64 pj coef)) in
      let '(t, r) := red_chain coef temp x' p' in
      (t, Z.land temp 0x3FFFFFFF :: r)
  | _, _ => (temp, [])
  end.

(** One window of [bn_multiply_reduce_step]: the ten limbs
    [res[i-8] .. res[i+1]]. *)
Definition step10 (win : list Z) (p : bignum256) : list Z :=
  let coef := add32 (shr (get win 8) 16) (shl32 (get win 9) 14) in
  let temp := sub64 (add64 0x2000000000000000 (get win 0))
                    (mul64 (get p 0) coef) in
  let '(t, r) := red_chain coef temp (firstn 8 (tl win)) (tl p) in
  let temp' := add64 (shr t 30) (add64 0x1FFFFFFF80000000 (get win 9)) in
  Z.land temp 0x3FFFFFFF :: r ++ [Z.land temp' 0x3FFFFFFF].

(** The columns of the schoolbook product and their accumulation. *)
Fixpoint acc_col (temp : Z) (prods : list (Z * Z)) : Z :=
  match prods with
  | [] => temp
  | (a, b) :: t => acc_col (add64 temp (mul64 a b)) t
  end.

Fixpoint emit_chain (temp : Z) (cols : list (list (Z * Z))) : Z * list Z :=
  match cols with
  | [] => (temp, [])
  | c :: cols' =>
      let t := acc_col temp c in
      let '(tf, r) := emit_chain (shr t 30) cols' in
      (tf, Z.land t 0x3FFFFFFF :: r)
  end.

Definition column (k x : list Z) (i : nat) : list (Z * Z) :=
  map (fun j => (get k j, get x (i - j)))
      (seq (i - 8) (if Nat.leb i 8 then S i else 17 - i)).

Definition columns (k x : list Z) : list (list (Z * Z)) :=
  map (column k x) (seq 0 17).

Fixpoint colsum (c : list (Z * Z)) : Z :=
  match c with
  | [] => 0
  | (a, b) :: t => a * b + colsum t
  end.

Fixpoint cols_value (cols : list (list (Z * Z))) : Z :=
  match cols with
  | [] => 0
  | c :: t => colsum c + 2^30 * cols_value t
  end.

Definition pair_ok (ab : Z * Z) : Prop := is_limb (fst ab) /\ is_limb (snd ab).

Definition col_ok (c : list (Z * Z)) : Prop :=
  (length c <= 9)%nat /\ Forall pair_ok c.

(** The signed carry held in a biased 64-bit accumulator. *)
Definition carry (temp : Z) : Z := temp / 2^30 - 2^31.

(** The product [prime->val[j] * coef] stays below the bias. *)
Definition prod_ok (coef pj : Z) : Prop := 0 <= pj * coef <= 2^61 - 2^31.

(** The band of supported primes. *)
Definition in_band (p : Z) : Prop := 2^256 - 2^224 < p < 2^256.

(** Modelled from the spec: the secp256k1 field prime
    [p = 2^256 - 2^32 - 977] (the curve parameters are not among the
    sources), as nine digits in base 2^30. *)
Definition secp256k1_prime : bignum256 :=
  [0x3ffffc2f; 0x3ffffffb; 0x3fffffff; 0x3fffffff; 0x3fffffff;
   0x3fffffff; 0x3fffffff; 0x3fffffff; 0xffff].

(** ** The text [bn_format] produces, without a buffer

    [text_push] and the functions built from it follow [BN_FORMAT_PUSH]
    and the loops of [bn_format] on the list of characters pushed so far
    (most recent first in the buffer, i.e. leftmost in the output); they are
    compared with the buffer code by the simulation lemmas below. *)

Record afmt : Type := mk_afmt {
  a_text : list ascii;
  a_decimals : Z;
  a_exponent : Z
}.

Definition is_nil {A : Type} (l : list A) : bool :=
  match l with
  | [] => true
  | _ => false
  end.

Definition text_push (trailing : bool) (n : Z) (a : afmt) : afmt :=
  if a_exponent a <? 0 then
    mk_afmt (a_text a) (a_decimals a) (a_exponent a + 1)
  else
    let a :=
      if (0 <? n) || trailing || negb (is_nil (a_text a)) || (a_decimals a <=? 1)
      then mk_afmt (digit_char n :: a_text a) (a_decimals a) (a_exponent a)
      else a in
    if 0 <? a_decimals a then
      if a_decimals a =? 1
      then mk_afmt ("."%char :: a_text a) (a_decimals a - 1) (a_exponent a)
      else mk_afmt (a_text a) (a_decimals a - 1) (a_exponent a)
    else a.

Fixpoint text_exponent (trailing : bool) (n : nat) (a : afmt) : afmt :=
  match n with
  | O => a
  | S n' =>
      let a := text_push trailing 0 a in
      text_exponent trailing n' (mk_afmt (a_text a) (a_decimals a) (a_exponent a - 1))
  end.

Definition text_group (trailing : bool) (limb : Z) (a : afmt) : afmt :=
  let a := text_push trailing (limb mod 10) a in
  let limb := limb / 10 in
  let a := text_push trailing (limb mod 10) a in
  let limb := limb / 10 in
  text_push trailing (limb mod 10) a.

Fixpoint text_groups (trailing : bool) (n : nat) (val : bignum256) (a : afmt)
  : bignum256 * afmt :=
  match n with
  | O => (val, a)
  | S n' =>
      let '(val, limb) := bn_divmod1000 val in
      text_groups trailing n' val (text_group trailing limb a)
  end.

Definition text_rest (trailing : bool) (digits : Z) (val : bignum256) (a : afmt)
  : afmt :=
  if digits mod 3 =? 0 then a
  else
    let '(val, limb) := bn_divmod1000 val in
    if digits mod 3 =? 2 then
      let a := text_push trailing (limb mod 10) a in
      let limb := limb / 10 in
      text_push trailing (limb mod 10) a
    else if digits mod 3 =? 1 then text_push trailing (limb mod 10) a
    else a.

Fixpoint text_while (trailing : bool) (c_end : ascii) (fuel : nat) (a : afmt)
  : option afmt :=
  let c := hd c_end (a_text a) in
  if (0 <? a_decimals a) || Ascii.eqb c zero || Ascii.eqb c "."%char then
    match fuel with
    | O => None
    | S fuel' => text_while trailing c_end fuel' (text_push trailing 0 a)
    end
  else Some a.

Definition text_fuel (a : afmt) : nat :=
  Z.to_nat (- a_exponent a) + Z.to_nat (a_decimals a) + 2.

(** The state before the final loop. *)
Definition text_body (trailing : bool) (val : bignum256) (a : afmt) : afmt :=
  let a := text_exponent trailing (Z.to_nat (a_exponent a)) a in
  let digits := bn_digitcount val in
  let '(val, a) := text_groups trailing (Z.to_nat (digits / 3)) val a in
  text_rest trailing digits val a.

(** The digits and decimal point [bn_format] writes between prefix and
    suffix. *)
Definition format_text (amnt : bignum256) (suffix : option (list ascii))
    (decimals exponent : Z) (trailing : bool) : option (list ascii) :=
  let exponent := if bn_is_zero amnt then 0 else exponent in
  let a := text_body trailing amnt (mk_afmt [] decimals exponent) in
  match text_while trailing (hd zero (chars_opt suffix)) (text_fuel a) a with
  | Some a => Some (a_text a)
  | None => None
  end.

Definition a_push (c : ascii) (a : afmt) : afmt :=
  mk_afmt (c :: a_text a) (a_decimals a) (a_exponent a).

(** The simulation is stated once for the two ways [bn_format] can run.
    [end_] is where the text ends and [cap] the number of characters that
    can be pushed before the next push fails; the first [keep] bytes of the
    buffer are never written and hold [pfx].

    - The buffer has room for prefix, suffix and terminator: [start <= end_],
      [cap = end_ - start], [keep = start], and a push into the full region
      finds [str == start] and returns 0 ([checked = true]).
    - It has not: [end_ < start], so [str == start] never holds, the pushes
      run down to the beginning of the buffer ([cap = end_], [keep = 0]) and
      the next one writes in front of it ([checked = false]). *)
Definition fits (cap : nat) (a : afmt) : bool :=
  Nat.leb (length (a_text a)) cap.

(** The characters of [text] that were written before the region was full:
    the last [cap]. *)
Definition kept (cap : nat) (text : list ascii) : list ascii :=
  skipn (length text - cap) text.

(** [t'] is [t] with characters pushed in front of it. *)
Definition extends (t t' : list ascii) : Prop := exists ext, t' = ext ++ t.

Definition overflow {A : Type} (checked : bool) (buf : list ascii) : outcome A :=
  if checked then Return0 buf else Undefined.

(** The buffer state [s] holds the text of [a] right before [end_]. *)
Definition corr (keep end_ cap : nat) (pfx tail : list ascii) (s : fmt) (a : afmt)
  : Prop :=
  (length (a_text a) <= cap)%nat /\
  (f_str s + length (a_text a) = end_)%nat /\
  skipn (f_str s) (f_out s) = a_text a ++ tail /\
  firstn keep (f_out s) = pfx /\
  f_decimals s = a_decimals a /\
  f_exponent s = a_exponent a.

Definition sim (keep end_ cap : nat) (checked : bool) (pfx tail : list ascii)
    (r : outcome fmt) (a : afmt) : Prop :=
  if fits cap a
  then exists s, r = Ok s /\ corr keep end_ cap pfx tail s a
  else r = overflow checked (pfx ++ kept cap (a_text a) ++ tail).

(** [sim] for the loop that also threads the number being divided. *)
Definition simp (keep end_ cap : nat) (checked : bool) (pfx tail : list ascii)
    (r : outcome (bignum256 * fmt)) (p : bignum256 * afmt) : Prop :=
  sim keep end_ cap checked pfx tail (bind r (fun q => Ok (snd q))) (snd p) /\
  forall v s, r = Ok (v, s) -> v = fst p.

(** ** Loop-free forms and number encodings for the further properties *)

(** The carry loop of [bn_add], [bn_addi], [bn_subi] and [bn_subtractmod]:
    one 32-bit accumulator, one term per limb. *)
Fixpoint carry_chain (tmp : Z) (terms : list Z) : list Z :=
  match terms with
  | [] => []
  | t :: ts =>
      let tmp := add32 tmp t in
      Z.land tmp 0x3FFFFFFF :: carry_chain (shr tmp 30) ts
  end.

Fixpoint zip_with (f : Z -> Z -> Z) (a b : list Z) : list Z :=
  match a, b with
  | x :: a', y :: b' => f x y :: zip_with f a' b'
  | _, _ => []
  end.

(** The terms [0x3FFFFFFF + a[i] + 2 * prime[i] - b[i]] of [bn_subtractmod]. *)
Fixpoint submod_terms (a p b : list Z) : list Z :=
  match a, p, b with
  | x :: a', q :: p', y :: b' =>
      sub32 (add32 (add32 0x3FFFFFFF x) (mul32 2 q)) y :: submod_terms a' p' b'
  | _, _, _ => []
  end.

(** A term that the 32-bit accumulator takes together with a carry. *)
Definition small_term (t : Z) : Prop := 0 <= t <= 2^32 - 4.

(** The loop of [bn_mult_half] over the terms [x[j+1] + (prime[j+1] & xodd)]. *)
Fixpoint half_chain (tmp1 : Z) (terms : list Z) : list Z :=
  match terms with
  | [] => [tmp1]
  | tmp2 :: ts =>
      let tmp1 := add32 tmp1 (shl32 (Z.land tmp2 1) 29) in
      Z.land tmp1 0x3fffffff :: half_chain (add32 (shr tmp1 30) (shr tmp2 1)) ts
  end.

(** The loop of [bn_lshift]; [prev] is the limb below. *)
Fixpoint lshift_chain (prev : Z) (a : list Z) : list Z :=
  match a with
  | [] => []
  | x :: t =>
      Z.lor (Z.land (shl32 x 1) 0x3FFFFFFF) (shr (Z.land prev 0x20000000) 29)
      :: lshift_chain x t
  end.

(** The loop of [bn_rshift]; [x] is the current limb, [t] the limbs above. *)
Fixpoint rshift_chain (x : Z) (t : list Z) : list Z :=
  match t with
  | [] => [shr x 1]
  | y :: t' => Z.lor (shr x 1) (shl32 (Z.land y 1) 29) :: rshift_chain y t'
  end.

(** The terms [x[j] + (prime[j] & xodd)] of [bn_mult_half]. *)
Fixpoint half_terms (xodd : Z) (x p : list Z) : list Z :=
  match x, p with
  | a :: x', q :: p' => add32 a (Z.land q xodd) :: half_terms xodd x' p'
  | _, _ => []
  end.

(** The loop of [bn_divmod58] and [bn_divmod1000], which runs from the top
    limb down; [2^30 = m * d + c]. *)
Fixpoint div_chain (d c m : Z) (a : list Z) : list Z * Z :=
  match a with
  | [] => ([], 0)
  | x :: t =>
      match t with
      | [] => ([x / d], x mod d)
      | _ :: _ =>
          let '(q, rem) := div_chain d c m t in
          let tmp := add32 (mul32 rem c) x in
          (add32 (mul32 rem m) (tmp / d) :: q, tmp mod d)
      end
  end.

(** One round of the loop of [bn_digitcount], for [i = 3 * k]. *)
Definition digit_round (k : nat) (s : bignum256 * Z) : bignum256 * Z :=
  let '(val, digits) := s in
  let i := 3 * Z.of_nat k in
  let '(val, limb) := bn_divmod1000 val in
  let digits :=
    if 100 <=? limb then i + 3
    else if 10 <=? limb then i + 2
    else if 1 <=? limb then i + 1
    else digits in
  (val, digits).

(** [d] is the number of decimal digits of [m]; zero has one digit. *)
Definition digits_of (m d : Z) : Prop :=
  (m = 0 /\ d = 1) \/ (1 <= d /\ 10^(d - 1) <= m < 10^d).

(** The search of [bn_bitcount] for the highest limb that is not zero;
    [i] is the index of the first limb of [a]. *)
Fixpoint bitcount_from (i : nat) (a : list Z) : option Z :=
  match a with
  | [] => None
  | tmp :: t =>
      let r := bitcount_from (S i) t in
      match r with
      | Some _ => r
      | None => if tmp =? 0 then None else Some (Z.of_nat i * 30 + (Z.log2 tmp + 1))
      end
  end.

(** Partly reduced modulo [prime]: normalized and below [2 * prime]. *)
Definition partly_reduced (a prime : bignum256) : Prop :=
  normalized a /\ value a < 2 * value prime.

(** The exponent that [bn_inverse] reads: [prime] with 2 taken from its
    lowest limb. *)
Definition inverse_exponent (prime : bignum256) : bignum256 :=
  upd prime 0 (sub32 (get prime 0) 2).

(** The exponent that [bn_sqrt] computes: [(prime + 1) / 4]. *)
Definition sqrt_exponent (prime : bignum256) : bignum256 :=
  bn_rshift (bn_rshift (bn_addi prime 1)).

(** The number that a byte string encodes, least significant byte first and
    most significant byte first. *)
Fixpoint le_value (bytes : list Z) : Z :=
  match bytes with
  | [] => 0
  | b :: t => b + 2^8 * le_value t
  end.

Definition be_value (bytes : list Z) : Z := le_value (rev bytes).

(** The number that a list of 32-bit words encodes, least significant word
    first. *)
Fixpoint words_value (ws : list Z) : Z :=
  match ws with
  | [] => 0
  | w :: t => w + 2^32 * words_value t
  end.

(** The eight words that [bn_read_be] and [bn_read_le] read, in the order of
    the loop. *)
Definition be_words (data : list Z) : list Z :=
  map (fun i => read_be data ((7 - i) * 4)) (seq 0 8).

Definition le_words (data : list Z) : list Z :=
  map (fun i => read_le data (i * 4)) (seq 0 8).

(** The loop of [bn_read_be] and [bn_read_le] over the words. *)
Fixpoint read_chain (temp : Z) (i : nat) (ws : list Z) : list Z :=
  match ws with
  | [] => [temp]
  | limb :: ws' =>
      let temp := Z.lor temp (shl32 limb (2 * Z.of_nat i)) in
      Z.land temp 0x3FFFFFFF
      :: read_chain (shr limb (30 - 2 * Z.of_nat i)) (S i) ws'
  end.

(** The [n] lowest decimal digits of [v], most significant first, in front
    of [acc]. *)
Fixpoint decimal_text (n : nat) (v : Z) (acc : list ascii) : list ascii :=
  match n with
  | O => acc
  | S n' => decimal_text n' (v / 10) (digit_char (v mod 10) :: acc)
  end.


(** ** Basic facts *)

Ltac nine a :=
  let H := fresh in
  intro H;
  do 9 (destruct a as [|? a]; [discriminate H|]);
  destruct a; [clear H|discriminate H].

Lemma land_mask x : Z.land x 0x3FFFFFFF = x mod 2^30.
Proof. change 0x3FFFFFFF with (Z.ones 30). apply Z.land_ones. lia. Qed.

Lemma shr_div x k : 0 <= k -> shr x k = x / 2^k.
Proof. intros. unfold shr. apply Z.shiftr_div_pow2. assumption. Qed.

Lemma is_limb_u32 x : is_limb x -> is_u32 x.
Proof. unfold is_limb, is_u32. lia. Qed.

Lemma normalized_wf a : normalized a -> wf a.
Proof.
  intros [L F]. split; [assumption|].
  eapply Forall_impl; [|exact F]. apply is_limb_u32.
Qed.

Lemma value_bounds a :
  Forall is_limb a -> 0 <= value a < 2^(30 * Z.of_nat (length a)).
Proof.
  induction 1 as [|x t Hx Ht IH]; [simpl; lia|].
  cbn [value length]. unfold is_limb in Hx.
  replace (30 * Z.of_nat (S (length t))) with (30 + 30 * Z.of_nat (length t)) by lia.
  rewrite Z.pow_add_r by lia. nia.
Qed.

Lemma value_normalized a : normalized a -> 0 <= value a < 2^270.
Proof. intros [L F]. apply value_bounds in F. rewrite L in F. exact F. Qed.

Lemma value_inj a b :
  Forall is_limb a -> Forall is_limb b -> length a = length b ->
  value a = value b -> a = b.
Proof.
  intros Ha. revert b. induction Ha as [|x t Hx Ht IH]; intros b Hb L E.
  - destruct b; [reflexivity|discriminate].
  - destruct Hb as [|y u Hy Hu]; [discriminate|].
    cbn [value] in E. unfold is_limb in *.
    assert (x = y) by lia. subst y.
    f_equal. apply IH; [assumption| simpl in L; lia | lia].
Qed.

(** ** Subtraction *)

Lemma bn_subtract_chain a b :
  length a = 9%nat -> length b = 9%nat -> bn_subtract a b = sub_chain 1 a b.
Proof. nine a. nine b. reflexivity. Qed.

Lemma sub_step tmp x y :
  0 <= tmp <= 1 -> is_limb x -> is_limb y ->
  let t := add32 tmp (sub32 (add32 0x3FFFFFFF x) y) in
  t = tmp + (2^30 - 1) + x - y /\ 0 <= shr t 30 <= 1 /\
  is_limb (Z.land t 0x3FFFFFFF) /\
  Z.land t 0x3FFFFFFF + 2^30 * shr t 30 = t.
Proof.
  intros Ht Hx Hy t. unfold is_limb in *.
  assert (E : t = tmp + (2^30 - 1) + x - y).
  { unfold t, add32, sub32, wrap32.
    rewrite (Z.mod_small (0x3FFFFFFF + x)) by lia.
    rewrite (Z.mod_small (0x3FFFFFFF + x - y)) by lia.
    rewrite Z.mod_small by lia. lia. }
  rewrite land_mask, shr_div by lia.
  pose proof (Z.mod_pos_bound t (2^30) ltac:(lia)).
  pose proof (Z.div_mod t (2^30) ltac:(lia)).
  assert (0 <= t / 2^30 <= 1).
  { split; [apply Z.div_pos; lia|].
    apply Z.lt_succ_r. apply Z.div_lt_upper_bound; lia. }
  repeat split; lia.
Qed.

Lemma sub_chain_spec a : forall b tmp,
  Forall is_limb a -> Forall is_limb b -> length a = length b ->
  0 <= tmp <= 1 ->
  Forall is_limb (sub_chain tmp a b) /\
  length (sub_chain tmp a b) = length a /\
  exists c, 0 <= c <= 1 /\
    value (sub_chain tmp a b) + 2^(30 * Z.of_nat (length a)) * c =
    value a + (2^(30 * Z.of_nat (length a)) - 1 - value b) + tmp.
Proof.
  induction a as [|x a IH]; intros b tmp Ha Hb L Ht.
  - destruct b; [|discriminate]. cbn [sub_chain value length].
    repeat split; auto.
    exists tmp. split; [assumption|].
    change (30 * Z.of_nat 0) with 0. rewrite Z.pow_0_r. lia.
  - destruct b as [|y b]; [discriminate|].
    inversion Ha as [|? ? Hx Ha']; inversion Hb as [|? ? Hy Hb']; subst.
    cbn [sub_chain].
    destruct (sub_step tmp x y Ht Hx Hy) as (Et & Hc & Hl & Hs).
    set (t := add32 tmp (sub32 (add32 0x3FFFFFFF x) y)) in *.
    destruct (IH b (shr t 30) Ha' Hb' ltac:(simpl in L; lia) Hc) as (F & Len & c & Hc' & E).
    split; [constructor; assumption|].
    split; [simpl; lia|].
    exists c. split; [assumption|].
    cbn [value length].
    replace (30 * Z.of_nat (S (length a))) with (30 + 30 * Z.of_nat (length a)) by lia.
    rewrite Z.pow_add_r by lia.
    set (P := 2 ^ (30 * Z.of_nat (length a))) in *.
    lia.
Qed.

Lemma bn_subtract_spec a b :
  normalized a -> normalized b ->
  normalized (bn_subtract a b) /\
  value (bn_subtract a b) = (value a - value b) mod 2^270.
Proof.
  intros [La Fa] [Lb Fb].
  rewrite bn_subtract_chain by assumption.
  destruct (sub_chain_spec a b 1 Fa Fb ltac:(congruence) ltac:(lia))
    as (F & Len & c & Hc & E).
  rewrite La in *. change (30 * Z.of_nat 9) with 270 in E.
  split; [split; assumption|].
  pose proof (value_bounds _ F) as B. rewrite Len in B.
  change (30 * Z.of_nat 9) with 270 in B.
  apply Z.mod_unique with (q := c - 1); lia.
Qed.

(** C10: [bn_subtract] is a total function; on normalized operands its
    result is normalized and is [(a - b) mod 2^270], hence exactly [a - b]
    whenever [a >= b]. *)
Theorem bn_subtract_wraps a b :
  normalized a -> normalized b ->
  normalized (bn_subtract a b) /\
  value (bn_subtract a b) = (value a - value b) mod 2^270 /\
  (value b <= value a -> value (bn_subtract a b) = value a - value b).
Proof.
  intros Ha Hb.
  destruct (bn_subtract_spec a b Ha Hb) as [N E].
  split; [assumption|]. split; [assumption|].
  intros Hle. rewrite E.
  pose proof (value_normalized a Ha). pose proof (value_normalized b Hb).
  apply Z.mod_small. lia.
Qed.

(** ** Comparison predicates *)

Lemma bn_is_less_acc a b :
  length a = 9%nat -> length b = 9%nat ->
  bn_is_less a b = (snd (less_acc a b) <? fst (less_acc a b)).
Proof.
  nine a. nine b. cbv [bn_is_less less_acc for_down get nth Nat.pred fst snd].
  reflexivity.
Qed.

Lemma bn_is_equal_acc a b :
  length a = 9%nat -> length b = 9%nat ->
  bn_is_equal a b = lnot (xor_acc 0 a b).
Proof. nine a. nine b. reflexivity. Qed.

Lemma bn_is_zero_acc a :
  length a = 9%nat -> bn_is_zero a = lnot (or_acc 0 a).
Proof. nine a. reflexivity. Qed.

Lemma lor_shl_bit r c :
  0 <= r < 2^31 -> 0 <= c <= 1 -> Z.lor (shl32 r 1) c = 2 * r + c.
Proof.
  intros Hr Hc. unfold shl32, wrap32.
  rewrite Z.shiftl_mul_pow2 by lia. rewrite Z.mod_small by lia.
  change (2^1) with 2.
  assert (c = 0 \/ c = 1) as [-> | ->] by lia.
  - rewrite Z.lor_0_r. lia.
  - rewrite Z.mul_comm. destruct r; try reflexivity. lia.
Qed.

Lemma less_acc_spec a : forall b,
  Forall is_limb a -> Forall is_limb b -> length a = length b ->
  (length a <= 31)%nat ->
  0 <= fst (less_acc a b) < 2^(Z.of_nat (length a)) /\
  0 <= snd (less_acc a b) < 2^(Z.of_nat (length a)) /\
  (snd (less_acc a b) ?= fst (less_acc a b)) = (value a ?= value b).
Proof.
  induction a as [|x a IH]; intros b Ha Hb L Hn.
  - destruct b; [|discriminate]. cbn [less_acc fst snd length value].
    change (2 ^ Z.of_nat 0) with 1. repeat split; lia.
  - destruct b as [|y b]; [discriminate|].
    inversion Ha as [|? ? Hx Ha']; inversion Hb as [|? ? Hy Hb']; subst.
    cbn [less_acc].
    specialize (IH b Ha' Hb' ltac:(simpl in L; lia) ltac:(simpl in Hn; lia)).
    destruct (less_acc a b) as [r1 r2]. cbn [fst snd] in *.
    destruct IH as (B1 & B2 & V).
    assert (P : 2 ^ Z.of_nat (length a) <= 2^30).
    { apply Z.pow_le_mono_r; simpl in Hn; lia. }
    assert (Hlt : 0 <= ltu x y <= 1) by (unfold ltu; destruct (x <? y); lia).
    assert (Hgt : 0 <= gtu x y <= 1) by (unfold gtu; destruct (y <? x); lia).
    rewrite !lor_shl_bit by lia.
    cbn [length value].
    rewrite Nat2Z.inj_succ, Z.pow_succ_r by lia.
    set (Q := 2 ^ Z.of_nat (length a)) in *.
    split; [lia|]. split; [lia|].
    unfold is_limb in *.
    unfold ltu, gtu.
    destruct (Z.compare_spec r2 r1), (Z.compare_spec (value a) (value b));
      try discriminate V; clear V;
      destruct (Z.ltb_spec x y), (Z.ltb_spec y x); try lia;
      match goal with |- (?A ?= ?B) = (?C ?= ?D) =>
        destruct (Z.compare_spec A B), (Z.compare_spec C D) end;
      try reflexivity; exfalso; nia.
Qed.

(** On normalized operands [bn_is_less] decides [a < b] on the values. *)
Lemma bn_is_less_value a b :
  normalized a -> normalized b -> bn_is_less a b = (value a <? value b).
Proof.
  intros [La Fa] [Lb Fb]. rewrite bn_is_less_acc by assumption.
  destruct (less_acc_spec a b Fa Fb ltac:(congruence) ltac:(lia)) as (_ & _ & E).
  unfold Z.ltb. rewrite E. reflexivity.
Qed.

Lemma xor_acc_zero a : forall b r,
  length a = length b -> (xor_acc r a b = 0 <-> r = 0 /\ a = b).
Proof.
  induction a as [|x a IH]; intros b r L.
  - destruct b; [|discriminate]. cbn. tauto.
  - destruct b as [|y b]; [discriminate|]. cbn [xor_acc].
    rewrite IH by (simpl in L; lia).
    rewrite Z.lor_eq_0_iff, Z.lxor_eq_0_iff.
    split.
    + intros [[-> ->] ->]. auto.
    + intros [-> E]. inversion E. auto.
Qed.

Lemma or_acc_zero a : forall r,
  or_acc r a = 0 <-> r = 0 /\ Forall (fun x => x = 0) a.
Proof.
  induction a as [|x a IH]; intros r; cbn [or_acc].
  - split; [auto|tauto].
  - rewrite IH, Z.lor_eq_0_iff. split.
    + intros [[-> ->] F]. auto.
    + intros [-> F]. inversion F. auto.
Qed.

(** [bn_is_equal] decides equality of the limb arrays. *)
Lemma bn_is_equal_iff a b :
  length a = 9%nat -> length b = 9%nat ->
  (bn_is_equal a b = true <-> a = b).
Proof.
  intros La Lb. rewrite bn_is_equal_acc by assumption.
  unfold lnot. rewrite Z.eqb_eq, xor_acc_zero by congruence. tauto.
Qed.

Lemma bn_is_equal_value a b :
  normalized a -> normalized b -> bn_is_equal a b = (value a =? value b).
Proof.
  intros [La Fa] [Lb Fb].
  apply eq_true_iff_eq. rewrite bn_is_equal_iff, Z.eqb_eq by assumption.
  split; [congruence|]. apply value_inj; (assumption || congruence).
Qed.

(** C5: on normalized operands exactly one of [bn_is_less a b],
    [bn_is_equal a b], [bn_is_less b a] returns true. *)
Theorem bn_compare_trichotomy a b :
  normalized a -> normalized b ->
  (bn_is_less a b = true /\ bn_is_equal a b = false /\ bn_is_less b a = false) \/
  (bn_is_less a b = false /\ bn_is_equal a b = true /\ bn_is_less b a = false) \/
  (bn_is_less a b = false /\ bn_is_equal a b = false /\ bn_is_less b a = true).
Proof.
  intros Ha Hb.
  rewrite (bn_is_less_value a b), (bn_is_less_value b a),
    (bn_is_equal_value a b) by assumption.
  destruct (Z.ltb_spec (value a) (value b)), (Z.ltb_spec (value b) (value a)),
    (Z.eqb_spec (value a) (value b)); try lia; auto.
Qed.

(** ** Fast reduction *)

Lemma bn_fast_mod_chain x p :
  length x = 9%nat -> length p = 9%nat ->
  bn_fast_mod x p =
  let coef := shr (get x 8) 16 in
  let temp := sub64 (add64 0x2000000000000000 (get x 0)) (mul64 (get p 0) coef) in
  Z.land temp 0x3FFFFFFF :: snd (red_chain coef temp (tl x) (tl p)).
Proof. nine x. nine p. reflexivity. Qed.

Lemma red_step coef temp xj pj :
  0 <= temp < 2^61 + 2^33 -> is_u32 xj -> prod_ok coef pj ->
  let t := add64 (shr temp 30) (sub64 (add64 0x1FFFFFFF80000000 xj) (mul64 pj coef)) in
  0 <= t < 2^61 + 2^33 /\
  is_limb (Z.land t 0x3FFFFFFF) /\
  Z.land t 0x3FFFFFFF + 2^30 * carry t = carry temp + xj - pj * coef.
Proof.
  intros Ht Hx Hp t. unfold is_u32, is_limb, carry, prod_ok in *.
  assert (D : 0 <= temp / 2^30 <= 2^31 + 8).
  { split; [apply Z.div_pos; lia|].
    apply Z.lt_succ_r. apply Z.div_lt_upper_bound; lia. }
  assert (E : t = temp / 2^30 + (2^61 - 2^31) + xj - pj * coef).
  { unfold t, add64, sub64, mul64, wrap64. rewrite shr_div by lia.
    rewrite (Z.mod_small (pj * coef)) by lia.
    rewrite (Z.mod_small (_ + xj)) by lia.
    rewrite (Z.mod_small (_ + xj - _)) by lia.
    rewrite Z.mod_small by lia. lia. }
  rewrite land_mask.
  pose proof (Z.mod_pos_bound t (2^30) ltac:(lia)).
  pose proof (Z.div_mod t (2^30) ltac:(lia)).
  repeat split; lia.
Qed.

Lemma red_chain_spec coef x : forall p temp,
  length x = length p -> Forall is_u32 x -> Forall (prod_ok coef) p ->
  0 <= temp < 2^61 + 2^33 ->
  0 <= fst (red_chain coef temp x p) < 2^61 + 2^33 /\
  Forall is_limb (snd (red_chain coef temp x p)) /\
  length (snd (red_chain coef temp x p)) = length x /\
  value (snd (red_chain coef temp x p))
    + 2^(30 * Z.of_nat (length x)) * carry (fst (red_chain coef temp x p))
  = carry temp + value x - coef * value p.
Proof.
  induction x as [|xj x IH]; intros p temp L Hx Hp Ht.
  - destruct p; [|discriminate]. cbn [red_chain fst snd value length].
    change (30 * Z.of_nat 0) with 0. rewrite Z.pow_0_r.
    repeat split; auto; lia.
  - destruct p as [|pj p]; [discriminate|].
    inversion Hx as [|? ? Hxj Hx']; inversion Hp as [|? ? Hpj Hp']; subst.
    cbn [red_chain].
    destruct (red_step coef temp xj pj Ht Hxj Hpj) as (Bt & Hl & Hs).
    set (t := add64 (shr temp 30) _) in *.
    specialize (IH p t ltac:(simpl in L; lia) Hx' Hp' Bt).
    destruct (red_chain coef t x p) as [tf r]. cbn [fst snd] in *.
    destruct IH as (Bf & Fr & Lr & E).
    split; [assumption|]. split; [constructor; assumption|].
    split; [simpl; lia|].
    cbn [value length].
    replace (30 * Z.of_nat (S (length x))) with (30 + 30 * Z.of_nat (length x)) by lia.
    rewrite Z.pow_add_r by lia.
    set (P := 2 ^ (30 * Z.of_nat (length x))) in *.
    lia.
Qed.

Lemma Forall_u32_get a i : Forall is_u32 a -> is_u32 (get a i).
Proof.
  intros F. unfold get. destruct (Nat.lt_ge_cases i (length a)).
  - rewrite Forall_forall in F. apply F. apply nth_In. assumption.
  - rewrite nth_overflow by assumption. unfold is_u32. lia.
Qed.

(** [bn_fast_mod] subtracts exactly [(x->val[8] >> 16) * prime]. *)
Lemma bn_fast_mod_value x p :
  wf x -> wf p -> in_band (value p) ->
  normalized (bn_fast_mod x p) /\
  value (bn_fast_mod x p) = value x - shr (get x 8) 16 * value p /\
  value (bn_fast_mod x p) < 2 * value p.
Proof.
  intros [Lx Fx] [Lp Fp] Band. unfold in_band in Band.
  rewrite bn_fast_mod_chain by assumption. cbv zeta.
  set (coef := shr (get x 8) 16).
  pose proof (Forall_u32_get x 8 Fx) as H8.
  assert (Hc : 0 <= coef < 2^16).
  { unfold coef. rewrite shr_div by lia. unfold is_u32 in H8.
    split; [apply Z.div_pos; lia|]. apply Z.div_lt_upper_bound; lia. }
  assert (Hpo : Forall (prod_ok coef) p).
  { eapply Forall_impl; [|exact Fp]. unfold is_u32, prod_ok. intros a Ha.
    assert (0 <= a * coef <= 2^32 * 2^16) by nia. lia. }
  pose proof (Forall_u32_get x 0 Fx) as Hx0.
  pose proof (Forall_u32_get p 0 Fp) as Hp0.
  assert (Hpc : 0 <= get p 0 * coef < 2^48).
  { unfold is_u32 in Hp0. nia. }
  set (temp := sub64 _ _).
  assert (Et : temp = 2^61 + get x 0 - get p 0 * coef).
  { unfold temp, sub64, add64, mul64, wrap64. unfold is_u32 in *.
    rewrite (Z.mod_small (get p 0 * coef)) by lia.
    rewrite (Z.mod_small (_ + get x 0)) by lia.
    rewrite Z.mod_small by lia. lia. }
  assert (Bt : 0 <= temp < 2^61 + 2^33) by (unfold is_u32 in *; lia).
  clearbody temp.
  assert (Vx : value x = get x 0 + 2^30 * value (tl x)).
  { destruct x; [discriminate|reflexivity]. }
  assert (Vp : value p = get p 0 + 2^30 * value (tl p)).
  { destruct p; [discriminate|reflexivity]. }
  assert (Lt8 : length (tl x) = 8%nat)
    by (destruct x; [discriminate|]; cbn [tl length] in *; lia).
  assert (Lp8 : length (tl p) = 8%nat)
    by (destruct p; [discriminate|]; cbn [tl length] in *; lia).
  assert (Fx' : Forall is_u32 (tl x))
    by (destruct x; [constructor|inversion Fx; assumption]).
  assert (Hpo' : Forall (prod_ok coef) (tl p))
    by (destruct p; [constructor|inversion Hpo; assumption]).
  destruct (red_chain_spec coef (tl x) (tl p) temp ltac:(congruence) Fx' Hpo' Bt)
    as (Bf & Fr & Lr & E).
  set (rc := red_chain coef temp (tl x) (tl p)) in *. clearbody rc.
  assert (N : normalized (Z.land temp 0x3FFFFFFF :: snd rc)).
  { split.
    - cbn [length]. rewrite Lr, Lt8. reflexivity.
    - constructor; [|assumption]. rewrite land_mask. unfold is_limb.
      apply Z.mod_pos_bound. lia. }
  split; [exact N|].
  pose proof (value_normalized _ N) as BN.
  cbn [value] in BN |- *.
  rewrite land_mask in *.
  pose proof (Z.div_mod temp (2^30) ltac:(lia)) as DM.
  unfold carry in E.
  rewrite Lt8 in E. change (30 * Z.of_nat 8) with 240 in E.
  set (cf := temp / 2^30) in *.
  set (cl := fst rc / 2^30 - 2^31) in *.
  set (r0 := temp mod 2^30) in *.
  assert (Tot : r0 + 2^30 * value (snd rc) + 2^270 * cl
                = value x - coef * value p).
  { rewrite Vx, Vp. lia. }
  assert (Rng : 0 <= value x - coef * value p < 2 * value p).
  { clear - Lx Fx Band Hc. subst coef. revert Lx Fx Hc. nine x.
    intros Fx Hc. unfold get in *. cbn [nth] in *.
    rewrite shr_div in * by lia.
    repeat match goal with
           | H : Forall _ (_ :: _) |- _ => inversion H; clear H; subst
           end.
    unfold is_u32 in *. cbn [value].
    match goal with
    | |- context [?z / 2^16] =>
        pose proof (Z.div_mod z (2^16) ltac:(lia));
        pose proof (Z.mod_pos_bound z (2^16) ltac:(lia));
        set (q := z / 2^16) in *; set (r := z mod 2^16) in *
    end.
    assert (q * (2^256 - 2^224) <= q * value p)
      by (apply Z.mul_le_mono_nonneg_l; lia).
    assert (q * value p <= q * 2^256) by (apply Z.mul_le_mono_nonneg_l; lia).
    lia. }
  assert (cl = 0) by lia.
  split; lia.
Qed.

(** C2: for a prime in the band and any nine 32-bit limbs [x] (normalized or
    not), [bn_fast_mod] leaves a normalized value below [2 * prime] that is
    congruent to the old [x] modulo the prime. *)
Theorem bn_fast_mod_partly_reduces x prime :
  wf x -> wf prime -> in_band (value prime) ->
  normalized (bn_fast_mod x prime) /\
  value (bn_fast_mod x prime) < 2 * value prime /\
  value (bn_fast_mod x prime) mod value prime = value x mod value prime.
Proof.
  intros Hx Hp Band.
  destruct (bn_fast_mod_value x prime Hx Hp Band) as (N & E & B).
  split; [assumption|]. split; [assumption|].
  rewrite E.
  replace (value x - shr (get x 8) 16 * value prime)
    with (value x + (- shr (get x 8) 16) * value prime) by ring.
  apply Z.mod_add. unfold in_band in Band. lia.
Qed.

(** ** Long multiplication *)

Lemma bn_multiply_long_chain k x :
  length k = 9%nat -> length x = 9%nat ->
  bn_multiply_long k x (repeat 0 18) =
  snd (emit_chain 0 (columns k x)) ++ [wrap32 (fst (emit_chain 0 (columns k x)))].
Proof.
  nine k. nine x.
  cbv [bn_multiply_long for_up upd get nth emit_chain columns column map seq
       acc_col fst snd app repeat Nat.leb Nat.sub Nat.add].
  reflexivity.
Qed.

Lemma cols_value_product k x :
  length k = 9%nat -> length x = 9%nat ->
  cols_value (columns k x) = value k * value x.
Proof.
  nine k. nine x.
  cbv [columns column map seq Nat.leb Nat.sub get nth cols_value colsum value].
  ring.
Qed.

Lemma acc_col_spec c : forall temp,
  Forall pair_ok c ->
  0 <= temp -> temp + Z.of_nat (length c) * 2^60 < 2^64 ->
  acc_col temp c = temp + colsum c /\
  0 <= colsum c <= Z.of_nat (length c) * (2^60 - 2^31 + 1).
Proof.
  induction c as [|[a b] c IH]; intros temp F H0 H.
  - cbn [acc_col colsum length]. change (Z.of_nat 0) with 0. lia.
  - inversion F as [|? ? [Ha Hb] F']; subst. cbn [fst snd] in *.
    unfold is_limb in *. cbn [acc_col colsum length] in *.
    rewrite Nat2Z.inj_succ in *.
    assert (0 <= a * b <= 2^60 - 2^31 + 1) by nia.
    assert (E : add64 temp (mul64 a b) = temp + a * b).
    { unfold add64, mul64, wrap64. rewrite (Z.mod_small (a * b)) by lia.
      apply Z.mod_small. lia. }
    rewrite E.
    destruct (IH (temp + a * b) F' ltac:(lia) ltac:(lia)) as [E2 B].
    rewrite E2. lia.
Qed.

Lemma emit_chain_spec cols : forall temp,
  Forall col_ok cols -> 0 <= temp < 2^34 ->
  Forall is_limb (snd (emit_chain temp cols)) /\
  length (snd (emit_chain temp cols)) = length cols /\
  0 <= fst (emit_chain temp cols) < 2^34 /\
  value (snd (emit_chain temp cols))
    + 2^(30 * Z.of_nat (length cols)) * fst (emit_chain temp cols)
  = temp + cols_value cols.
Proof.
  induction cols as [|c cols IH]; intros temp F Ht.
  - cbn [emit_chain fst snd value cols_value length].
    change (30 * Z.of_nat 0) with 0. rewrite Z.pow_0_r.
    repeat split; auto; lia.
  - inversion F as [|? ? [Lc Fc] F']; subst.
    cbn [emit_chain].
    destruct (acc_col_spec c temp Fc ltac:(lia) ltac:(lia)) as [E B].
    set (t := acc_col temp c) in *.
    assert (Bt : 0 <= shr t 30 < 2^34).
    { rewrite shr_div by lia. split; [apply Z.div_pos; lia|].
      apply Z.div_lt_upper_bound; lia. }
    specialize (IH (shr t 30) F' Bt).
    destruct (emit_chain (shr t 30) cols) as [tf r]. cbn [fst snd] in *.
    destruct IH as (Fr & Lr & Bf & V).
    rewrite land_mask. rewrite shr_div in V by lia.
    pose proof (Z.mod_pos_bound t (2^30) ltac:(lia)) as Hm.
    pose proof (Z.div_mod t (2^30) ltac:(lia)).
    split; [constructor; [exact Hm|assumption]|].
    split; [cbn [length]; lia|]. split; [assumption|].
    cbn [value cols_value length].
    replace (30 * Z.of_nat (S (length cols)))
      with (30 + 30 * Z.of_nat (length cols)) by lia.
    rewrite Z.pow_add_r by lia.
    set (P := 2 ^ (30 * Z.of_nat (length cols))) in *.
    lia.
Qed.

Lemma value_app a b :
  value (a ++ b) = value a + 2^(30 * Z.of_nat (length a)) * value b.
Proof.
  induction a as [|x a IH]; cbn [app value length].
  - change (30 * Z.of_nat 0) with 0. rewrite Z.pow_0_r. lia.
  - rewrite IH.
    replace (30 * Z.of_nat (S (length a))) with (30 + 30 * Z.of_nat (length a)) by lia.
    rewrite Z.pow_add_r by lia. ring.
Qed.

Lemma Forall_limb_get a i : Forall is_limb a -> is_limb (get a i).
Proof.
  intros F. unfold get. destruct (Nat.lt_ge_cases i (length a)).
  - rewrite Forall_forall in F. apply F. apply nth_In. assumption.
  - rewrite nth_overflow by assumption. unfold is_limb. lia.
Qed.

Lemma columns_ok k x :
  normalized k -> normalized x -> Forall col_ok (columns k x).
Proof.
  intros [Lk Fk] [Lx Fx].
  unfold columns. apply Forall_forall. intros c Hc.
  apply in_map_iff in Hc. destruct Hc as (i & <- & Hi).
  apply in_seq in Hi. unfold column. split.
  - rewrite length_map, length_seq. destruct (Nat.leb_spec i 8); lia.
  - apply Forall_forall. intros ab Hab. apply in_map_iff in Hab.
    destruct Hab as (j & <- & _).
    split; cbn [fst snd]; apply Forall_limb_get; assumption.
Qed.

(** [bn_multiply_long] writes the exact product as eighteen normalized
    digits. *)
Lemma bn_multiply_long_spec k x :
  normalized k -> normalized x ->
  length (bn_multiply_long k x (repeat 0 18)) = 18%nat /\
  Forall is_limb (bn_multiply_long k x (repeat 0 18)) /\
  value (bn_multiply_long k x (repeat 0 18)) = value k * value x.
Proof.
  intros Hk Hx.
  rewrite bn_multiply_long_chain by (apply Hk || apply Hx).
  destruct (emit_chain_spec (columns k x) 0 (columns_ok k x Hk Hx) ltac:(lia))
    as (Fr & Lr & Bf & V).
  assert (Lc : length (columns k x) = 17%nat).
  { unfold columns. rewrite length_map, length_seq. reflexivity. }
  rewrite Lc in *. change (30 * Z.of_nat 17) with 510 in V.
  rewrite cols_value_product in V by (apply Hk || apply Hx).
  set (ec := emit_chain 0 (columns k x)) in *. clearbody ec.
  pose proof (value_normalized k Hk). pose proof (value_normalized x Hx).
  pose proof (value_bounds _ Fr) as Br. rewrite Lr in Br.
  change (30 * Z.of_nat 17) with 510 in Br.
  assert (value k * value x < 2^270 * 2^270) by nia.
  assert (Bf' : 0 <= fst ec < 2^30) by lia.
  unfold wrap32. rewrite Z.mod_small by lia.
  split; [rewrite length_app, Lr; reflexivity|].
  split.
  - apply Forall_app. split; [assumption|]. constructor; [exact Bf'|constructor].
  - rewrite value_app, Lr. change (30 * Z.of_nat 17) with 510.
    cbn [value]. lia.
Qed.

Ltac eighteen a :=
  let H := fresh in
  intro H;
  do 18 (destruct a as [|? a]; [discriminate H|]);
  destruct a; [clear H|discriminate H].

(** ** Reduction of the 540-bit product *)

Lemma reduce_step_window res p i :
  length res = 18%nat -> length p = 9%nat -> (8 <= i <= 16)%nat ->
  bn_multiply_reduce_step res p i =
  firstn (i - 8) res ++ step10 (firstn 10 (skipn (i - 8) res)) p
    ++ skipn (i + 2) res.
Proof.
  eighteen res. nine p. intros Hi.
  do 8 (destruct i as [|i]; [lia|]).
  do 9 (destruct i as [|i];
    [cbv [bn_multiply_reduce_step step10 for_up upd get nth firstn skipn tl
          red_chain app Nat.sub Nat.add fst snd]; reflexivity|]).
  lia.
Qed.

Lemma step10_spec win p :
  length win = 10%nat -> Forall is_limb win -> normalized p ->
  in_band (value p) -> value win < 2^30 * (2 * value p) ->
  length (step10 win p) = 10%nat /\ Forall is_limb (step10 win p) /\
  (exists coef, value (step10 win p) = value win - coef * value p) /\
  value (step10 win p) < 2 * value p.
Proof.
  intros Lw Fw [Lp Fp] Band Bw. unfold in_band in Band.
  do 10 (destruct win as [|? win]; [discriminate Lw|]).
  destruct win; [clear Lw|discriminate Lw].
  destruct p as [|p0 pt]; [discriminate Lp|].
  assert (Lpt : length pt = 8%nat) by (cbn [length] in Lp; lia).
  repeat match goal with
         | H : Forall _ (_ :: _) |- _ => inversion H; clear H; subst
         end.
  match goal with H : Forall is_limb pt |- _ => rename H into Fpt end.
  match goal with H : Forall is_limb [] |- _ => clear H end.
  cbv [step10 get nth tl firstn].
  unfold is_limb in * |-.
  match goal with
  | |- context [add32 (shr ?w8 16) (shl32 ?w9 14)] =>
      rename w8 into w8'; rename w9 into w9'
  end.
  cbn [value] in Bw.
  set (P := value (p0 :: pt)) in *.
  assert (HP : P = p0 + 2^30 * value pt) by reflexivity.
  pose proof (value_bounds _ Fpt) as Bpt. rewrite Lpt in Bpt.
  change (30 * Z.of_nat 8) with 240 in Bpt.
  pose proof (Z.div_mod w8' (2^16) ltac:(lia)) as DM8.
  pose proof (Z.mod_pos_bound w8' (2^16) ltac:(lia)) as MB8.
  assert (Hw9 : w9' < 2^17) by lia.
  set (coef := add32 (shr w8' 16) (shl32 w9' 14)).
  assert (Ec : coef = w8' / 2^16 + 2^14 * w9').
  { unfold coef, add32, shl32, wrap32. rewrite shr_div by lia.
    rewrite Z.shiftl_mul_pow2 by lia.
    rewrite (Z.mod_small (w9' * 2^14)) by lia.
    assert (0 <= w8' / 2^16 < 2^14).
    { split; [apply Z.div_pos; lia|]. apply Z.div_lt_upper_bound; lia. }
    rewrite Z.mod_small by lia. lia. }
  clearbody coef.
  set (q := w8' / 2^16) in *. set (r := w8' mod 2^16) in *.
  assert (Hcoef : 0 <= coef < 2^31).
  { assert (0 <= q) by lia. split; [lia|].
    assert (2^256 * coef < 2^287); [|lia]. lia. }
  assert (Hpo : Forall (prod_ok coef) pt).
  { eapply Forall_impl; [|exact Fpt]. unfold is_limb, prod_ok. intros a Ha.
    assert (0 <= a * coef <= (2^30 - 1) * (2^31 - 1)) by nia. lia. }
  assert (Hp0c : 0 <= p0 * coef <= (2^30 - 1) * (2^31 - 1)) by nia.
  set (temp := sub64 _ _).
  assert (Et : temp = 2^61 + z - p0 * coef).
  { unfold temp, sub64, add64, mul64, wrap64.
    rewrite (Z.mod_small (p0 * coef)) by lia.
    rewrite (Z.mod_small (_ + z)) by lia.
    rewrite Z.mod_small by lia. lia. }
  assert (Bt : 0 <= temp < 2^61 + 2^33) by lia.
  clearbody temp.
  match goal with
  | |- context [red_chain coef temp ?xs pt] =>
      assert (Fxs : Forall is_u32 xs)
        by (repeat constructor; unfold is_u32; lia);
      destruct (red_chain_spec coef xs pt temp ltac:(cbn [length]; lia) Fxs Hpo Bt)
        as (Bf & Fr & Lr & E);
      cbn [length value] in Lr, E;
      set (rc := red_chain coef temp xs pt) in *; clearbody rc
  end.
  destruct rc as [t rr]. cbn [fst snd] in *.
  change (30 * Z.of_nat 8) with 240 in E.
  set (temp' := add64 _ _).
  assert (D : 0 <= t / 2^30 <= 2^31 + 8).
  { split; [apply Z.div_pos; lia|].
    apply Z.lt_succ_r. apply Z.div_lt_upper_bound; lia. }
  assert (Et' : temp' = t / 2^30 + (2^61 - 2^31) + w9').
  { unfold temp', add64, wrap64. rewrite shr_div by lia.
    rewrite (Z.mod_small (_ + w9')) by lia.
    rewrite Z.mod_small by lia. lia. }
  clearbody temp'.
  rewrite !land_mask.
  pose proof (Z.mod_pos_bound temp (2^30) ltac:(lia)) as M0.
  pose proof (Z.div_mod temp (2^30) ltac:(lia)) as DM0.
  pose proof (Z.mod_pos_bound temp' (2^30) ltac:(lia)) as M9.
  pose proof (Z.div_mod temp' (2^30) ltac:(lia)) as DM9.
  assert (Lres : length (temp mod 2^30 :: rr ++ [temp' mod 2^30]) = 10%nat).
  { cbn [length]. rewrite length_app, Lr. reflexivity. }
  assert (Fres : Forall is_limb (temp mod 2^30 :: rr ++ [temp' mod 2^30])).
  { constructor; [exact M0|]. apply Forall_app. split; [assumption|].
    constructor; [exact M9|constructor]. }
  split; [exact Lres|]. split; [exact Fres|].
  pose proof (value_bounds _ Fres) as Bres. rewrite Lres in Bres.
  change (30 * Z.of_nat 10) with 300 in Bres.
  cbn [value] in Bres |- *. rewrite value_app, Lr in *.
  change (30 * Z.of_nat 8) with 240 in *. cbn [value] in *.
  unfold carry in E.
  set (c0 := temp / 2^30) in *. set (r0 := temp mod 2^30) in *.
  set (c8 := t / 2^30) in *.
  set (c9 := temp' / 2^30) in *. set (r9 := temp' mod 2^30) in *.
  set (vr := value rr) in *. set (vpt := value pt) in *.
  assert (Hlo : coef * (2^256 - 2^224) <= coef * P)
    by (apply Z.mul_le_mono_nonneg_l; lia).
  assert (Hhi : coef * P <= coef * 2^256)
    by (apply Z.mul_le_mono_nonneg_l; lia).
  assert (HcP : coef * P = p0 * coef + 2^30 * (coef * vpt)) by (rewrite HP; ring).
  set (cP := coef * P) in *. set (cp0 := p0 * coef) in *.
  set (cvpt := coef * vpt) in *.
  clearbody cp0 cvpt.
  assert (c9 = 2^31) by lia.
  split; [exists coef; subst cP; lia|lia].
Qed.

Lemma value_nonneg a : Forall is_limb a -> 0 <= value a.
Proof. intros F. apply value_bounds in F. lia. Qed.

Lemma Forall_firstn_skipn {A} (Q : A -> Prop) n (l : list A) :
  Forall Q l -> Forall Q (firstn n l) /\ Forall Q (skipn n l).
Proof. intros F. apply Forall_app. rewrite firstn_skipn. exact F. Qed.

Lemma Forall_firstn {A} (Q : A -> Prop) n (l : list A) :
  Forall Q l -> Forall Q (firstn n l).
Proof. intros F. apply (Forall_firstn_skipn Q n l F). Qed.

Lemma Forall_skipn {A} (Q : A -> Prop) n (l : list A) :
  Forall Q l -> Forall Q (skipn n l).
Proof. intros F. apply (Forall_firstn_skipn Q n l F). Qed.

Lemma reduce_step_spec res p i :
  (8 <= i <= 16)%nat -> length res = 18%nat -> Forall is_limb res ->
  normalized p -> in_band (value p) ->
  value res < 2^(30 * Z.of_nat (i - 7)) * (2 * value p) ->
  length (bn_multiply_reduce_step res p i) = 18%nat /\
  Forall is_limb (bn_multiply_reduce_step res p i) /\
  value (bn_multiply_reduce_step res p i)
    < 2^(30 * Z.of_nat (i - 8)) * (2 * value p) /\
  exists c, value (bn_multiply_reduce_step res p i) = value res - c * value p.
Proof.
  intros Hi Lr Fr Np Band Bv.
  rewrite reduce_step_window by (assumption || apply Np).
  set (k := (i - 8)%nat) in *.
  replace (i - 7)%nat with (S k) in Bv by lia.
  replace (i + 2)%nat with (k + 10)%nat by lia.
  set (lo := firstn k res). set (win := firstn 10 (skipn k res)).
  set (hi := skipn (k + 10) res).
  assert (Eres : res = lo ++ win ++ hi).
  { unfold lo, win, hi. rewrite <- (firstn_skipn k res) at 1. f_equal.
    rewrite <- (firstn_skipn 10 (skipn k res)) at 1. f_equal.
    rewrite skipn_skipn. f_equal. lia. }
  assert (Llo : length lo = k) by (unfold lo; rewrite length_firstn; lia).
  assert (Lwin : length win = 10%nat).
  { unfold win. rewrite length_firstn, length_skipn. lia. }
  assert (Flo : Forall is_limb lo) by (apply Forall_firstn; assumption).
  assert (Fwin : Forall is_limb win)
    by (apply Forall_firstn, Forall_skipn; assumption).
  assert (Fhi : Forall is_limb hi) by (apply Forall_skipn; assumption).
  pose proof (value_bounds _ Flo) as Blo. rewrite Llo in Blo.
  pose proof (value_nonneg _ Fwin) as Bwin.
  pose proof (value_nonneg _ Fhi) as Bhi.
  assert (Vres : value res = value lo + 2^(30 * Z.of_nat k) * (value win + 2^300 * value hi)).
  { rewrite Eres at 1. rewrite !value_app, Llo, Lwin. reflexivity. }
  replace (30 * Z.of_nat (S k)) with (30 * Z.of_nat k + 30) in Bv by lia.
  rewrite Z.pow_add_r in Bv by lia.
  set (X := 2^(30 * Z.of_nat k)) in *.
  assert (HX : 0 < X) by (apply Z.pow_pos_nonneg; lia).
  unfold in_band in Band.
  set (P := value p) in *.
  assert (Hwh : value win + 2^300 * value hi < 2^30 * (2 * P)).
  { apply (Z.mul_lt_mono_pos_l X); [assumption|]. lia. }
  assert (Hhi0 : value hi = 0) by lia.
  destruct (step10_spec win p Lwin Fwin Np Band ltac:(fold P; lia))
    as (L' & F' & (c & E') & B').
  fold P in E', B'.
  set (win' := step10 win p) in *. clearbody win'.
  split; [rewrite !length_app, Llo, L'; unfold hi; rewrite length_skipn; lia|].
  split; [repeat (apply Forall_app; split); assumption|].
  rewrite !value_app, Llo, L'. fold X. change (30 * Z.of_nat 10) with 300.
  rewrite Hhi0, Vres, Hhi0, E'.
  split.
  - assert (X * (value win - c * P + 1) <= X * (2 * P))
      by (apply Z.mul_le_mono_nonneg_l; lia).
    lia.
  - exists (X * c). ring.
Qed.

Lemma reduce_loop_spec p : forall n i res,
  (n <= 9)%nat -> i = (n + 7)%nat ->
  length res = 18%nat -> Forall is_limb res ->
  normalized p -> in_band (value p) ->
  value res < 2^(30 * Z.of_nat n) * (2 * value p) ->
  let res' := for_down i n (fun i res => bn_multiply_reduce_step res p i) res in
  length res' = 18%nat /\ Forall is_limb res' /\
  value res' < 2 * value p /\
  exists c, value res' = value res - c * value p.
Proof.
  induction n as [|n IH]; intros i res Hn Hi Lr Fr Np Band Bv.
  - cbn [for_down]. change (30 * Z.of_nat 0) with 0 in Bv. rewrite Z.pow_0_r in Bv.
    repeat split; try assumption; try lia. exists 0. ring.
  - cbn [for_down]. subst i.
    destruct (reduce_step_spec res p (S n + 7) ltac:(lia) Lr Fr Np Band)
      as (L1 & F1 & B1 & c1 & E1).
    { replace (S n + 7 - 7)%nat with (S n) by lia. exact Bv. }
    replace (S n + 7 - 8)%nat with n in B1 by lia.
    destruct (IH (Nat.pred (S n + 7)) _ ltac:(lia) ltac:(lia) L1 F1 Np Band B1)
      as (L2 & F2 & B2 & c2 & E2).
    repeat split; try assumption.
    exists (c1 + c2). rewrite E2, E1. ring.
Qed.

Lemma reduce_copy x res :
  length x = 9%nat -> length res = 18%nat ->
  for_up 0 9 (fun i x => upd x i (get res i)) x = firstn 9 res.
Proof. nine x. eighteen res. reflexivity. Qed.

(** [bn_multiply] on normalized operands whose product is below
    [2^270 * 2 * prime]. *)
Lemma bn_multiply_spec k x p :
  normalized k -> normalized x -> normalized p -> in_band (value p) ->
  value k * value x < 2^270 * (2 * value p) ->
  normalized (bn_multiply k x p) /\
  value (bn_multiply k x p) < 2 * value p /\
  exists c, value (bn_multiply k x p) = value k * value x - c * value p.
Proof.
  intros Nk Nx Np Band Bv.
  unfold bn_multiply, bn_multiply_st, bn_multiply_reduce.
  destruct (bn_multiply_long_spec k x Nk Nx) as (L0 & F0 & V0).
  set (res0 := bn_multiply_long k x (repeat 0 18)) in *. clearbody res0.
  destruct (reduce_loop_spec p 9 16 res0 ltac:(lia) ltac:(lia) L0 F0 Np Band)
    as (L1 & F1 & B1 & c & E1).
  { change (30 * Z.of_nat 9) with 270. lia. }
  set (res1 := for_down 16 9 _ res0) in *. clearbody res1.
  cbn [fst].
  rewrite reduce_copy by (apply Nx || assumption).
  assert (Eres : res1 = firstn 9 res1 ++ skipn 9 res1)
    by (symmetry; apply firstn_skipn).
  assert (Lf : length (firstn 9 res1) = 9%nat) by (rewrite length_firstn; lia).
  assert (Ff : Forall is_limb (firstn 9 res1)) by (apply Forall_firstn; assumption).
  assert (Fs : Forall is_limb (skipn 9 res1)) by (apply Forall_skipn; assumption).
  pose proof (value_nonneg _ Ff). pose proof (value_nonneg _ Fs).
  assert (V : value res1 = value (firstn 9 res1) + 2^270 * value (skipn 9 res1)).
  { rewrite Eres at 1. rewrite value_app, Lf. reflexivity. }
  unfold in_band in Band.
  assert (value (skipn 9 res1) = 0) by lia.
  split; [split; assumption|]. split; [lia|].
  exists c. lia.
Qed.

(** ** Conditional move and full reduction *)

Lemma land_ones32 x : is_u32 x -> Z.land x (neg32 1) = x.
Proof.
  intros H. change (neg32 1) with (Z.ones 32). rewrite Z.land_ones by lia.
  apply Z.mod_small. exact H.
Qed.

Lemma cmov_limb_true t f : is_u32 t ->
  Z.lor (Z.land t (neg32 1)) (Z.land f (not32 (neg32 1))) = t.
Proof.
  intros H. rewrite land_ones32 by assumption.
  change (not32 (neg32 1)) with 0. rewrite Z.land_0_r. apply Z.lor_0_r.
Qed.

Lemma cmov_limb_false t f : is_u32 f ->
  Z.lor (Z.land t (neg32 0)) (Z.land f (not32 (neg32 0))) = f.
Proof.
  intros H. change (neg32 0) with 0. change (not32 0) with (neg32 1).
  rewrite land_ones32 by assumption. rewrite Z.land_0_r. apply Z.lor_0_l.
Qed.

Lemma bn_cmov_true t f : wf t -> length f = 9%nat -> bn_cmov 1 t f = t.
Proof.
  intros [Lt Ft]. revert Lt Ft. nine t. intros Ft. nine f.
  repeat match goal with
         | H : Forall _ (_ :: _) |- _ => inversion H; clear H; subst
         end.
  cbv [bn_cmov for_up upd get nth bn_zero repeat].
  rewrite !cmov_limb_true by assumption. reflexivity.
Qed.

Lemma bn_cmov_false t f : length t = 9%nat -> wf f -> bn_cmov 0 t f = f.
Proof.
  intros Lt [Lf Ff]. revert Lt. nine t. revert Lf Ff. nine f. intros Ff.
  repeat match goal with
         | H : Forall _ (_ :: _) |- _ => inversion H; clear H; subst
         end.
  cbv [bn_cmov for_up upd get nth bn_zero repeat].
  rewrite !cmov_limb_false by assumption. reflexivity.
Qed.

(** [bn_mod] fully reduces a partly reduced number. *)
Lemma bn_mod_spec x p :
  normalized x -> normalized p -> 0 < value p -> value x < 2 * value p ->
  normalized (bn_mod x p) /\ value (bn_mod x p) = value x mod value p.
Proof.
  intros Nx Np Hp Hx. unfold bn_mod.
  rewrite bn_is_less_value by assumption.
  destruct (bn_subtract_spec x p Nx Np) as [Ns Vs].
  pose proof (value_normalized x Nx). pose proof (value_normalized p Np).
  destruct (Z.ltb_spec (value x) (value p)); cbn [b2z].
  - rewrite bn_cmov_true by (apply normalized_wf; assumption || apply Ns).
    split; [assumption|]. symmetry. apply Z.mod_small. lia.
  - rewrite bn_cmov_false by (apply Nx || apply normalized_wf; assumption).
    split; [assumption|]. rewrite Vs. rewrite Z.mod_small by lia.
    apply Z.mod_unique with (q := 1); lia.
Qed.

(** ** Multiplication modulo the prime *)

(** C1 (amended): for a normalized prime in the band and normalized operands
    [k], [x] below [180 * prime], [bn_multiply] leaves in [x] a normalized
    value below [2 * prime] that is congruent to [k * x] modulo the prime. *)
Theorem bn_multiply_partly_reduces k x prime :
  normalized k -> normalized x -> normalized prime ->
  in_band (value prime) ->
  value k < 180 * value prime -> value x < 180 * value prime ->
  normalized (bn_multiply k x prime) /\
  value (bn_multiply k x prime) < 2 * value prime /\
  value (bn_multiply k x prime) mod value prime
    = (value k * value x) mod value prime.
Proof.
  intros Nk Nx Np Band Bk Bx.
  pose proof (value_normalized k Nk). pose proof (value_normalized x Nx).
  assert (B : value k * value x < 2^270 * (2 * value prime)).
  { unfold in_band in Band.
    assert (value k * value x <= (180 * value prime) * (180 * value prime))
      by (apply Z.mul_le_mono_nonneg; lia).
    assert (value prime * value prime <= 2^256 * value prime)
      by (apply Z.mul_le_mono_nonneg_r; lia).
    lia. }
  destruct (bn_multiply_spec k x prime Nk Nx Np Band B) as (N & Lt & c & E).
  split; [assumption|]. split; [assumption|].
  rewrite E.
  replace (value k * value x - c * value prime)
    with (value k * value x + (- c) * value prime) by ring.
  apply Z.mod_add. unfold in_band in Band. lia.
Qed.

(** C1 as stated fails for operands that are not normalized: with limbs
    [0xFFFFFFFF] the 64-bit accumulator of [bn_multiply_long] wraps, and the
    result is not congruent to the product although both values are far
    below [180 * prime]. *)
Lemma bn_multiply_unnormalized_counterexample :
  let k := [0xFFFFFFFF; 0xFFFFFFFF; 0; 0; 0; 0; 0; 0; 0] in
  let x := [0xFFFFFFFF; 0xFFFFFFFF; 0; 0; 0; 0; 0; 0; 0] in
  wf k /\ wf x /\
  normalized secp256k1_prime /\ in_band (value secp256k1_prime) /\
  value k < 180 * value secp256k1_prime /\
  value x < 180 * value secp256k1_prime /\
  value (bn_multiply k x secp256k1_prime) mod value secp256k1_prime
    <> (value k * value x) mod value secp256k1_prime.
Proof.
  cbv zeta.
  assert (W : wf [0xFFFFFFFF; 0xFFFFFFFF; 0; 0; 0; 0; 0; 0; 0]).
  { split; [reflexivity|]. repeat constructor; unfold is_u32; lia. }
  split; [exact W|]. split; [exact W|].
  split.
  { split; [reflexivity|]. repeat constructor; unfold is_limb; lia. }
  split; [unfold in_band; vm_compute; split; reflexivity|].
  split; [vm_compute; reflexivity|]. split; [vm_compute; reflexivity|].
  vm_compute. discriminate.
Qed.

(** ** Byte encodings *)

Ltac bool_simp :=
  cbn [andb orb negb];
  rewrite ?andb_false_r, ?andb_true_r, ?orb_false_r, ?orb_true_r;
  cbn [andb orb negb].

Ltac bit_specs :=
  repeat first
    [ rewrite Z.lor_spec | rewrite Z.land_spec
    | rewrite Z.testbit_mod_pow2 by lia
    | rewrite Z.testbit_ones_nonneg by lia
    | rewrite Z.testbit_0_l
    | rewrite Z.shiftl_spec by lia
    | rewrite Z.shiftr_spec by lia
    | match goal with
      | |- context [Z.testbit ?v ?e] =>
          rewrite (Z.testbit_neg_r v e) by lia
      end ].

Ltac bit_loop :=
  bit_specs; bool_simp;
  lazymatch goal with
  | |- context [?a <? ?b] => destruct (Z.ltb_spec a b); bit_loop
  | |- context [?a <=? ?b] => destruct (Z.leb_spec a b); bit_loop
  | |- _ => first [ reflexivity | lia | f_equal; lia | idtac ]
  end.

Ltac bitblast :=
  unfold shl32, shr, wrap32, wrap8;
  apply Z.bits_inj'; let n := fresh "n" in let Hn := fresh "Hn" in
  intros n Hn; bit_loop.

Lemma be_join w : is_u32 w ->
  Z.lor (Z.lor (Z.lor (shl32 (wrap8 (shr w 24)) 24) (shl32 (wrap8 (shr w 16)) 16))
               (shl32 (wrap8 (shr w 8)) 8)) (wrap8 w) = w.
Proof.
  unfold is_u32. intros H.
  replace w with (w mod 2^32) by (apply Z.mod_small; lia).
  bitblast.
Qed.

Lemma limb_roundtrip i vprev v vnext :
  1 <= i <= 7 -> is_limb vprev -> is_limb v -> is_limb vnext ->
  let Whi := Z.lor (shl32 v (32 - 2 * i)) (shr vprev (2 * i - 2)) in
  let Wlo := Z.lor (shl32 vnext (30 - 2 * i)) (shr v (2 * i)) in
  Z.land (Z.lor (shr Whi (32 - 2 * i)) (shl32 Wlo (2 * i))) 0x3FFFFFFF = v.
Proof.
  unfold is_limb. intros Hi Hp Hv Hn. cbv zeta.
  change 0x3FFFFFFF with (Z.ones 30).
  replace v with (v mod 2^30) by (apply Z.mod_small; lia).
  replace vprev with (vprev mod 2^30) by (apply Z.mod_small; lia).
  replace vnext with (vnext mod 2^30) by (apply Z.mod_small; lia).
  bitblast.
Qed.

Lemma limb_roundtrip_first v vnext :
  is_limb v -> is_limb vnext ->
  Z.land (Z.lor 0 (shl32 (Z.lor (shl32 vnext 30) (shr v 0)) 0)) 0x3FFFFFFF = v.
Proof.
  unfold is_limb. intros Hv Hn.
  change 0x3FFFFFFF with (Z.ones 30).
  replace v with (v mod 2^30) by (apply Z.mod_small; lia).
  replace vnext with (vnext mod 2^30) by (apply Z.mod_small; lia).
  bitblast.
Qed.

Lemma limb_roundtrip_last vprev v :
  is_limb vprev -> 0 <= v < 2^16 ->
  shr (Z.lor (shl32 v 16) (shr vprev 14)) 16 = v.
Proof.
  unfold is_limb. intros Hp Hv.
  replace v with (v mod 2^16) by (apply Z.mod_small; lia).
  replace vprev with (vprev mod 2^30) by (apply Z.mod_small; lia).
  bitblast.
Qed.

Lemma word_u32 a k b m :
  0 <= b -> b < 2^32 -> 0 <= m -> is_u32 (Z.lor (shl32 a k) (shr b m)).
Proof.
  intros Hb Hb' Hm. unfold is_u32, shl32, wrap32.
  pose proof (Z.mod_pos_bound (Z.shiftl a k) (2^32) ltac:(lia)) as Hs.
  assert (Hr : 0 <= shr b m < 2^32).
  { rewrite shr_div by lia. split; [apply Z.div_pos; lia|].
    apply Z.div_lt_upper_bound; [lia|].
    assert (1 <= 2^m) by (apply (Z.pow_le_mono_r 2 0 m); lia). nia. }
  set (s := Z.shiftl a k mod 2^32) in *. set (r := shr b m) in *.
  split; [apply Z.lor_nonneg; lia|].
  destruct (Z.eq_dec (Z.lor s r) 0) as [->|Hz]; [lia|].
  apply Z.log2_lt_pow2; [pose proof (Z.lor_nonneg s r); lia|].
  rewrite Z.log2_lor by lia.
  apply Z.max_lub_lt.
  - destruct (Z.eq_dec s 0) as [->|]; [cbn; lia|]. apply Z.log2_lt_pow2; lia.
  - destruct (Z.eq_dec r 0) as [->|]; [cbn; lia|]. apply Z.log2_lt_pow2; lia.
Qed.

Ltac thirtytwo a :=
  let H := fresh in
  intro H;
  do 32 (destruct a as [|? a]; [discriminate H|]);
  destruct a; [clear H|discriminate H].

Lemma le_join w : is_u32 w ->
  Z.lor (Z.lor (Z.lor (shl32 (wrap8 (shr w 24)) 24) (shl32 (wrap8 (shr w 16)) 16))
               (shl32 (wrap8 (shr w 8)) 8)) (wrap8 w) = w.
Proof. exact (be_join w). Qed.

Ltac limbs_roundtrip v0 v1 v2 v3 v4 v5 v6 v7 v8 :=
  apply (f_equal2 (@cons Z));
    [apply (limb_roundtrip_first v0 v1); assumption|];
  apply (f_equal2 (@cons Z));
    [apply (limb_roundtrip 1 v0 v1 v2); (assumption || lia)|];
  apply (f_equal2 (@cons Z));
    [apply (limb_roundtrip 2 v1 v2 v3); (assumption || lia)|];
  apply (f_equal2 (@cons Z));
    [apply (limb_roundtrip 3 v2 v3 v4); (assumption || lia)|];
  apply (f_equal2 (@cons Z));
    [apply (limb_roundtrip 4 v3 v4 v5); (assumption || lia)|];
  apply (f_equal2 (@cons Z));
    [apply (limb_roundtrip 5 v4 v5 v6); (assumption || lia)|];
  apply (f_equal2 (@cons Z));
    [apply (limb_roundtrip 6 v5 v6 v7); (assumption || lia)|];
  apply (f_equal2 (@cons Z));
    [apply (limb_roundtrip 7 v6 v7 v8); (assumption || lia)|];
  apply (f_equal2 (@cons Z));
    [apply (limb_roundtrip_last v7 v8); assumption|reflexivity].

Lemma bn_read_write_be x out :
  normalized x -> value x < 2^256 -> length out = 32%nat ->
  bn_read_be (bn_write_be x out) = x.
Proof.
  intros [Lx Fx] Hv.
  destruct x as [|v0 [|v1 [|v2 [|v3 [|v4 [|v5 [|v6 [|v7 [|v8 [|]]]]]]]]]];
    try discriminate Lx.
  thirtytwo out.
  repeat match goal with
         | H : Forall _ (_ :: _) |- _ => inversion H; clear H; subst
         end.
  match goal with H : Forall _ [] |- _ => clear H end.
  cbn [value] in Hv.
  assert (Hv8 : 0 <= v8 < 2^16) by (unfold is_limb in *; lia).
  cbv -[shl32 shr Z.lor Z.land wrap8].
  rewrite !be_join by (apply word_u32; unfold is_limb in *; lia).
  limbs_roundtrip v0 v1 v2 v3 v4 v5 v6 v7 v8.
Qed.

Lemma bn_read_write_le x out :
  normalized x -> value x < 2^256 -> length out = 32%nat ->
  bn_read_le (bn_write_le x out) = x.
Proof.
  intros [Lx Fx] Hv.
  destruct x as [|v0 [|v1 [|v2 [|v3 [|v4 [|v5 [|v6 [|v7 [|v8 [|]]]]]]]]]];
    try discriminate Lx.
  thirtytwo out.
  repeat match goal with
         | H : Forall _ (_ :: _) |- _ => inversion H; clear H; subst
         end.
  match goal with H : Forall _ [] |- _ => clear H end.
  cbn [value] in Hv.
  assert (Hv8 : 0 <= v8 < 2^16) by (unfold is_limb in *; lia).
  cbv -[shl32 shr Z.lor Z.land wrap8].
  rewrite !be_join by (apply word_u32; unfold is_limb in *; lia).
  limbs_roundtrip v0 v1 v2 v3 v4 v5 v6 v7 v8.
Qed.

(** C4: for every fully reduced [x] (normalized and below a prime of the
    band), decoding the 32-byte big-endian encoding of [x] returns [x], and
    likewise for the little-endian pair. *)
Theorem bn_read_write_roundtrip x prime out :
  normalized x -> in_band (value prime) -> value x < value prime ->
  length out = 32%nat ->
  bn_read_be (bn_write_be x out) = x /\ bn_read_le (bn_write_le x out) = x.
Proof.
  intros Nx Band Hx Lo. unfold in_band in Band.
  split; [apply bn_read_write_be|apply bn_read_write_le]; (assumption || lia).
Qed.

(** ** Decimal formatting *)

Lemma upd_length {A} (l : list A) : forall i v, length (upd l i v) = length l.
Proof.
  induction l as [|h t IH]; intros [|i] v; cbn [upd length]; auto.
Qed.

Lemma skipn_upd {A} (l : list A) : forall i v,
  (i < length l)%nat -> skipn i (upd l i v) = v :: skipn (S i) l.
Proof.
  induction l as [|h t IH]; intros [|i] v H; cbn [length] in H; try lia.
  - reflexivity.
  - cbn [upd]. change (skipn (S i) (h :: upd t i v)) with (skipn i (upd t i v)).
    rewrite IH by lia. reflexivity.
Qed.

Lemma firstn_upd {A} (l : list A) : forall i k v,
  (k <= i)%nat -> firstn k (upd l i v) = firstn k l.
Proof.
  induction l as [|h t IH]; intros i k v H.
  - destruct i; reflexivity.
  - destruct i as [|i].
    + assert (k = 0%nat) by lia. subst. reflexivity.
    + destruct k as [|k]; [reflexivity|].
      cbn [upd firstn]. f_equal. apply IH. lia.
Qed.

Lemma skipn_cons_nth {A} (l : list A) : forall i r,
  skipn i l = r -> r <> [] -> (i < length l)%nat.
Proof.
  intros i r E Hr.
  destruct (Nat.lt_ge_cases i (length l)) as [|Hge]; [assumption|].
  rewrite skipn_all2 in E by assumption. congruence.
Qed.

Lemma skipn_S_tl {A} (l : list A) i c r :
  skipn i l = c :: r -> skipn (S i) l = r.
Proof.
  intros E.
  replace (S i) with (1 + i)%nat by lia.
  rewrite <- skipn_skipn, E. reflexivity.
Qed.

Lemma skipn_pred {A} (l : list A) i x c r :
  (i < length l)%nat -> nth i l x = c -> skipn (S i) l = r -> skipn i l = c :: r.
Proof.
  revert i. induction l as [|h t IH]; intros i Hl Hn Hs; cbn [length] in Hl; [lia|].
  destruct i as [|i].
  - cbn in *. subst. reflexivity.
  - cbn [skipn nth] in *. apply IH; (assumption || lia).
Qed.

Lemma extends_refl t : extends t t.
Proof. exists []. reflexivity. Qed.

Lemma extends_trans t1 t2 t3 : extends t1 t2 -> extends t2 t3 -> extends t1 t3.
Proof.
  intros (e1 & ->) (e2 & ->). exists (e2 ++ e1). apply app_assoc.
Qed.

Lemma extends_length t t' : extends t t' -> (length t <= length t')%nat.
Proof. intros (e & ->). rewrite length_app. lia. Qed.

Lemma kept_extends cap t t' :
  extends t t' -> (cap <= length t)%nat -> kept cap t' = kept cap t.
Proof.
  intros (e & ->) H. unfold kept. rewrite length_app.
  replace (length e + length t - cap)%nat with (length e + (length t - cap))%nat
    by lia.
  rewrite skipn_app, Nat.add_comm, <- skipn_skipn, skipn_all.
  replace (length t - cap + length e - length e)%nat with (length t - cap)%nat
    by lia.
  rewrite skipn_nil. reflexivity.
Qed.

Lemma kept_all cap t : (length t <= cap)%nat -> kept cap t = t.
Proof.
  intros H. unfold kept. replace (length t - cap)%nat with 0%nat by lia.
  reflexivity.
Qed.

Lemma bind_overflow {A B} checked buf (f : A -> outcome B) :
  bind (overflow checked buf) f = overflow checked buf.
Proof. destruct checked; reflexivity. Qed.

Lemma text_push_extends trailing n a :
  extends (a_text a) (a_text (text_push trailing n a)).
Proof.
  unfold text_push, extends.
  repeat match goal with
         | |- context [if ?b then _ else _] => destruct b
         end; cbn [a_text a_decimals a_exponent];
    first [ exists []; reflexivity
          | eexists [_]; reflexivity
          | eexists [_; _]; reflexivity ].
Qed.

Lemma text_exponent_extends trailing n : forall a,
  extends (a_text a) (a_text (text_exponent trailing n a)).
Proof.
  induction n as [|n IH]; intros a; cbn [text_exponent]; [apply extends_refl|].
  eapply extends_trans; [apply (text_push_extends trailing 0 a)|].
  eapply extends_trans; [|apply IH]. cbn [a_text]. apply extends_refl.
Qed.

Lemma text_group_extends trailing limb a :
  extends (a_text a) (a_text (text_group trailing limb a)).
Proof.
  unfold text_group.
  eapply extends_trans; [apply (text_push_extends trailing (limb mod 10) a)|].
  eapply extends_trans; [apply text_push_extends|]. apply text_push_extends.
Qed.

Lemma text_groups_extends trailing n : forall val a,
  extends (a_text a) (a_text (snd (text_groups trailing n val a))).
Proof.
  induction n as [|n IH]; intros val a; cbn [text_groups];
    [cbn [snd]; apply extends_refl|].
  destruct (bn_divmod1000 val) as [val' limb].
  eapply extends_trans; [apply (text_group_extends trailing limb a)|]. apply IH.
Qed.

Lemma text_rest_extends trailing digits val a :
  extends (a_text a) (a_text (text_rest trailing digits val a)).
Proof.
  unfold text_rest.
  destruct (digits mod 3 =? 0); [apply extends_refl|].
  destruct (bn_divmod1000 val) as [val' limb].
  destruct (digits mod 3 =? 2).
  - eapply extends_trans; [apply (text_push_extends trailing (limb mod 10) a)|].
    apply text_push_extends.
  - destruct (digits mod 3 =? 1); [apply text_push_extends|apply extends_refl].
Qed.

Lemma text_while_extends trailing c_end fuel : forall a a',
  text_while trailing c_end fuel a = Some a' ->
  extends (a_text a) (a_text a').
Proof.
  induction fuel as [|fuel IH]; intros a a' Hw; cbn [text_while] in Hw.
  - destruct (_ || _ || _); [discriminate|]. inversion Hw. apply extends_refl.
  - destruct (_ || _ || _); [|inversion Hw; apply extends_refl].
    eapply extends_trans; [apply (text_push_extends trailing 0 a)|].
    apply IH. exact Hw.
Qed.

Lemma text_body_extends trailing val a :
  extends (a_text a) (a_text (text_body trailing val a)).
Proof.
  unfold text_body. cbv zeta.
  pose proof (text_groups_extends trailing
                (Z.to_nat (bn_digitcount val / 3)) val
                (text_exponent trailing (Z.to_nat (a_exponent a)) a)) as G.
  destruct (text_groups _ _ _ _) as [v2 a2]. cbn [snd] in G.
  eapply extends_trans; [apply text_exponent_extends|].
  eapply extends_trans; [exact G|apply text_rest_extends].
Qed.

Section Simulation.

Variables (start end_ keep cap : nat) (checked : bool).
Variables (pfx tail : list ascii) (trailing : bool).
Hypothesis tail_nonempty : tail <> [].
Hypothesis keep_cap : (keep + cap <= end_)%nat.
Hypothesis push_room :
  forall n, (end_ - cap < n)%nat -> (n <= end_)%nat -> n <> start.
Hypothesis push_full : forall c s a,
  corr keep end_ cap pfx tail s a -> length (a_text a) = cap ->
  push_checked start c s = overflow checked (pfx ++ a_text a ++ tail).

Local Notation "'Corr'" := (corr keep end_ cap pfx tail).
Local Notation "'Sim'" := (sim keep end_ cap checked pfx tail).
Local Notation "'Simp'" := (simp keep end_ cap checked pfx tail).

Lemma push_checked_fits c s a :
  Corr s a -> (length (a_text a) < cap)%nat ->
  exists s', push_checked start c s = Ok s' /\ Corr s' (a_push c a).
Proof.
  intros (Hc & Hl & Hk & Hp & Hd & He) Hroom.
  unfold push_checked.
  destruct (Nat.eqb_spec (f_str s) start) as [E|NE];
    [exfalso; apply (push_room (f_str s)); (assumption || lia)|].
  destruct (f_str s) as [|str'] eqn:Estr; [lia|].
  assert (Hlt : (S str' < length (f_out s))%nat).
  { eapply skipn_cons_nth; [exact Hk|].
    destruct (a_text a); [assumption|discriminate]. }
  destruct (Nat.ltb_spec str' (length (f_out s))) as [_|]; [|lia].
  eexists. split; [reflexivity|].
  unfold corr, a_push.
  cbn [f_out f_str f_decimals f_exponent a_text a_decimals a_exponent length].
  repeat split; try assumption; try lia.
  - rewrite skipn_upd by lia. rewrite Hk. reflexivity.
  - rewrite firstn_upd by lia. assumption.
Qed.

Lemma sim_overflow a a' :
  fits cap a = false -> extends (a_text a) (a_text a') ->
  Sim (overflow checked (pfx ++ kept cap (a_text a) ++ tail)) a'.
Proof.
  unfold fits. intros Hno Hext.
  apply Nat.leb_gt in Hno.
  pose proof (extends_length _ _ Hext) as Hlen.
  unfold sim, fits.
  destruct (Nat.leb_spec (length (a_text a')) cap); [lia|].
  rewrite (kept_extends cap _ _ Hext) by lia. reflexivity.
Qed.

Lemma sim_step (f : fmt -> outcome fmt) (g : afmt -> afmt) :
  (forall a, extends (a_text a) (a_text (g a))) ->
  (forall s a, Corr s a -> Sim (f s) (g a)) ->
  forall r a, Sim r a -> Sim (bind r f) (g a).
Proof.
  intros Hext Hstep r a H. unfold sim in H.
  destruct (fits cap a) eqn:Hfit.
  - destruct H as (s & -> & Hc). cbn [bind]. apply Hstep. assumption.
  - subst r. rewrite bind_overflow. apply sim_overflow; [assumption|apply Hext].
Qed.

Lemma sim_ok s a : Corr s a -> Sim (Ok s) a.
Proof.
  intros Hc. unfold sim, fits.
  destruct (Nat.leb_spec (length (a_text a)) cap) as [|Hno].
  - eexists. split; [reflexivity|assumption].
  - destruct Hc as (Hs & _). lia.
Qed.

Lemma sim_push_checked c s a :
  Corr s a -> Sim (push_checked start c s) (a_push c a).
Proof.
  intros Hc. unfold sim, fits. cbn [a_push a_text length].
  destruct (Nat.leb_spec (S (length (a_text a))) cap) as [Hfit|Hno].
  - apply push_checked_fits; [assumption|lia].
  - assert (Hfull : length (a_text a) = cap) by (destruct Hc as (Hs & _); lia).
    rewrite (push_full c s a Hc Hfull).
    unfold kept. cbn [length].
    replace (S (length (a_text a)) - cap)%nat with 1%nat by lia.
    reflexivity.
Qed.

Lemma corr_set s a d e :
  Corr s a ->
  Corr (mk_fmt (f_out s) (f_str s) d e) (mk_afmt (a_text a) d e).
Proof.
  intros (Hs & Hl & Hk & Hp & Hd & He).
  unfold corr. cbn. repeat split; assumption.
Qed.

Lemma corr_nil s a :
  Corr s a -> Nat.eqb (f_str s) end_ = is_nil (a_text a).
Proof.
  intros (Hs & Hl & _).
  destruct (a_text a); cbn [is_nil length] in *;
    destruct (Nat.eqb_spec (f_str s) end_); (reflexivity || lia).
Qed.

Lemma sim_format_push n s a :
  Corr s a -> Sim (format_push start end_ trailing n s) (text_push trailing n a).
Proof.
  intros Hc.
  pose proof Hc as (Hs & Hl & Hk & Hp & Hd & He).
  unfold format_push, text_push.
  rewrite (corr_nil s a Hc), Hd, He.
  destruct (a_exponent a <? 0).
  { apply sim_ok. rewrite <- Hd. apply corr_set. assumption. }
  set (second := fun s : fmt => if 0 <? f_decimals s then _ else _).
  assert (Hsecond : forall s1 a1, Corr s1 a1 ->
            Sim (second s1)
              (if 0 <? a_decimals a1
               then if a_decimals a1 =? 1
                    then mk_afmt ("."%char :: a_text a1) (a_decimals a1 - 1) (a_exponent a1)
                    else mk_afmt (a_text a1) (a_decimals a1 - 1) (a_exponent a1)
               else a1)).
  { intros s1 a1 Hc1. pose proof Hc1 as (_ & _ & _ & _ & Hd1 & He1).
    unfold second. rewrite Hd1.
    destruct (0 <? a_decimals a1); [|apply sim_ok; assumption].
    destruct (a_decimals a1 =? 1).
    - apply (sim_push_checked "."%char _
               (mk_afmt (a_text a1) (a_decimals a1 - 1) (a_exponent a1))).
      rewrite <- He1. apply corr_set. assumption.
    - apply sim_ok. rewrite <- He1. apply corr_set. assumption. }
  destruct ((0 <? n) || trailing || negb (is_nil (a_text a)) || (a_decimals a <=? 1)).
  - apply (sim_step second
             (fun a1 => if 0 <? a_decimals a1
               then if a_decimals a1 =? 1
                    then mk_afmt ("."%char :: a_text a1) (a_decimals a1 - 1) (a_exponent a1)
                    else mk_afmt (a_text a1) (a_decimals a1 - 1) (a_exponent a1)
               else a1)).
    + intros a1. repeat match goal with
         | |- context [if ?b then _ else _] => destruct b
         end; cbn [a_text];
        first [apply extends_refl | exists ["."%char]; reflexivity].
    + exact Hsecond.
    + apply (sim_push_checked (digit_char n) s a Hc).
  - cbn [bind]. apply Hsecond. assumption.
Qed.

Lemma sim_format_exponent n : forall s a,
  Corr s a ->
  Sim (format_exponent start end_ trailing n s) (text_exponent trailing n a).
Proof.
  induction n as [|n IH]; intros s a Hc; cbn [format_exponent text_exponent].
  - apply sim_ok. assumption.
  - apply (sim_step _ (fun a => text_exponent trailing n
                          (mk_afmt (a_text a) (a_decimals a) (a_exponent a - 1)))).
    + intros a1. eapply extends_trans; [|apply text_exponent_extends].
      cbn [a_text]. apply extends_refl.
    + intros s1 a1 Hc1. apply IH.
      pose proof Hc1 as (_ & _ & _ & _ & Hd1 & He1).
      rewrite Hd1, He1. apply corr_set. assumption.
    + apply sim_format_push. assumption.
Qed.

Lemma sim_format_group limb s a :
  Corr s a ->
  Sim (format_group start end_ trailing limb s) (text_group trailing limb a).
Proof.
  intros Hc. unfold format_group, text_group.
  apply (sim_step _ (fun a => text_push trailing (limb / 10 / 10 mod 10)
                       (text_push trailing (limb / 10 mod 10) a))).
  - intros a1. eapply extends_trans; apply text_push_extends.
  - intros s1 a1 Hc1.
    apply (sim_step _ (text_push trailing (limb / 10 / 10 mod 10))).
    + intros a2. apply text_push_extends.
    + intros s2 a2 Hc2. apply sim_format_push. assumption.
    + apply sim_format_push. assumption.
  - apply sim_format_push. assumption.
Qed.

Lemma sim_format_groups n : forall val s a,
  Corr s a ->
  Simp (format_groups start end_ trailing n val s) (text_groups trailing n val a).
Proof.
  induction n as [|n IH]; intros val s a Hc; cbn [format_groups text_groups].
  - split; [cbn [bind snd]; apply sim_ok; assumption|].
    intros v s' E. inversion E. reflexivity.
  - destruct (bn_divmod1000 val) as [val' limb].
    pose proof (sim_format_group limb s a Hc) as Hg. unfold sim in Hg.
    destruct (fits cap (text_group trailing limb a)) eqn:Hfit.
    + destruct Hg as (s1 & -> & Hc1). cbn [bind]. apply IH. assumption.
    + rewrite Hg, bind_overflow. split.
      * rewrite bind_overflow. apply sim_overflow; [assumption|].
        apply text_groups_extends.
      * intros v s' E. destruct checked; discriminate E.
Qed.

Lemma sim_format_rest digits val s a :
  Corr s a ->
  Sim (format_rest start end_ trailing digits val s)
      (text_rest trailing digits val a).
Proof.
  intros Hc. unfold format_rest, text_rest.
  destruct (digits mod 3 =? 0); [apply sim_ok; assumption|].
  destruct (bn_divmod1000 val) as [val' limb].
  destruct (digits mod 3 =? 2).
  - apply (sim_step _ (text_push trailing (limb / 10 mod 10))).
    + intros a1. apply text_push_extends.
    + intros s1 a1 Hc1. apply sim_format_push. assumption.
    + apply sim_format_push. assumption.
  - destruct (digits mod 3 =? 1); [apply sim_format_push|apply sim_ok]; assumption.
Qed.

Lemma corr_char s a :
  Corr s a -> nth (f_str s) (f_out s) zero = hd (hd zero tail) (a_text a).
Proof.
  intros (Hs & Hl & Hk & _).
  rewrite <- (Nat.add_0_r (f_str s)) at 1. rewrite <- nth_skipn, Hk.
  destruct (a_text a); [|reflexivity].
  destruct tail; [contradiction|reflexivity].
Qed.

Lemma sim_format_while fuel : forall s a a',
  Corr s a ->
  text_while trailing (hd zero tail) fuel a = Some a' ->
  exists r, format_while start end_ trailing fuel s = Some r /\ Sim r a'.
Proof.
  induction fuel as [|fuel IH]; intros s a a' Hc Hw.
  - cbn [text_while format_while] in *.
    rewrite (corr_char s a Hc).
    pose proof Hc as (_ & _ & _ & _ & Hd & _). rewrite Hd.
    destruct ((0 <? a_decimals a) || _ || _); [discriminate|].
    inversion Hw; subst. eexists. split; [reflexivity|apply sim_ok; assumption].
  - cbn [text_while format_while] in *.
    rewrite (corr_char s a Hc).
    pose proof Hc as (_ & _ & _ & _ & Hd & _). rewrite Hd.
    destruct ((0 <? a_decimals a) || _ || _).
    + pose proof (sim_format_push 0 s a Hc) as Hp. unfold sim in Hp.
      destruct (fits cap (text_push trailing 0 a)) eqn:Hfit.
      * destruct Hp as (s1 & -> & Hc1). apply (IH s1 _ a' Hc1 Hw).
      * rewrite Hp. exists (overflow checked (pfx ++ kept cap (a_text (text_push trailing 0 a)) ++ tail)).
        split; [destruct checked; reflexivity|].
        apply sim_overflow; [assumption|].
        apply (text_while_extends _ _ _ _ _ Hw).
    + inversion Hw; subst. eexists. split; [reflexivity|apply sim_ok; assumption].
Qed.

Lemma sim_format_body val s a :
  Corr s a ->
  Sim (format_body start end_ trailing val s) (text_body trailing val a).
Proof.
  intros Hc. unfold format_body, text_body. cbv zeta.
  pose proof Hc as (_ & _ & _ & _ & _ & He). rewrite He.
  generalize (bn_digitcount val). intros digits.
  apply (sim_step
           (fun s => bind (format_groups start end_ trailing (Z.to_nat (digits / 3)) val s)
                       (fun '(val, s) => format_rest start end_ trailing digits val s))
           (fun a => let '(val, a) := text_groups trailing (Z.to_nat (digits / 3)) val a in
                     text_rest trailing digits val a)).
  - intros a1.
    pose proof (text_groups_extends trailing (Z.to_nat (digits / 3)) val a1) as G.
    destruct (text_groups trailing (Z.to_nat (digits / 3)) val a1) as [v2 a2].
    cbn [snd] in G. eapply extends_trans; [exact G|apply text_rest_extends].
  - clear s a Hc He. intros s a Hc.
    destruct (sim_format_groups (Z.to_nat (digits / 3)) val s a Hc) as [Hsim Hval].
    destruct (text_groups trailing (Z.to_nat (digits / 3)) val a) as [V2 A2].
    cbn [fst snd] in *. unfold sim in Hsim.
    destruct (fits cap A2) eqn:Hfit.
    + destruct Hsim as (s' & E & Hc2).
      destruct (format_groups start end_ trailing (Z.to_nat (digits / 3)) val s)
        as [[v s2]|out|]; cbn [bind snd] in *; try discriminate E.
      inversion E; subst. rewrite (Hval v s' eq_refl).
      apply sim_format_rest; assumption.
    + destruct (format_groups start end_ trailing (Z.to_nat (digits / 3)) val s)
        as [[v s2]|out|]; cbn [bind snd] in *.
      * destruct checked; discriminate Hsim.
      * replace (Return0 out) with (@overflow fmt checked
            (pfx ++ kept cap (a_text A2) ++ tail))
          by (destruct checked; [inversion Hsim; reflexivity|discriminate Hsim]).
        apply sim_overflow; [assumption|apply text_rest_extends].
      * replace (@Undefined fmt) with (@overflow fmt checked
            (pfx ++ kept cap (a_text A2) ++ tail))
          by (destruct checked; [discriminate Hsim|reflexivity]).
        apply sim_overflow; [assumption|apply text_rest_extends].
  - apply sim_format_exponent; assumption.
Qed.

(** The final loop, up to the [memmove]. *)
Lemma sim_format_loop prefixlen outlen r a a' :
  Sim r a ->
  text_while trailing (hd zero tail) (text_fuel a) a = Some a' ->
  exists r', format_loop start end_ trailing prefixlen outlen r
             = Some (bind r' (format_finish prefixlen outlen))
             /\ Sim r' a'.
Proof.
  intros Hsim Hw. unfold sim in Hsim. unfold format_loop.
  destruct (fits cap a) eqn:Hfit.
  - destruct Hsim as (s & -> & Hc).
    assert (Hfuel : format_fuel s = text_fuel a).
    { destruct Hc as (_ & _ & _ & _ & Hd & He). unfold format_fuel, text_fuel.
      rewrite Hd, He. reflexivity. }
    rewrite Hfuel.
    destruct (sim_format_while (text_fuel a) s a a' Hc Hw) as (r' & -> & Hsim').
    exists r'. split; [reflexivity|assumption].
  - subst r.
    exists (overflow checked (pfx ++ kept cap (a_text a) ++ tail)).
    split; [destruct checked; reflexivity|].
    apply sim_overflow; [assumption|].
    apply (text_while_extends _ _ _ _ _ Hw).
Qed.

End Simulation.

Lemma text_while_fuel trailing c_end fuel : forall a,
  (Z.to_nat (- a_exponent a) + Z.to_nat (a_decimals a) + 1 <= fuel)%nat ->
  exists a', text_while trailing c_end fuel a = Some a'.
Proof.
  induction fuel as [|fuel IH]; intros a Hf; [lia|].
  cbn [text_while].
  destruct ((0 <? a_decimals a) || _ || _) eqn:Econd; [|eexists; reflexivity].
  destruct (Z.ltb_spec (a_exponent a) 0) as [Hneg|Hpos].
  - apply IH. unfold text_push.
    destruct (Z.ltb_spec (a_exponent a) 0); [|lia].
    cbn [a_exponent a_decimals]. lia.
  - destruct (Z.ltb_spec 0 (a_decimals a)) as [Hd|Hd].
    + apply IH. unfold text_push.
      destruct (Z.ltb_spec (a_exponent a) 0); [lia|].
      destruct (_ || _ || _ || _); cbn [a_decimals];
        destruct (Z.ltb_spec 0 (a_decimals a)); try lia;
        destruct (a_decimals a =? 1); cbn [a_exponent a_decimals]; lia.
    + (* decimals = 0: one digit is pushed and the loop ends *)
      assert (Hpush : text_push trailing 0 a
                      = mk_afmt (digit_char 0 :: a_text a) (a_decimals a) (a_exponent a)).
      { unfold text_push.
        destruct (Z.ltb_spec (a_exponent a) 0); [lia|].
        destruct (Z.leb_spec (a_decimals a) 1); [|lia].
        rewrite !orb_true_r. cbn [a_decimals].
        destruct (Z.ltb_spec 0 (a_decimals a)); [lia|reflexivity]. }
      rewrite Hpush. destruct fuel as [|fuel']; cbn [text_while a_text a_decimals hd].
      * destruct (Z.ltb_spec 0 (a_decimals a)); [lia|].
        cbn. eexists. reflexivity.
      * destruct (Z.ltb_spec 0 (a_decimals a)); [lia|].
        cbn. eexists. reflexivity.
Qed.

Lemma upd_split {A} (l : list A) : forall i v,
  (i < length l)%nat -> upd l i v = firstn i l ++ v :: skipn (S i) l.
Proof.
  induction l as [|h t IH]; intros [|i] v H; cbn [length] in H; try lia.
  - reflexivity.
  - cbn [upd firstn skipn app]. f_equal. apply IH. lia.
Qed.

(** Suffix and terminator, written into a buffer [out1] that has room for
    them. *)
Lemma format_prologue_tail (sfx out1 : list ascii) outlen :
  length out1 = outlen -> (length sfx + 1 <= outlen)%nat ->
  bind (if Nat.eqb (length sfx) 0 then Ok out1
        else if Nat.leb (length sfx + 1) outlen
             then memcpy out1 (outlen - length sfx - 1) sfx
             else Undefined)
    (fun out => if Nat.leb 1 outlen then Ok (upd out (outlen - 1) zero)
                else Undefined)
  = Ok (firstn (outlen - length sfx - 1) out1 ++ sfx ++ [zero]).
Proof.
  intros L1 H.
  set (front := firstn (outlen - length sfx - 1) out1).
  assert (Lfront : length front = (outlen - length sfx - 1)%nat).
  { unfold front. rewrite length_firstn. lia. }
  assert (E2 : (if Nat.eqb (length sfx) 0 then Ok out1
                else if Nat.leb (length sfx + 1) outlen
                     then memcpy out1 (outlen - length sfx - 1) sfx
                     else Undefined)
               = Ok (front ++ sfx ++ skipn (outlen - 1) out1)).
  { destruct (Nat.eqb_spec (length sfx) 0) as [E|NE].
    - destruct sfx; [|discriminate]. cbn [app length] in *.
      rewrite <- (firstn_skipn (outlen - 1) out1) at 1.
      unfold front. replace (outlen - 0 - 1)%nat with (outlen - 1)%nat by lia.
      reflexivity.
    - destruct (Nat.leb_spec (length sfx + 1) outlen); [|lia].
      unfold memcpy. rewrite L1.
      destruct (Nat.leb_spec (outlen - length sfx - 1 + length sfx) outlen); [|lia].
      replace (outlen - length sfx - 1 + length sfx)%nat with (outlen - 1)%nat by lia.
      reflexivity. }
  rewrite E2. cbn [bind].
  destruct (Nat.leb_spec 1 outlen); [|lia].
  f_equal.
  assert (Ls : length (skipn (outlen - 1) out1) = 1%nat)
    by (rewrite length_skipn; lia).
  destruct (skipn (outlen - 1) out1) as [|c [|]] eqn:Es; try discriminate Ls.
  rewrite upd_split
    by (rewrite !length_app, Lfront; cbn [length]; lia).
  assert (Lfs : length (front ++ sfx) = (outlen - 1)%nat).
  { rewrite !length_app, Lfront. lia. }
  replace (front ++ sfx ++ [c]) with ((front ++ sfx) ++ [c])
    by (rewrite <- !app_assoc; reflexivity).
  rewrite firstn_app, skipn_app, Lfs.
  rewrite firstn_all2 by lia.
  replace (outlen - 1 - (outlen - 1))%nat with 0%nat by lia.
  replace (S (outlen - 1) - (outlen - 1))%nat with 1%nat by lia.
  rewrite skipn_all2 by lia.
  cbn [firstn skipn app]. rewrite app_nil_r, <- !app_assoc. reflexivity.
Qed.

Lemma format_prologue_prefix (pfx out : list ascii) :
  (length pfx <= length out)%nat ->
  (if Nat.eqb (length pfx) 0 then Ok out else memcpy out 0 pfx)
  = Ok (pfx ++ skipn (length pfx) out).
Proof.
  intros H. destruct (Nat.eqb_spec (length pfx) 0) as [E|NE].
  - destruct pfx; [reflexivity|discriminate].
  - unfold memcpy. cbn [Nat.add firstn app].
    destruct (Nat.leb_spec (length pfx) (length out)); [reflexivity|lia].
Qed.

(** The buffer after the prefix, the suffix and the terminator have been
    written, when there is room for the three. *)
Lemma format_prologue_ok (pfx sfx out : list ascii) :
  (length pfx + length sfx + 1 <= length out)%nat ->
  format_prologue pfx sfx out
  = Ok (pfx ++ firstn (length out - length pfx - length sfx - 1)
                      (skipn (length pfx) out)
            ++ sfx ++ [zero]).
Proof.
  intros H. unfold format_prologue. cbv zeta.
  rewrite format_prologue_prefix by lia. cbn [bind].
  rewrite format_prologue_tail
    by (rewrite ?length_app, ?length_skipn; lia).
  f_equal. rewrite firstn_app, firstn_all2 by lia.
  rewrite <- app_assoc. f_equal. f_equal. f_equal. lia.
Qed.

(** When there is no room for the three, either one of them is written
    outside the buffer, or the suffix is written over the prefix and the
    text ends in front of [start]. *)
Lemma format_prologue_short (pfx sfx out : list ascii) :
  (length out < length pfx + length sfx + 1)%nat ->
  format_prologue pfx sfx out = Undefined \/
  exists front,
    format_prologue pfx sfx out = Ok (front ++ sfx ++ [zero]) /\
    length front = (length out - length sfx - 1)%nat /\
    (length sfx + 1 <= length out)%nat.
Proof.
  intros H. unfold format_prologue. cbv zeta.
  destruct (Nat.le_gt_cases (length pfx) (length out)) as [Hp|Hp].
  - rewrite format_prologue_prefix by lia. cbn [bind].
    set (out1 := pfx ++ skipn (length pfx) out).
    assert (L1 : length out1 = length out)
      by (unfold out1; rewrite length_app, length_skipn; lia).
    destruct (Nat.le_gt_cases (length sfx + 1) (length out)) as [Hs|Hs].
    + right. exists (firstn (length out - length sfx - 1) out1).
      split; [apply format_prologue_tail; assumption|].
      split; [rewrite length_firstn; lia|assumption].
    + left. destruct (Nat.eqb_spec (length sfx) 0) as [E|NE].
      * cbn [bind]. destruct (Nat.leb_spec 1 (length out)); [lia|reflexivity].
      * destruct (Nat.leb_spec (length sfx + 1) (length out)); [lia|reflexivity].
  - left. destruct (Nat.eqb_spec (length pfx) 0) as [E|NE]; [lia|].
    unfold memcpy. cbn [Nat.add].
    destruct (Nat.leb_spec (length pfx) (length out)); [lia|reflexivity].
Qed.

Lemma corr_initial (pfx mid sfx : list ascii) d e :
  corr (length pfx) (length pfx + length mid) (length mid) pfx (sfx ++ [zero])
       (mk_fmt (pfx ++ mid ++ sfx ++ [zero]) (length pfx + length mid) d e)
       (mk_afmt [] d e).
Proof.
  unfold corr.
  cbn [f_out f_str f_decimals f_exponent a_text a_decimals a_exponent length app].
  split; [lia|]. split; [lia|].
  split; [|split; [|split; reflexivity]].
  - rewrite app_assoc, skipn_app, length_app.
    rewrite skipn_all2 by (rewrite length_app; lia).
    rewrite Nat.sub_diag. reflexivity.
  - rewrite firstn_app, Nat.sub_diag, firstn_all. cbn [firstn]. apply app_nil_r.
Qed.

Lemma corr_initial_short (front sfx : list ascii) d e :
  corr 0 (length front) (length front) [] (sfx ++ [zero])
       (mk_fmt (front ++ sfx ++ [zero]) (length front) d e)
       (mk_afmt [] d e).
Proof.
  unfold corr.
  cbn [f_out f_str f_decimals f_exponent a_text a_decimals a_exponent length app].
  split; [lia|]. split; [lia|].
  split; [|split; [|split; reflexivity]].
  - rewrite skipn_app, skipn_all, Nat.sub_diag. reflexivity.
  - reflexivity.
Qed.

(** With room for prefix, suffix and terminator: the code from the exponent
    loop on, against the buffer-free loops. *)
Lemma format_loop_spec pfx mid sfx trailing val d e a' :
  let start := length pfx in
  let end_ := (length pfx + length mid)%nat in
  let outlen := (length pfx + length mid + length sfx + 1)%nat in
  let a := text_body trailing val (mk_afmt [] d e) in
  text_while trailing (hd zero sfx) (text_fuel a) a = Some a' ->
  if Nat.leb (length (a_text a')) (length mid)
  then exists rest,
      format_loop start end_ trailing start outlen
        (format_body start end_ trailing val
           (mk_fmt (pfx ++ mid ++ sfx ++ [zero]) end_ d e))
      = Some (Ok ((start + length (a_text a') + length sfx)%nat,
                  pfx ++ a_text a' ++ sfx ++ [zero] ++ rest))
  else
      format_loop start end_ trailing start outlen
        (format_body start end_ trailing val
           (mk_fmt (pfx ++ mid ++ sfx ++ [zero]) end_ d e))
      = Some (Return0 (pfx ++ kept (length mid) (a_text a') ++ sfx ++ [zero])).
Proof.
  cbv zeta. set (a := text_body trailing val (mk_afmt [] d e)).
  set (start := length pfx). set (end_ := (start + length mid)%nat).
  set (outlen := (end_ + length sfx + 1)%nat).
  intros Hw.
  assert (Ht : sfx ++ [zero] <> []) by (destruct sfx; discriminate).
  assert (Hhd : hd zero sfx = hd zero (sfx ++ [zero])) by (destruct sfx; reflexivity).
  assert (Hkc : (start + length mid <= end_)%nat) by (unfold end_; lia).
  assert (Hroom : forall n, (end_ - length mid < n)%nat -> (n <= end_)%nat ->
                            n <> start) by (unfold end_; lia).
  assert (Hfull : forall c s a0,
             corr start end_ (length mid) pfx (sfx ++ [zero]) s a0 ->
             length (a_text a0) = length mid ->
             push_checked start c s
             = overflow true (pfx ++ a_text a0 ++ sfx ++ [zero])).
  { intros c s a0 (_ & Hl & Hk & Hp & _) Hlen. unfold push_checked.
    assert (Es : f_str s = start) by (unfold end_ in *; lia).
    rewrite Es, Nat.eqb_refl. cbn [overflow]. f_equal.
    rewrite <- (firstn_skipn start (f_out s)) at 1.
    rewrite Es in Hk. rewrite Hp, Hk. reflexivity. }
  pose proof (sim_format_body start end_ start (length mid) true pfx (sfx ++ [zero])
                trailing Ht Hkc Hroom Hfull val _ _
                (corr_initial pfx mid sfx d e)) as Hb.
  fold start end_ a in Hb. rewrite Hhd in Hw.
  destruct (sim_format_loop start end_ start (length mid) true pfx (sfx ++ [zero])
              trailing Ht Hkc Hroom Hfull start outlen _ a a' Hb Hw)
    as (r' & Er & Hsim').
  rewrite Er. clear Er Hb.
  unfold sim, fits in Hsim'.
  destruct (Nat.leb_spec (length (a_text a')) (length mid)) as [Hfit|Hno].
  - destruct Hsim' as (s' & -> & Hc').
    pose proof Hc' as (_ & Hl' & Hk' & Hp' & _).
    assert (Lo : length (f_out s') = outlen).
    { pose proof (f_equal (@length ascii) Hk') as E.
      rewrite length_skipn, !length_app in E. cbn [length] in E.
      unfold outlen, end_ in *. lia. }
    cbn [bind]. unfold format_finish.
    destruct (Nat.leb_spec (start + (outlen - f_str s')) outlen);
      [|unfold outlen, end_ in *; lia].
    eexists. f_equal. f_equal. f_equal.
    + unfold outlen, end_ in *. lia.
    + rewrite Hp', Hk'. rewrite <- !app_assoc. cbn [app]. reflexivity.
  - rewrite Hsim'. reflexivity.
Qed.

(** Without room for them the start check never fires: the pushes run
    past the beginning of the buffer, or the final [memmove] runs past its
    end. *)
Lemma format_loop_short start front sfx trailing val d e outlen a' :
  let end_ := length front in
  let a := text_body trailing val (mk_afmt [] d e) in
  (end_ < start)%nat -> outlen = (length front + length sfx + 1)%nat ->
  text_while trailing (hd zero sfx) (text_fuel a) a = Some a' ->
  format_loop start end_ trailing start outlen
    (format_body start end_ trailing val
       (mk_fmt (front ++ sfx ++ [zero]) end_ d e))
  = Some Undefined.
Proof.
  cbv zeta. set (a := text_body trailing val (mk_afmt [] d e)).
  set (end_ := length front).
  intros Hlt Hout Hw.
  assert (Ht : sfx ++ [zero] <> []) by (destruct sfx; discriminate).
  assert (Hhd : hd zero sfx = hd zero (sfx ++ [zero])) by (destruct sfx; reflexivity).
  assert (Hkc : (0 + end_ <= end_)%nat) by lia.
  assert (Hroom : forall n, (end_ - end_ < n)%nat -> (n <= end_)%nat ->
                            n <> start) by lia.
  assert (Hfull : forall c s a0,
             corr 0 end_ end_ [] (sfx ++ [zero]) s a0 ->
             length (a_text a0) = end_ ->
             push_checked start c s
             = overflow false ([] ++ a_text a0 ++ sfx ++ [zero])).
  { intros c s a0 (_ & Hl & _) Hlen. unfold push_checked.
    assert (Es : f_str s = 0%nat) by lia.
    rewrite Es. destruct (Nat.eqb_spec 0 start); [lia|reflexivity]. }
  pose proof (sim_format_body start end_ 0 end_ false [] (sfx ++ [zero])
                trailing Ht Hkc Hroom Hfull val _ _
                (corr_initial_short front sfx d e)) as Hb.
  fold end_ a in Hb. rewrite Hhd in Hw.
  destruct (sim_format_loop start end_ 0 end_ false [] (sfx ++ [zero])
              trailing Ht Hkc Hroom Hfull start outlen _ a a' Hb Hw)
    as (r' & Er & Hsim').
  rewrite Er. clear Er Hb.
  unfold sim in Hsim'.
  destruct (fits end_ a').
  - destruct Hsim' as (s' & -> & Hc').
    pose proof Hc' as (_ & Hl' & _).
    cbn [bind]. unfold format_finish.
    destruct (Nat.leb_spec (start + (outlen - f_str s')) outlen);
      [unfold end_ in *; lia|reflexivity].
  - rewrite Hsim'. reflexivity.
Qed.

Lemma strlen_chars s : strlen_opt s = length (chars_opt s).
Proof. destruct s; reflexivity. Qed.

(** [bn_format] on every buffer: prefix, text, suffix and terminator when
    they fit; 0 when prefix, suffix and terminator fit and the text does
    not, with the buffer overwritten; an access outside the buffer when
    not even prefix, suffix and terminator fit. *)
Lemma bn_format_cases amnt prefix suffix decimals exponent trailing out :
  let pfx := chars_opt prefix in
  let sfx := chars_opt suffix in
  let room := (length out - length pfx - length sfx - 1)%nat in
  exists text,
    format_text amnt suffix decimals exponent trailing = Some text /\
    if Nat.leb (length pfx + length sfx + 1) (length out)
    then
      if Nat.leb (length text) room
      then exists rest,
          bn_format amnt prefix suffix decimals exponent trailing out
          = Some (Ok ((length pfx + length text + length sfx)%nat,
                      pfx ++ text ++ sfx ++ [zero] ++ rest))
      else
          bn_format amnt prefix suffix decimals exponent trailing out
          = Some (Return0 (pfx ++ kept room text ++ sfx ++ [zero]))
    else bn_format amnt prefix suffix decimals exponent trailing out
         = Some Undefined.
Proof.
  unfold format_text, bn_format. cbv zeta. rewrite !strlen_chars.
  generalize (chars_opt prefix). intros pfx.
  generalize (chars_opt suffix). intros sfx.
  generalize (if bn_is_zero amnt then 0 else exponent). intros e0.
  set (a := text_body trailing amnt (mk_afmt [] decimals e0)).
  destruct (text_while_fuel trailing (hd zero sfx) (text_fuel a) a
              ltac:(unfold text_fuel; lia)) as (a' & Hw).
  rewrite Hw. exists (a_text a'). split; [reflexivity|].
  destruct (Nat.leb_spec (length pfx + length sfx + 1) (length out)) as [Hlen|Hlen].
  - rewrite format_prologue_ok by assumption.
    set (mid := firstn _ _).
    assert (Lmid : length mid = (length out - length pfx - length sfx - 1)%nat).
    { unfold mid. rewrite length_firstn, length_skipn. lia. }
    rewrite <- Lmid.
    replace (length out - length sfx - 1)%nat with (length pfx + length mid)%nat
      by lia.
    replace (length out) with (length pfx + length mid + length sfx + 1)%nat
      by lia.
    clearbody mid.
    exact (format_loop_spec pfx mid sfx trailing amnt decimals e0 a' Hw).
  - destruct (format_prologue_short pfx sfx out Hlen)
      as [->|(front & -> & Lfront & Hs)]; [reflexivity|].
    rewrite <- Lfront.
    apply (format_loop_short (length pfx) front sfx trailing amnt decimals e0
             (length out) a'); [lia|lia|exact Hw].
Qed.

(** [bn_format] writes prefix, text, suffix and terminator, or returns 0
    when they do not fit. *)
Theorem bn_format_spec amnt prefix suffix decimals exponent trailing out :
  (strlen_opt prefix + strlen_opt suffix + 1 <= length out)%nat ->
  exists text,
    format_text amnt suffix decimals exponent trailing = Some text /\
    if Nat.leb (strlen_opt prefix + length text + strlen_opt suffix + 1) (length out)
    then exists rest,
        bn_format amnt prefix suffix decimals exponent trailing out
        = Some (Ok ((strlen_opt prefix + length text + strlen_opt suffix)%nat,
                    chars_opt prefix ++ text ++ chars_opt suffix ++ [zero] ++ rest))
    else exists out',
        bn_format amnt prefix suffix decimals exponent trailing out
        = Some (Return0 out').
Proof.
  intros Hlen. rewrite !strlen_chars in *.
  destruct (bn_format_cases amnt prefix suffix decimals exponent trailing out)
    as (text & Ht & H).
  exists text. split; [exact Ht|].
  destruct (Nat.leb_spec (length (chars_opt prefix) + length (chars_opt suffix) + 1)
              (length out)); [|lia].
  destruct (Nat.leb_spec (length text)
              (length out - length (chars_opt prefix) - length (chars_opt suffix) - 1));
    destruct (Nat.leb_spec
                (length (chars_opt prefix) + length text + length (chars_opt suffix) + 1)
                (length out)); try lia.
  - exact H.
  - eexists. exact H.
Qed.

Lemma text_while_done trailing c_end fuel : forall a a',
  text_while trailing c_end fuel a = Some a' ->
  Ascii.eqb (hd c_end (a_text a')) zero = false.
Proof.
  induction fuel as [|fuel IH]; intros a a' Hw; cbn [text_while] in Hw.
  - destruct (0 <? a_decimals a); [discriminate|].
    destruct (Ascii.eqb (hd c_end (a_text a)) zero) eqn:E; [discriminate|].
    cbn [orb] in Hw. destruct (Ascii.eqb _ "."%char); [discriminate|].
    inversion Hw; subst. exact E.
  - destruct (0 <? a_decimals a); [apply (IH _ _ Hw)|].
    destruct (Ascii.eqb (hd c_end (a_text a)) zero) eqn:E; [apply (IH _ _ Hw)|].
    cbn [orb] in Hw. destruct (Ascii.eqb _ "."%char); [apply (IH _ _ Hw)|].
    inversion Hw; subst. exact E.
Qed.

Lemma format_text_nonempty amnt suffix decimals exponent trailing text :
  format_text amnt suffix decimals exponent trailing = Some text ->
  (1 <= length text + strlen_opt suffix)%nat.
Proof.
  unfold format_text. cbv zeta.
  destruct (text_while _ _ _ _) as [a'|] eqn:Hw; [|discriminate].
  intros E. inversion E; subst.
  apply text_while_done in Hw.
  destruct (a_text a'); [|cbn [length]; lia].
  rewrite strlen_chars. cbn [hd length] in *.
  destruct (chars_opt suffix); [|cbn [length]; lia].
  cbn in Hw. discriminate.
Qed.

Lemma kept_length cap t : (cap <= length t)%nat -> length (kept cap t) = cap.
Proof. intros H. unfold kept. rewrite length_skipn. lia. Qed.

(** C7 (amended): what [bn_format] does is decided by the size of the
    buffer alone.  With [text] the digits and decimal point of the number
    and [room] the bytes left between prefix and suffix:
    - when prefix, text, suffix and terminator fit, they are written and the
      returned length is positive;
    - when prefix, suffix and terminator fit but the text does not (also
      when one byte is missing), 0 is returned, and the buffer has been
      overwritten from its first to its last byte: it holds the prefix,
      the last [room] characters of the text, the suffix and the
      terminator;
    - when not even prefix, suffix and terminator fit, the check of
      [BN_FORMAT_PUSH_CHECKED] never fires and the code reads or writes
      outside the buffer instead of returning 0. *)
Theorem bn_format_zero_iff_too_small
    amnt prefix suffix decimals exponent trailing out :
  let pfx := chars_opt prefix in
  let sfx := chars_opt suffix in
  let room := (length out - length pfx - length sfx - 1)%nat in
  exists text,
    format_text amnt suffix decimals exponent trailing = Some text /\
    if Nat.leb (length pfx + length sfx + 1) (length out)
    then
      if Nat.leb (length pfx + length text + length sfx + 1) (length out)
      then exists rest,
          bn_format amnt prefix suffix decimals exponent trailing out
          = Some (Ok ((length pfx + length text + length sfx)%nat,
                      pfx ++ text ++ sfx ++ [zero] ++ rest)) /\
          (0 < length pfx + length text + length sfx)%nat
      else
          bn_format amnt prefix suffix decimals exponent trailing out
          = Some (Return0 (pfx ++ kept room text ++ sfx ++ [zero])) /\
          length (kept room text) = room /\
          length (pfx ++ kept room text ++ sfx ++ [zero]) = length out
    else bn_format amnt prefix suffix decimals exponent trailing out
         = Some Undefined.
Proof.
  cbv zeta.
  destruct (bn_format_cases amnt prefix suffix decimals exponent trailing out)
    as (text & Ht & H).
  exists text. split; [exact Ht|].
  pose proof (format_text_nonempty _ _ _ _ _ _ Ht) as Hne.
  rewrite strlen_chars in Hne.
  destruct (Nat.leb_spec (length (chars_opt prefix) + length (chars_opt suffix) + 1)
              (length out)) as [Hlen|Hlen]; [|exact H].
  destruct (Nat.leb_spec (length text)
              (length out - length (chars_opt prefix) - length (chars_opt suffix) - 1));
    destruct (Nat.leb_spec
                (length (chars_opt prefix) + length text + length (chars_opt suffix) + 1)
                (length out)); try lia.
  - destruct H as (rest & H). exists rest. split; [exact H|lia].
  - split; [exact H|].
    assert (Lk : length (kept (length out - length (chars_opt prefix)
                                - length (chars_opt suffix) - 1) text)
                 = (length out - length (chars_opt prefix)
                    - length (chars_opt suffix) - 1)%nat)
      by (apply kept_length; lia).
    split; [exact Lk|].
    rewrite !length_app, Lk. cbn [length]. lia.
Qed.


Ltac sixteen a :=
  let H := fresh in
  intro H;
  do 16 (destruct a as [|? a]; [discriminate H|]);
  destruct a; [clear H|discriminate H].

(** C6 (amended): with no prefix or suffix and a 16-byte buffer, value 0
    with decimals = 0 is rendered as "0" (length 1); value 100000000 with
    decimals = 8 is rendered as "1.0" (length 3) when trailing zeros are
    suppressed and as "1.00000000" (length 10) with trailing = true. *)
Theorem bn_format_scenarios out :
  length out = 16%nat ->
  (exists out',
      bn_format (bn_read_uint32 0) None None 0 0 false out = Some (Ok (1%nat, out'))
      /\ c_string out' = ["0"]%char) /\
  (exists out',
      bn_format (bn_read_uint32 100000000) None None 8 0 false out
        = Some (Ok (3%nat, out'))
      /\ c_string out' = ["1"; "."; "0"]%char) /\
  (exists out',
      bn_format (bn_read_uint32 100000000) None None 8 0 true out
        = Some (Ok (10%nat, out'))
      /\ c_string out' = ["1"; "."; "0"; "0"; "0"; "0"; "0"; "0"; "0"; "0"]%char).
Proof.
  sixteen out.
  split; [|split]; eexists; (split; [vm_compute; reflexivity|vm_compute; reflexivity]).
Qed.

(** C6 as stated fails: with trailing zeros suppressed the code keeps one
    digit after the point and renders 100000000 / 10^8 as "1.0", not "1.". *)
Lemma bn_format_suppressed_zeros_counterexample :
  exists out',
    bn_format (bn_read_uint32 100000000) None None 8 0 false (repeat "x"%char 16)
      = Some (Ok (3%nat, out'))
    /\ c_string out' = ["1"; "."; "0"]%char
    /\ c_string out' <> ["1"; "."]%char.
Proof.
  eexists. split; [vm_compute; reflexivity|].
  split; [vm_compute; reflexivity|vm_compute; discriminate].
Qed.

(** C7 as stated fails twice.  A zero return leaves the buffer modified:
    12 into a buffer of two bytes returns 0 after the terminator and the
    low digit have been written.  And a buffer that is too small does not
    always give 0: with prefix "ab", suffix "c" and three bytes the suffix
    lands on the prefix, [str] starts in front of [start], the digit 5 is
    written to [out[0]], and the final [memmove] writes [out[3]] and
    [out[4]] before 4 is returned. *)
Lemma bn_format_too_small_counterexample :
  bn_format (bn_read_uint32 12) None None 0 0 false ["x"; "x"]%char
    = Some (Return0 ["2"%char; zero])
  /\ ["2"%char; zero] <> ["x"; "x"]%char
  /\ bn_format (bn_read_uint32 5) (Some ["a"; "b"]%char) (Some ["c"]%char)
       0 0 false ["x"; "x"; "x"]%char
     = Some Undefined.
Proof.
  split; [vm_compute; reflexivity|]. split; [discriminate|].
  vm_compute. reflexivity.
Qed.

(** ** Execution paths of the predicates *)


Section ConstantPath.

Variable tgt : target.
Variables a b a' b' : bignum256.
Hypothesis same_length_a : length a = length a'.
Hypothesis same_length_b : length b = length b'.








End ConstantPath.







(** The semantics does tell paths apart: [bn_bitcount] fails the check,
    and its path gives away where the highest limb that is not zero is. *)
Lemma bn_bitcount_c_leaks :
  constant_path Predicated bn_bitcount_c = false /\
  returned (run Predicated bn_bitcount_c (bn_read_uint32 1) [])
  = Some (bn_bitcount (bn_read_uint32 1)) /\
  leakage (run Predicated bn_bitcount_c (bn_read_uint32 1) [])
  <> leakage (run Predicated bn_bitcount_c (bn_read_uint32 (2^30)) []).
Proof.
  split; [reflexivity|]. split; [reflexivity|].
  vm_compute. discriminate.
Qed.



(** ** Scratch memory *)

Lemma for_up_inv {S : Type} (P : S -> Prop) (body : nat -> S -> S) n :
  forall lo s, (forall i s, P s -> P (body i s)) -> P s -> P (for_up lo n body s).
Proof.
  induction n as [|n IH]; intros lo s Hb Hs; cbn [for_up]; [assumption|].
  apply IH; [assumption|]. apply Hb. assumption.
Qed.

Lemma for_down_inv {S : Type} (P : S -> Prop) (body : nat -> S -> S) n :
  forall hi s, (forall i s, P s -> P (body i s)) -> P s -> P (for_down hi n body s).
Proof.
  induction n as [|n IH]; intros hi s Hb Hs; cbn [for_down]; [assumption|].
  apply IH; [assumption|]. apply Hb. assumption.
Qed.

Lemma bn_multiply_long_length k x res :
  length (bn_multiply_long k x res) = length res.
Proof.
  unfold bn_multiply_long.
  set (P := fun s : Z * list Z => length (snd s) = length res).
  assert (H1 : P (for_up 0 9
                    (fun i '(temp, res0) =>
                       (shr (for_up 0 (S i)
                               (fun j temp0 => add64 temp0 (mul64 (get k j) (get x (i - j))))
                               temp) 30,
                        upd res0 i
                          (Z.land (for_up 0 (S i)
                                     (fun j temp0 =>
                                        add64 temp0 (mul64 (get k j) (get x (i - j))))
                                     temp) 0x3FFFFFFF)))
                    (0, res))).
  { apply for_up_inv; [|reflexivity].
    intros i [t r] H. unfold P in *. cbn [snd] in *. rewrite upd_length. exact H. }
  destruct (for_up 0 9 _ (0, res)) as [t1 r1]. unfold P in H1. cbn [snd] in H1.
  set (Q := fun s : Z * list Z => length (snd s) = length res).
  assert (H2 : Q (for_up 9 8
                    (fun i '(temp, res0) =>
                       (shr (for_up (i - 8) (17 - i)
                               (fun j temp0 => add64 temp0 (mul64 (get k j) (get x (i - j))))
                               temp) 30,
                        upd res0 i
                          (Z.land (for_up (i - 8) (17 - i)
                                     (fun j temp0 =>
                                        add64 temp0 (mul64 (get k j) (get x (i - j))))
                                     temp) 0x3FFFFFFF)))
                    (t1, r1))).
  { apply for_up_inv; [|exact H1].
    intros i [t r] H. unfold Q in *. cbn [snd] in *. rewrite upd_length. exact H. }
  destruct (for_up 9 8 _ (t1, r1)) as [t2 r2]. unfold Q in H2. cbn [snd] in H2.
  rewrite upd_length. exact H2.
Qed.

Lemma bn_multiply_reduce_step_length res prime i :
  length (bn_multiply_reduce_step res prime i) = length res.
Proof.
  unfold bn_multiply_reduce_step. cbv zeta.
  match goal with
  | |- context [for_up 1 8 ?body ?s0] =>
      assert (H : length (snd (for_up 1 8 body s0)) = length res);
      [apply (for_up_inv (fun s : Z * list Z => length (snd s) = length res));
       [intros j [t r] Hr; cbn [snd] in *; rewrite upd_length; exact Hr
       |cbn [snd]; apply upd_length]
      |destruct (for_up 1 8 body s0) as [t r]; cbn [snd] in H]
  end.
  rewrite upd_length. exact H.
Qed.

(** [bn_multiply] returns with its 18-limb scratch array zeroed. *)
Theorem bn_multiply_scratch_zeroed k x prime :
  snd (bn_multiply_st k x prime) = repeat 0 18.
Proof.
  unfold bn_multiply_st, bn_multiply_reduce, memzero. cbv zeta. cbn [snd].
  match goal with
  | |- repeat 0 (length ?r) = _ => assert (L : length r = 18%nat)
  end.
  { apply (for_down_inv (fun r : list Z => length r = 18%nat)).
    - intros i r H. rewrite bn_multiply_reduce_step_length. exact H.
    - rewrite bn_multiply_long_length. reflexivity. }
  rewrite L. reflexivity.
Qed.

Lemma bn_cmov_length c t f : length (bn_cmov c t f) = 9%nat.
Proof.
  unfold bn_cmov. cbv zeta.
  apply (for_up_inv (fun r : list Z => length r = 9%nat)); [|reflexivity].
  intros i r H. rewrite upd_length. exact H.
Qed.

Lemma bn_addi_length a b : length (bn_addi a b) = length a.
Proof.
  unfold bn_addi.
  apply (for_up_inv (fun s : Z * list Z => length (snd s) = length a)); [|reflexivity].
  intros i [t r] H. cbn [snd] in *. rewrite upd_length. exact H.
Qed.

Lemma bn_rshift_length a : length (bn_rshift a) = length a.
Proof.
  unfold bn_rshift. cbv zeta. rewrite upd_length.
  apply (for_up_inv (fun r : list Z => length r = length a)); [|reflexivity].
  intros i r H. rewrite upd_length. exact H.
Qed.

(** [bn_sqrt] returns with both of its local bignums zeroed. *)
Theorem bn_sqrt_scratch_zeroed x prime :
  length prime = 9%nat ->
  snd (fst (bn_sqrt_st x prime)) = bn_zero /\ snd (bn_sqrt_st x prime) = bn_zero.
Proof.
  intros Lp. unfold bn_sqrt_st. cbv zeta.
  destruct (for_up 0 9 _ (x, bn_one)) as [x' res']. cbn [fst snd].
  unfold memzero, bn_mod. cbv zeta.
  rewrite bn_cmov_length, !bn_rshift_length, bn_addi_length, Lp.
  split; reflexivity.
Qed.

(** [bn_inverse] returns with its accumulator [res] still holding the
    result: there is no [memzero] after the final [bn_mod]. *)
Lemma bn_inverse_scratch_is_result x prime :
  snd (bn_inverse_st x prime) = bn_inverse x prime.
Proof.
  unfold bn_inverse, bn_inverse_st. cbv zeta.
  destruct (for_up 0 9 _ (x, bn_one)) as [x' res']. reflexivity.
Qed.

(** C8 fails for [bn_inverse]: inverting 2 modulo the secp256k1 prime leaves
    the inverse, not zeros, in the accumulator. *)
Lemma bn_inverse_scratch_not_cleared :
  snd (bn_inverse_st (bn_read_uint32 2) secp256k1_prime)
  = [0x3ffffe18; 0x3ffffffd; 0x3fffffff; 0x3fffffff; 0x3fffffff;
     0x3fffffff; 0x3fffffff; 0x3fffffff; 0x7fff]
  /\ snd (bn_inverse_st (bn_read_uint32 2) secp256k1_prime) <> bn_zero.
Proof.
  assert (E : snd (bn_inverse_st (bn_read_uint32 2) secp256k1_prime)
              = [0x3ffffe18; 0x3ffffffd; 0x3fffffff; 0x3fffffff; 0x3fffffff;
                 0x3fffffff; 0x3fffffff; 0x3fffffff; 0x7fff])
    by (vm_compute; reflexivity).
  split; [exact E|]. rewrite E. discriminate.
Qed.

(** ** Instances on concrete inputs *)

Ltac limb_ok :=
  unfold is_limb, is_u32; vm_compute; split; [discriminate|reflexivity].

Ltac limbs_ok :=
  cbv [bn_read_uint32 secp256k1_prime repeat];
  split; [reflexivity|repeat (apply Forall_cons; [limb_ok|]); apply Forall_nil].

Ltac band_ok := unfold in_band; vm_compute; split; reflexivity.

Lemma secp256k1_prime_normalized : normalized secp256k1_prime.
Proof. limbs_ok. Defined.

Lemma secp256k1_prime_value : value secp256k1_prime = 2^256 - 2^32 - 977.
Proof. vm_compute. reflexivity. Qed.

Lemma secp256k1_prime_in_band : in_band (value secp256k1_prime).
Proof. band_ok. Defined.

Lemma bn_multiply_partly_reduces_witness :
  normalized (bn_read_uint32 3) /\ normalized (bn_read_uint32 5) /\
  normalized secp256k1_prime /\ in_band (value secp256k1_prime) /\
  value (bn_read_uint32 3) < 180 * value secp256k1_prime /\
  value (bn_read_uint32 5) < 180 * value secp256k1_prime /\
  normalized (bn_multiply (bn_read_uint32 3) (bn_read_uint32 5) secp256k1_prime) /\
  value (bn_multiply (bn_read_uint32 3) (bn_read_uint32 5) secp256k1_prime)
    < 2 * value secp256k1_prime /\
  value (bn_multiply (bn_read_uint32 3) (bn_read_uint32 5) secp256k1_prime)
    mod value secp256k1_prime
  = (value (bn_read_uint32 3) * value (bn_read_uint32 5)) mod value secp256k1_prime.
Proof.
  assert (H3 : normalized (bn_read_uint32 3)) by limbs_ok.
  assert (H5 : normalized (bn_read_uint32 5)) by limbs_ok.
  assert (B3 : value (bn_read_uint32 3) < 180 * value secp256k1_prime)
    by (vm_compute; reflexivity).
  assert (B5 : value (bn_read_uint32 5) < 180 * value secp256k1_prime)
    by (vm_compute; reflexivity).
  repeat (split; [assumption || apply secp256k1_prime_normalized
                  || apply secp256k1_prime_in_band|]).
  exact (bn_multiply_partly_reduces _ _ _ H3 H5 secp256k1_prime_normalized
           secp256k1_prime_in_band B3 B5).
Defined.

Lemma bn_fast_mod_partly_reduces_witness :
  let x := repeat 0xFFFFFFFF 9 in
  wf x /\ wf secp256k1_prime /\ in_band (value secp256k1_prime) /\
  normalized (bn_fast_mod x secp256k1_prime) /\
  value (bn_fast_mod x secp256k1_prime) < 2 * value secp256k1_prime /\
  value (bn_fast_mod x secp256k1_prime) mod value secp256k1_prime
  = value x mod value secp256k1_prime.
Proof.
  cbv zeta.
  assert (Hx : wf (repeat 0xFFFFFFFF 9)) by limbs_ok.
  assert (Hp : wf secp256k1_prime) by limbs_ok.
  split; [exact Hx|]. split; [exact Hp|].
  split; [apply secp256k1_prime_in_band|].
  exact (bn_fast_mod_partly_reduces _ _ Hx Hp secp256k1_prime_in_band).
Defined.

Lemma bn_read_write_roundtrip_witness :
  let x := [0x12345678; 0x3abcdef0; 0x0badf00d; 0x3fffffff; 1; 2; 3;
            0x2aaaaaaa; 0xbeef] in
  let out := repeat 0 32 in
  normalized x /\ in_band (value secp256k1_prime) /\
  value x < value secp256k1_prime /\ length out = 32%nat /\
  bn_read_be (bn_write_be x out) = x /\ bn_read_le (bn_write_le x out) = x.
Proof.
  cbv zeta.
  assert (Hx : normalized [0x12345678; 0x3abcdef0; 0x0badf00d; 0x3fffffff; 1; 2; 3;
                           0x2aaaaaaa; 0xbeef]) by limbs_ok.
  assert (Hv : value [0x12345678; 0x3abcdef0; 0x0badf00d; 0x3fffffff; 1; 2; 3;
                      0x2aaaaaaa; 0xbeef] < value secp256k1_prime)
    by (vm_compute; reflexivity).
  split; [exact Hx|]. split; [apply secp256k1_prime_in_band|].
  split; [exact Hv|]. split; [reflexivity|].
  exact (bn_read_write_roundtrip _ secp256k1_prime (repeat 0 32) Hx
           secp256k1_prime_in_band Hv eq_refl).
Defined.

Lemma bn_compare_trichotomy_witness :
  let a := bn_read_uint32 5 in
  let b := bn_read_uint32 7 in
  normalized a /\ normalized b /\
  ((bn_is_less a b = true /\ bn_is_equal a b = false /\ bn_is_less b a = false) \/
   (bn_is_less a b = false /\ bn_is_equal a b = true /\ bn_is_less b a = false) \/
   (bn_is_less a b = false /\ bn_is_equal a b = false /\ bn_is_less b a = true)).
Proof.
  cbv zeta.
  assert (Ha : normalized (bn_read_uint32 5)) by limbs_ok.
  assert (Hb : normalized (bn_read_uint32 7)) by limbs_ok.
  split; [exact Ha|]. split; [exact Hb|].
  exact (bn_compare_trichotomy _ _ Ha Hb).
Defined.

Lemma bn_format_scenarios_witness :
  let out := repeat "x"%char 16 in
  length out = 16%nat /\
  (exists out',
      bn_format (bn_read_uint32 0) None None 0 0 false out = Some (Ok (1%nat, out'))
      /\ c_string out' = ["0"]%char) /\
  (exists out',
      bn_format (bn_read_uint32 100000000) None None 8 0 false out
        = Some (Ok (3%nat, out'))
      /\ c_string out' = ["1"; "."; "0"]%char) /\
  (exists out',
      bn_format (bn_read_uint32 100000000) None None 8 0 true out
        = Some (Ok (10%nat, out'))
      /\ c_string out' = ["1"; "."; "0"; "0"; "0"; "0"; "0"; "0"; "0"; "0"]%char).
Proof.
  cbv zeta. split; [reflexivity|].
  exact (bn_format_scenarios (repeat "x"%char 16) eq_refl).
Defined.


Lemma bn_subtract_wraps_witness :
  let a := bn_read_uint32 5 in
  let b := bn_read_uint32 7 in
  normalized a /\ normalized b /\
  normalized (bn_subtract a b) /\
  value (bn_subtract a b) = (value a - value b) mod 2^270 /\
  (value b <= value a -> value (bn_subtract a b) = value a - value b).
Proof.
  cbv zeta.
  assert (Ha : normalized (bn_read_uint32 5)) by limbs_ok.
  assert (Hb : normalized (bn_read_uint32 7)) by limbs_ok.
  split; [exact Ha|]. split; [exact Hb|].
  exact (bn_subtract_wraps _ _ Ha Hb).
Defined.

(** * Further properties of the code *)

(** ** Zero test *)

Lemma value_zero_iff a :
  Forall is_limb a -> (value a = 0 <-> Forall (fun x => x = 0) a).
Proof.
  induction 1 as [|x t Hx Ht IH]; cbn [value].
  - split; auto.
  - pose proof (value_nonneg t Ht). unfold is_limb in Hx. split.
    + intros E. assert (x = 0) by lia. assert (value t = 0) by lia.
      constructor; [assumption|]. apply IH. assumption.
    + intros F. inversion F as [|? ? E0 Ft]; subst.
      apply IH in Ft. lia.
Qed.

(** X1: [bn_is_zero] decides whether the represented number is zero. *)
Theorem bn_is_zero_value a :
  normalized a -> bn_is_zero a = (value a =? 0).
Proof.
  intros [L F]. rewrite bn_is_zero_acc by assumption.
  apply eq_true_iff_eq. unfold lnot. rewrite !Z.eqb_eq.
  rewrite or_acc_zero, value_zero_iff by assumption. tauto.
Qed.

(** ** Carry chains *)

Lemma carry_step tmp t :
  0 <= tmp -> 0 <= t -> tmp + t < 2^32 ->
  let s := add32 tmp t in
  0 <= shr s 30 <= 3 /\ is_limb (Z.land s 0x3FFFFFFF) /\
  Z.land s 0x3FFFFFFF + 2^30 * shr s 30 = tmp + t.
Proof.
  intros Ht0 Ht Hs s.
  assert (E : s = tmp + t) by (unfold s, add32, wrap32; apply Z.mod_small; lia).
  rewrite land_mask, shr_div by lia. unfold is_limb.
  pose proof (Z.mod_pos_bound s (2^30) ltac:(lia)).
  pose proof (Z.div_mod s (2^30) ltac:(lia)).
  assert (0 <= s / 2^30 <= 3).
  { split; [apply Z.div_pos; lia|].
    apply Z.lt_succ_r. apply Z.div_lt_upper_bound; lia. }
  repeat split; lia.
Qed.

Lemma carry_chain_small terms : forall tmp,
  0 <= tmp <= 3 -> Forall small_term terms ->
  Forall is_limb (carry_chain tmp terms) /\
  length (carry_chain tmp terms) = length terms /\
  exists c, 0 <= c <= 3 /\
    value (carry_chain tmp terms) + 2^(30 * Z.of_nat (length terms)) * c
    = tmp + value terms.
Proof.
  induction terms as [|t ts IH]; intros tmp Ht F.
  - cbn [carry_chain value length]. repeat split; auto.
    exists tmp. split; [assumption|].
    change (30 * Z.of_nat 0) with 0. rewrite Z.pow_0_r. lia.
  - inversion F as [|? ? Hs F']; subst. unfold small_term in Hs.
    cbn [carry_chain].
    destruct (carry_step tmp t ltac:(lia) ltac:(lia) ltac:(lia)) as (Hc & Hl & E).
    set (s := add32 tmp t) in *.
    destruct (IH (shr s 30) Hc F') as (Fl & Len & c & Hc' & E').
    split; [constructor; assumption|].
    split; [simpl; lia|].
    exists c. split; [assumption|].
    cbn [value length].
    replace (30 * Z.of_nat (S (length ts))) with (30 + 30 * Z.of_nat (length ts)) by lia.
    rewrite Z.pow_add_r by lia.
    set (P := 2 ^ (30 * Z.of_nat (length ts))) in *.
    lia.
Qed.

(** The first term may come with any carry-in that does not overflow. *)
Lemma carry_chain_spec tmp t ts :
  0 <= tmp -> 0 <= t -> tmp + t < 2^32 -> Forall small_term ts ->
  Forall is_limb (carry_chain tmp (t :: ts)) /\
  length (carry_chain tmp (t :: ts)) = S (length ts) /\
  value (carry_chain tmp (t :: ts))
  = (tmp + value (t :: ts)) mod 2^(30 * Z.of_nat (S (length ts))).
Proof.
  intros Ht0 Ht Hs F. cbn [carry_chain].
  destruct (carry_step tmp t Ht0 Ht Hs) as (Hc & Hl & E).
  set (s := add32 tmp t) in *.
  destruct (carry_chain_small ts (shr s 30) Hc F) as (Fl & Len & c & Hc' & E').
  split; [constructor; assumption|].
  split; [simpl; lia|].
  pose proof (value_bounds _ Fl) as B. rewrite Len in B.
  cbn [value].
  replace (30 * Z.of_nat (S (length ts))) with (30 + 30 * Z.of_nat (length ts)) by lia.
  rewrite Z.pow_add_r by lia.
  set (P := 2 ^ (30 * Z.of_nat (length ts))) in *.
  unfold is_limb in Hl.
  apply Z.mod_unique with (q := c); [left; nia | lia].
Qed.

Lemma value_zip_add a : forall b,
  length a = length b -> value (zip_with Z.add a b) = value a + value b.
Proof.
  induction a as [|x a IH]; intros [|y b] L; try discriminate; cbn [zip_with value].
  - reflexivity.
  - rewrite IH by (simpl in L; lia). lia.
Qed.

Lemma zip_add32_small a : forall b,
  Forall is_limb a -> Forall is_limb b ->
  zip_with add32 a b = zip_with Z.add a b /\
  Forall (fun t => 0 <= t < 2^31) (zip_with Z.add a b).
Proof.
  induction a as [|x a IH]; intros [|y b] Ha Hb; cbn [zip_with]; auto.
  inversion Ha as [|? ? Hx Ha']; inversion Hb as [|? ? Hy Hb']; subst.
  destruct (IH b Ha' Hb') as [E F]. unfold is_limb in *.
  split.
  - rewrite E. f_equal. unfold add32, wrap32. apply Z.mod_small. lia.
  - constructor; [lia|assumption].
Qed.

Lemma limb_small a : Forall is_limb a -> Forall small_term a.
Proof.
  intros F. eapply Forall_impl; [|exact F].
  unfold is_limb, small_term. intros; lia.
Qed.

Lemma lt31_small a : Forall (fun t => 0 <= t < 2^31) a -> Forall small_term a.
Proof.
  intros F. eapply Forall_impl; [|exact F].
  unfold small_term. intros; lia.
Qed.

(** ** Addition *)

Lemma bn_add_chain a b :
  length a = 9%nat -> length b = 9%nat ->
  bn_add a b = carry_chain 0 (zip_with add32 a b).
Proof. nine a. nine b. reflexivity. Qed.

Lemma bn_addi_chain a b :
  length a = 9%nat -> bn_addi a b = carry_chain b a.
Proof. nine a. reflexivity. Qed.

(** X2: [bn_add] on normalized operands: the sum, normalized, modulo 2^270. *)
Theorem bn_add_value a b :
  normalized a -> normalized b ->
  normalized (bn_add a b) /\
  value (bn_add a b) = (value a + value b) mod 2^270 /\
  (value a + value b < 2^270 -> value (bn_add a b) = value a + value b).
Proof.
  intros [La Fa] [Lb Fb]. rewrite bn_add_chain by assumption.
  destruct (zip_add32_small a b Fa Fb) as [E F]. rewrite E.
  pose proof (value_zip_add a b ltac:(congruence)) as V.
  assert (Lz : length (zip_with Z.add a b) = 9%nat).
  { revert La Lb. nine a. nine b. reflexivity. }
  destruct (zip_with Z.add a b) as [|t ts]; [discriminate|].
  inversion F as [|? ? Ht Fts]; subst.
  destruct (carry_chain_spec 0 t ts ltac:(lia) ltac:(lia) ltac:(lia)
              (lt31_small _ Fts)) as (Fl & Len & Ev).
  simpl in Lz. injection Lz as Lz. rewrite Lz in *.
  change (30 * Z.of_nat 9) with 270 in Ev.
  rewrite Z.add_0_l, V in Ev.
  split; [split; assumption|]. split; [assumption|].
  intros Hlt. rewrite Ev. apply Z.mod_small.
  pose proof (value_nonneg a Fa). pose proof (value_nonneg b Fb). lia.
Qed.

Lemma bn_addi_spec a b :
  normalized a -> 0 <= b -> b + get a 0 < 2^32 ->
  normalized (bn_addi a b) /\
  value (bn_addi a b) = (value a + b) mod 2^270.
Proof.
  intros [La Fa] Hb Hs. rewrite bn_addi_chain by assumption.
  destruct a as [|t ts]; [discriminate|].
  inversion Fa as [|? ? Ht Fts]; subst. cbn [get nth] in Hs.
  unfold is_limb in Ht.
  destruct (carry_chain_spec b t ts Hb ltac:(lia) Hs (limb_small _ Fts))
    as (Fl & Len & Ev).
  simpl in La. injection La as La. rewrite La in *.
  change (30 * Z.of_nat 9) with 270 in Ev.
  rewrite Z.add_comm in Ev.
  split; [split; assumption|assumption].
Qed.

(** X3: [bn_addi]: adding a 32-bit number to a normalized one. *)
Theorem bn_addi_value a b :
  normalized a -> 0 <= b -> b + get a 0 < 2^32 ->
  normalized (bn_addi a b) /\
  value (bn_addi a b) = (value a + b) mod 2^270 /\
  (value a + b < 2^270 -> value (bn_addi a b) = value a + b).
Proof.
  intros Na Hb Hs. destruct (bn_addi_spec a b Na Hb Hs) as [N V].
  split; [assumption|]. split; [assumption|].
  intros Hlt. rewrite V. apply Z.mod_small.
  pose proof (value_normalized a Na). lia.
Qed.

(** X4: [bn_normalize] carries limbs of up to 32 bits into normalized form
    without changing the number (modulo 2^270). *)
Theorem bn_normalize_value a :
  length a = 9%nat -> Forall small_term a ->
  normalized (bn_normalize a) /\
  value (bn_normalize a) = value a mod 2^270.
Proof.
  intros La Fa. unfold bn_normalize. rewrite bn_addi_chain by assumption.
  destruct a as [|t ts]; [discriminate|].
  inversion Fa as [|? ? Ht Fts]; subst. unfold small_term in Ht.
  destruct (carry_chain_spec 0 t ts ltac:(lia) ltac:(lia) ltac:(lia) Fts)
    as (Fl & Len & Ev).
  simpl in La. injection La as La. rewrite La in *.
  change (30 * Z.of_nat 9) with 270 in Ev.
  rewrite Z.add_0_l in Ev.
  split; [split; assumption|assumption].
Qed.

(** X5: [bn_subi]: [a - b + prime] for a small [b <= prime->val[0]]. *)
Theorem bn_subi_value a b prime :
  normalized a -> normalized prime -> 0 <= b <= get prime 0 ->
  normalized (bn_subi a b prime) /\
  value (bn_subi a b prime) = (value a - b + value prime) mod 2^270.
Proof.
  intros [La Fa] [Lp Fp] Hb. unfold bn_subi.
  destruct a as [|x a]; [discriminate|].
  destruct prime as [|q p]; [discriminate|].
  cbn [get nth upd] in *.
  rewrite bn_add_chain by assumption.
  inversion Fa as [|? ? Hx Fa']; inversion Fp as [|? ? Hq Fp']; subst.
  cbn [zip_with].
  destruct (zip_add32_small a p Fa' Fp') as [E F]. rewrite E.
  unfold is_limb in Hx, Hq.
  assert (E0 : add32 (sub32 x b) q = x - b + q).
  { unfold add32, sub32, wrap32. rewrite Z.add_mod_idemp_l by lia.
    apply Z.mod_small. lia. }
  rewrite E0.
  destruct (carry_chain_spec 0 (x - b + q) (zip_with Z.add a p)
              ltac:(lia) ltac:(lia) ltac:(lia) (lt31_small _ F))
    as (Fl & Len & Ev).
  assert (Lz : length (zip_with Z.add a p) = 8%nat).
  { clear - La Lp. simpl in La, Lp.
    do 8 (destruct a as [|? a]; [discriminate|]); destruct a; [|discriminate].
    do 8 (destruct p as [|? p]; [discriminate|]); destruct p; [|discriminate].
    reflexivity. }
  rewrite Lz in *. change (30 * Z.of_nat 9) with 270 in Ev.
  split; [split; assumption|].
  rewrite Ev. f_equal. cbn [value].
  rewrite value_zip_add by (simpl in La, Lp; congruence). lia.
Qed.

(** ** Modular subtraction *)

Lemma bn_subtractmod_chain a b prime :
  length a = 9%nat -> length b = 9%nat -> length prime = 9%nat ->
  bn_subtractmod a b prime = carry_chain 1 (submod_terms a prime b).
Proof. nine a. nine b. nine prime. reflexivity. Qed.

Lemma submod_terms_spec a : forall p b,
  Forall is_limb a -> Forall is_limb p -> Forall is_limb b ->
  length a = length p -> length a = length b ->
  Forall small_term (submod_terms a p b) /\
  length (submod_terms a p b) = length a /\
  value (submod_terms a p b)
  = (2^(30 * Z.of_nat (length a)) - 1) + value a + 2 * value p - value b.
Proof.
  induction a as [|x a IH]; intros [|q p] [|y b] Ha Hp Hb Lp Lb;
    try discriminate; cbn [submod_terms value length].
  - repeat split; auto. 
  - inversion Ha as [|? ? Hx Ha']; inversion Hp as [|? ? Hq Hp'];
      inversion Hb as [|? ? Hy Hb']; subst.
    destruct (IH p b Ha' Hp' Hb' ltac:(simpl in Lp; lia) ltac:(simpl in Lb; lia))
      as (F & Len & V).
    unfold is_limb in *.
    assert (E : sub32 (add32 (add32 0x3FFFFFFF x) (mul32 2 q)) y
                = 0x3FFFFFFF + x + 2 * q - y).
    { unfold sub32, add32, mul32, wrap32.
      rewrite (Z.mod_small (0x3FFFFFFF + x)) by lia.
      rewrite (Z.mod_small (2 * q)) by lia.
      rewrite (Z.mod_small (0x3FFFFFFF + x + 2 * q)) by lia.
      apply Z.mod_small. lia. }
    rewrite E.
    split; [constructor; [unfold small_term; lia|assumption]|].
    split; [simpl; lia|].
    rewrite V.
    replace (30 * Z.of_nat (S (length a))) with (30 + 30 * Z.of_nat (length a)) by lia.
    rewrite Z.pow_add_r by lia.
    set (P := 2 ^ (30 * Z.of_nat (length a))) in *.
    lia.
Qed.

(** X6: [bn_subtractmod]: [a + 2 * prime - b], normalized; exact whenever
    [b <= a + 2 * prime] and the result fits in nine limbs. *)
Theorem bn_subtractmod_value a b prime :
  normalized a -> normalized b -> normalized prime ->
  normalized (bn_subtractmod a b prime) /\
  value (bn_subtractmod a b prime)
  = (value a + 2 * value prime - value b) mod 2^270 /\
  (value b <= value a + 2 * value prime < 2^270 ->
   value (bn_subtractmod a b prime) = value a + 2 * value prime - value b).
Proof.
  intros [La Fa] [Lb Fb] [Lp Fp].
  rewrite bn_subtractmod_chain by assumption.
  destruct (submod_terms_spec a prime b Fa Fp Fb ltac:(congruence) ltac:(congruence))
    as (F & Len & V).
  rewrite La in *. change (30 * Z.of_nat 9) with 270 in V.
  destruct (submod_terms a prime b) as [|t ts]; [discriminate|].
  inversion F as [|? ? Ht Fts]; subst. unfold small_term in Ht.
  destruct (carry_chain_spec 1 t ts ltac:(lia) ltac:(lia) ltac:(lia) Fts)
    as (Fl & Len' & Ev).
  simpl in Len. injection Len as Len. rewrite Len in *.
  change (30 * Z.of_nat 9) with 270 in Ev.
  assert (Ev' : value (carry_chain 1 (t :: ts))
                = (value a + 2 * value prime - value b) mod 2^270).
  { rewrite Ev, V.
    replace (1 + (2 ^ 270 - 1 + value a + 2 * value prime - value b))
      with (value a + 2 * value prime - value b + 1 * 2^270) by lia.
    apply Z.mod_add. lia. }
  split; [split; assumption|]. split; [assumption|].
  intros H. rewrite Ev'. apply Z.mod_small.
  pose proof (value_nonneg b Fb). lia.
Qed.

(** ** Modular addition and multiplication by a small constant *)

Lemma bn_addmod_zip a b prime :
  length a = 9%nat -> length b = 9%nat ->
  bn_addmod a b prime = bn_fast_mod (zip_with add32 a b) prime.
Proof. nine a. nine b. reflexivity. Qed.

Lemma bn_mult_k_map x k prime :
  length x = 9%nat -> bn_mult_k x k prime = bn_fast_mod (map (mul32 k) x) prime.
Proof. nine x. reflexivity. Qed.

Lemma value_map_mul k x : value (map (Z.mul k) x) = k * value x.
Proof. induction x as [|y x IH]; cbn [map value]; [lia|]. rewrite IH. lia. Qed.

Lemma map_mul32_small k x :
  0 <= k <= 4 -> Forall is_limb x ->
  map (mul32 k) x = map (Z.mul k) x /\ Forall is_u32 (map (Z.mul k) x).
Proof.
  intros Hk. induction 1 as [|y x Hy Hx [E F]]; cbn [map]; [auto|].
  unfold is_limb in Hy.
  split.
  - rewrite E. f_equal. unfold mul32, wrap32. apply Z.mod_small. nia.
  - constructor; [unfold is_u32; nia|assumption].
Qed.

Lemma mod_sub_multiple v c p : (v - c * p) mod p = v mod p.
Proof.
  replace (v - c * p) with (v + (- c) * p) by lia. apply Z_mod_plus_full.
Qed.

(** X7: [bn_addmod] on normalized operands: partly reduced and congruent to the
    sum. *)
Theorem bn_addmod_value a b prime :
  normalized a -> normalized b -> wf prime -> in_band (value prime) ->
  normalized (bn_addmod a b prime) /\
  value (bn_addmod a b prime) < 2 * value prime /\
  value (bn_addmod a b prime) mod value prime
  = (value a + value b) mod value prime.
Proof.
  intros [La Fa] [Lb Fb] Wp Band.
  rewrite bn_addmod_zip by assumption.
  destruct (zip_add32_small a b Fa Fb) as [E F]. rewrite E.
  assert (W : wf (zip_with Z.add a b)).
  { split.
    - revert La Lb. nine a. nine b. reflexivity.
    - eapply Forall_impl; [|exact F]. unfold is_u32. intros; lia. }
  destruct (bn_fast_mod_value _ _ W Wp Band) as (N & V & B).
  split; [assumption|]. split; [assumption|].
  rewrite V, mod_sub_multiple, value_zip_add by congruence. reflexivity.
Qed.

(** X8: [bn_mult_k] for [0 <= k <= 4]: partly reduced and congruent to [k * x]. *)
Theorem bn_mult_k_value x k prime :
  normalized x -> 0 <= k <= 4 -> wf prime -> in_band (value prime) ->
  normalized (bn_mult_k x k prime) /\
  value (bn_mult_k x k prime) < 2 * value prime /\
  value (bn_mult_k x k prime) mod value prime
  = (k * value x) mod value prime.
Proof.
  intros [Lx Fx] Hk Wp Band.
  rewrite bn_mult_k_map by assumption.
  destruct (map_mul32_small k x Hk Fx) as [E F]. rewrite E.
  assert (W : wf (map (Z.mul k) x)).
  { split; [rewrite length_map; assumption|assumption]. }
  destruct (bn_fast_mod_value _ _ W Wp Band) as (N & V & B).
  split; [assumption|]. split; [assumption|].
  rewrite V, mod_sub_multiple, value_map_mul. reflexivity.
Qed.

(** ** Shifts *)

Lemma lor_disjoint a b k :
  0 <= k -> 0 <= a < 2^k -> Z.lor a (b * 2^k) = a + b * 2^k.
Proof.
  intros Hk Ha.
  assert (D : Z.land a (b * 2^k) = 0).
  { apply Z.bits_inj'. intros n Hn. rewrite Z.land_spec, Z.bits_0.
    destruct (Z.ltb_spec n k).
    - rewrite Z.mul_pow2_bits_low by lia. apply andb_false_r.
    - replace a with (a mod 2^k) by (apply Z.mod_small; lia).
      rewrite Z.mod_pow2_bits_high by lia. reflexivity. }
  rewrite <- Z.lxor_lor, <- Z.add_nocarry_lxor by assumption. reflexivity.
Qed.

Lemma land_pow2 a k :
  0 <= k -> Z.land a (2^k) = if Z.testbit a k then 2^k else 0.
Proof.
  intros Hk. apply Z.bits_inj'. intros n Hn.
  rewrite Z.land_spec, Z.pow2_bits_eqb by lia.
  destruct (Z.eqb_spec k n) as [->|Hne].
  - destruct (Z.testbit a n); [|rewrite Z.bits_0; reflexivity].
    rewrite Z.pow2_bits_eqb, Z.eqb_refl by lia. reflexivity.
  - rewrite andb_false_r.
    destruct (Z.testbit a k); [|rewrite Z.bits_0; reflexivity].
    rewrite Z.pow2_bits_eqb by lia. symmetry. apply Z.eqb_neq. assumption.
Qed.

Lemma top_bit x :
  is_limb x -> shr (Z.land x 0x20000000) 29 = x / 2^29.
Proof.
  unfold is_limb. intros Hx.
  change 0x20000000 with (2^29). rewrite land_pow2 by lia.
  assert (Hq : 0 <= x / 2^29 <= 1).
  { split; [apply Z.div_pos; lia|].
    apply Z.lt_succ_r. apply Z.div_lt_upper_bound; lia. }
  destruct (Z.testbit x 29) eqn:T.
  - apply Z.testbit_true in T; [|lia].
    rewrite Z.mod_small in T by lia. rewrite T. reflexivity.
  - apply Z.testbit_false in T; [|lia].
    rewrite Z.mod_small in T by lia. rewrite T. reflexivity.
Qed.

Lemma low_bits_shifted x :
  is_limb x -> Z.land (shl32 x 1) 0x3FFFFFFF = (x mod 2^29) * 2^1.
Proof.
  unfold is_limb. intros Hx. rewrite land_mask.
  unfold shl32, wrap32. rewrite Z.shiftl_mul_pow2 by lia.
  rewrite (Z.mod_small (x * 2^1)) by lia.
  change (2^30) with (2^29 * 2^1).
  rewrite Z.mul_mod_distr_r by lia. reflexivity.
Qed.

Lemma lshift_limb prev x :
  is_limb prev -> is_limb x ->
  Z.lor (Z.land (shl32 x 1) 0x3FFFFFFF) (shr (Z.land prev 0x20000000) 29)
  = 2 * (x mod 2^29) + prev / 2^29.
Proof.
  intros Hp Hx. rewrite top_bit, low_bits_shifted by assumption.
  unfold is_limb in Hp.
  assert (Hq : 0 <= prev / 2^29 <= 1).
  { split; [apply Z.div_pos; lia|].
    apply Z.lt_succ_r. apply Z.div_lt_upper_bound; lia. }
  rewrite Z.lor_comm, lor_disjoint by lia. lia.
Qed.

Lemma lshift_chain_spec a : forall prev,
  is_limb prev -> Forall is_limb a ->
  Forall is_limb (lshift_chain prev a) /\
  length (lshift_chain prev a) = length a /\
  exists c, 0 <= c <= 1 /\
    value (lshift_chain prev a) + 2^(30 * Z.of_nat (length a)) * c
    = prev / 2^29 + 2 * value a.
Proof.
  induction a as [|x a IH]; intros prev Hp Ha.
  - cbn [lshift_chain value length]. repeat split; auto.
    unfold is_limb in Hp.
    exists (prev / 2^29). split.
    + split; [apply Z.div_pos; lia|].
      apply Z.lt_succ_r. apply Z.div_lt_upper_bound; lia.
    + change (30 * Z.of_nat 0) with 0. rewrite Z.pow_0_r. lia.
  - inversion Ha as [|? ? Hx Ha']; subst.
    cbn [lshift_chain]. rewrite lshift_limb by assumption.
    destruct (IH x Hx Ha') as (F & Len & c & Hc & E).
    unfold is_limb in Hp, Hx.
    assert (Hq : 0 <= prev / 2^29 <= 1).
    { split; [apply Z.div_pos; lia|].
      apply Z.lt_succ_r. apply Z.div_lt_upper_bound; lia. }
    pose proof (Z.mod_pos_bound x (2^29) ltac:(lia)).
    pose proof (Z.div_mod x (2^29) ltac:(lia)).
    split; [constructor; [unfold is_limb; lia|assumption]|].
    split; [simpl; lia|].
    exists c. split; [assumption|].
    cbn [value length].
    replace (30 * Z.of_nat (S (length a))) with (30 + 30 * Z.of_nat (length a)) by lia.
    rewrite Z.pow_add_r by lia.
    set (P := 2 ^ (30 * Z.of_nat (length a))) in *.
    lia.
Qed.

Lemma bn_lshift_chain a :
  length a = 9%nat ->
  bn_lshift a
  = Z.land (shl32 (get a 0) 1) 0x3FFFFFFF :: lshift_chain (get a 0) (tl a).
Proof. nine a. reflexivity. Qed.

(** X9: [bn_lshift] doubles a normalized number (modulo 2^270). *)
Theorem bn_lshift_value a :
  normalized a ->
  normalized (bn_lshift a) /\
  value (bn_lshift a) = (2 * value a) mod 2^270 /\
  (value a < 2^269 -> value (bn_lshift a) = 2 * value a).
Proof.
  intros [La Fa]. rewrite bn_lshift_chain by assumption.
  destruct a as [|x a]; [discriminate|].
  inversion Fa as [|? ? Hx Fa']; subst. cbn [get nth tl].
  rewrite low_bits_shifted by assumption.
  destruct (lshift_chain_spec a x Hx Fa') as (F & Len & c & Hc & E).
  simpl in La. injection La as La. rewrite La in *.
  change (30 * Z.of_nat 8) with 240 in E.
  pose proof Hx as Hx'. unfold is_limb in Hx'.
  pose proof (Z.mod_pos_bound x (2^29) ltac:(lia)).
  pose proof (Z.div_mod x (2^29) ltac:(lia)).
  assert (N : Forall is_limb (x mod 2^29 * 2^1 :: lshift_chain x a)).
  { constructor; [unfold is_limb; lia|assumption]. }
  assert (V : value (x mod 2^29 * 2^1 :: lshift_chain x a)
              = (2 * value (x :: a)) mod 2^270).
  { cbn [value]. apply Z.mod_unique with (q := c).
    - left. pose proof (value_bounds _ F) as B. rewrite Len in B.
      change (30 * Z.of_nat 8) with 240 in B. lia.
    - lia. }
  split; [split; [simpl; lia|assumption]|].
  split; [assumption|].
  intros Hlt. rewrite V. apply Z.mod_small.
  pose proof (value_nonneg _ Fa). lia.
Qed.

Lemma rshift_limb x y :
  is_limb x -> is_limb y ->
  Z.lor (shr x 1) (shl32 (Z.land y 1) 29) = x / 2 + 2^29 * (y mod 2).
Proof.
  unfold is_limb. intros Hx Hy.
  rewrite shr_div by lia. change (2^1) with 2.
  change 1 with (Z.ones 1) at 1. rewrite Z.land_ones by lia.
  change (2^1) with 2.
  pose proof (Z.mod_pos_bound y 2 ltac:(lia)).
  unfold shl32, wrap32. rewrite Z.shiftl_mul_pow2 by lia.
  rewrite (Z.mod_small (y mod 2 * 2^29)) by lia.
  assert (0 <= x / 2 < 2^29).
  { split; [apply Z.div_pos; lia|]. apply Z.div_lt_upper_bound; lia. }
  rewrite lor_disjoint by lia. lia.
Qed.

Lemma half_cons y v : (y + 2^30 * v) / 2 = y / 2 + 2^29 * v.
Proof.
  replace (y + 2^30 * v) with (y + (2^29 * v) * 2) by lia.
  apply Z.div_add. lia.
Qed.

Lemma rshift_chain_spec t : forall x,
  is_limb x -> Forall is_limb t ->
  Forall is_limb (rshift_chain x t) /\
  length (rshift_chain x t) = S (length t) /\
  value (rshift_chain x t) = value (x :: t) / 2.
Proof.
  induction t as [|y t IH]; intros x Hx Ht.
  - cbn [rshift_chain value length]. rewrite shr_div by lia.
    change (2^1) with 2. unfold is_limb in *.
    assert (0 <= x / 2 < 2^29).
    { split; [apply Z.div_pos; lia|]. apply Z.div_lt_upper_bound; lia. }
    split; [constructor; [lia|constructor]|]. split; [reflexivity|].
    rewrite Z.mul_0_r, !Z.add_0_r. reflexivity.
  - inversion Ht as [|? ? Hy Ht']; subst.
    cbn [rshift_chain]. rewrite rshift_limb by assumption.
    destruct (IH y Hy Ht') as (F & Len & V).
    unfold is_limb in Hx, Hy.
    pose proof (Z.mod_pos_bound y 2 ltac:(lia)).
    pose proof (Z.div_mod y 2 ltac:(lia)).
    assert (0 <= x / 2 < 2^29).
    { split; [apply Z.div_pos; lia|]. apply Z.div_lt_upper_bound; lia. }
    split; [constructor; [unfold is_limb; lia|assumption]|].
    split; [simpl; lia|].
    cbn [value] in *. rewrite V, !half_cons. lia.
Qed.

Lemma bn_rshift_chain a :
  length a = 9%nat -> bn_rshift a = rshift_chain (get a 0) (tl a).
Proof. nine a. reflexivity. Qed.

Lemma bn_rshift_spec a :
  normalized a ->
  normalized (bn_rshift a) /\ value (bn_rshift a) = value a / 2.
Proof.
  intros [La Fa]. rewrite bn_rshift_chain by assumption.
  destruct a as [|x a]; [discriminate|].
  inversion Fa as [|? ? Hx Fa']; subst. cbn [get nth tl].
  destruct (rshift_chain_spec a x Hx Fa') as (F & Len & V).
  split; [split; [simpl in La; lia|assumption]|assumption].
Qed.

(** X10: [bn_rshift] halves a normalized number, rounding down; [bn_lshift]
    undoes it up to the lost bit. *)
Theorem bn_rshift_value a :
  normalized a ->
  normalized (bn_rshift a) /\ value (bn_rshift a) = value a / 2 /\
  value (bn_lshift (bn_rshift a)) = value a - value a mod 2.
Proof.
  intros Na. destruct (bn_rshift_spec a Na) as [N V].
  split; [assumption|]. split; [assumption|].
  pose proof (value_normalized a Na) as B.
  destruct (bn_lshift_value _ N) as (_ & _ & E).
  rewrite E.
  - rewrite V. pose proof (Z.div_mod (value a) 2 ltac:(lia)). lia.
  - rewrite V. apply Z.div_lt_upper_bound; lia.
Qed.

(** ** Halving modulo the prime *)

Lemma bn_mult_half_chain x prime :
  length x = 9%nat -> length prime = 9%nat ->
  bn_mult_half x prime
  = let ys := half_terms (neg32 (Z.land (get x 0) 1)) x prime in
    half_chain (shr (hd 0 ys) 1) (tl ys).
Proof. nine x. nine prime. reflexivity. Qed.

Lemma land_one x : Z.land x 1 = x mod 2.
Proof. change 1 with (Z.ones 1). rewrite Z.land_ones by lia. reflexivity. Qed.

Lemma xodd_mask x :
  neg32 (Z.land x 1) = if Z.odd x then Z.ones 32 else 0.
Proof.
  rewrite land_one, Zmod_odd. destruct (Z.odd x); reflexivity.
Qed.

Lemma half_terms_spec (odd : bool) x : forall p,
  Forall is_limb x -> Forall is_limb p -> length x = length p ->
  let ys := half_terms (if odd then Z.ones 32 else 0) x p in
  Forall (fun t => 0 <= t < 2^31) ys /\ length ys = length x /\
  value ys = value x + (if odd then value p else 0).
Proof.
  induction x as [|a x IH]; intros [|q p] Hx Hp L; try discriminate;
    cbn [half_terms value length].
  - repeat split; auto. destruct odd; reflexivity.
  - inversion Hx as [|? ? Ha Hx']; inversion Hp as [|? ? Hq Hp']; subst.
    destruct (IH p Hx' Hp' ltac:(simpl in L; lia)) as (F & Len & V).
    unfold is_limb in Ha, Hq.
    assert (E : add32 a (Z.land q (if odd then Z.ones 32 else 0))
                = a + (if odd then q else 0)).
    { destruct odd.
      - rewrite Z.land_ones, (Z.mod_small q) by lia.
        unfold add32, wrap32. apply Z.mod_small. lia.
      - rewrite Z.land_0_r. unfold add32, wrap32. apply Z.mod_small. lia. }
    rewrite E.
    split; [constructor; [destruct odd; lia|assumption]|].
    split; [simpl; lia|].
    cbv zeta in V. rewrite V. destruct odd; lia.
Qed.

Lemma half_step tmp1 tmp2 :
  0 <= tmp1 <= 2^30 -> 0 <= tmp2 < 2^31 ->
  let t := add32 tmp1 (shl32 (Z.land tmp2 1) 29) in
  let n := add32 (shr t 30) (shr tmp2 1) in
  is_limb (Z.land t 0x3fffffff) /\ 0 <= n <= 2^30 /\
  Z.land t 0x3fffffff + 2^30 * n = tmp1 + 2^29 * tmp2.
Proof.
  intros H1 H2 t n.
  pose proof (Z.mod_pos_bound tmp2 2 ltac:(lia)) as Hb.
  pose proof (Z.div_mod tmp2 2 ltac:(lia)) as Hd.
  assert (Et : t = tmp1 + 2^29 * (tmp2 mod 2)).
  { unfold t. rewrite land_one. unfold shl32, add32, wrap32.
    rewrite Z.shiftl_mul_pow2 by lia.
    rewrite (Z.mod_small (tmp2 mod 2 * 2^29)) by lia.
    rewrite Z.mod_small by lia. lia. }
  assert (Hq : 0 <= t / 2^30 <= 1).
  { split; [apply Z.div_pos; lia|].
    apply Z.lt_succ_r. apply Z.div_lt_upper_bound; lia. }
  assert (Hh : 0 <= tmp2 / 2 < 2^30).
  { split; [apply Z.div_pos; lia|]. apply Z.div_lt_upper_bound; lia. }
  assert (En : n = t / 2^30 + tmp2 / 2).
  { unfold n. rewrite !shr_div by lia. change (2^1) with 2.
    unfold add32, wrap32. apply Z.mod_small. lia. }
  rewrite land_mask. unfold is_limb.
  pose proof (Z.mod_pos_bound t (2^30) ltac:(lia)).
  pose proof (Z.div_mod t (2^30) ltac:(lia)).
  repeat split; lia.
Qed.

Lemma half_chain_spec terms : forall tmp1,
  0 <= tmp1 <= 2^30 -> Forall (fun t => 0 <= t < 2^31) terms ->
  exists l c,
    half_chain tmp1 terms = l ++ [c] /\ Forall is_limb l /\
    length l = length terms /\ 0 <= c /\
    value l + 2^(30 * Z.of_nat (length terms)) * c = tmp1 + 2^29 * value terms.
Proof.
  induction terms as [|t ts IH]; intros tmp1 H1 F.
  - exists [], tmp1. cbn [half_chain app value length].
    change (30 * Z.of_nat 0) with 0. rewrite Z.pow_0_r.
    repeat split; auto; lia.
  - inversion F as [|? ? Ht F']; subst. cbn [half_chain].
    destruct (half_step tmp1 t H1 Ht) as (Hl & Hn & E).
    set (s := add32 tmp1 (shl32 (Z.land t 1) 29)) in *.
    set (n := add32 (shr s 30) (shr t 1)) in *.
    destruct (IH n Hn F') as (l & c & El & Fl & Len & Hc & V).
    exists (Z.land s 0x3fffffff :: l), c.
    rewrite El. split; [reflexivity|].
    split; [constructor; assumption|].
    split; [simpl; lia|]. split; [assumption|].
    cbn [value length].
    replace (30 * Z.of_nat (S (length ts))) with (30 + 30 * Z.of_nat (length ts)) by lia.
    rewrite Z.pow_add_r by lia.
    set (P := 2 ^ (30 * Z.of_nat (length ts))) in *.
    lia.
Qed.

Lemma value_odd x t : Z.odd (value (x :: t)) = Z.odd x.
Proof.
  cbn [value]. replace (2^30 * value t) with (2 * (2^29 * value t)) by lia.
  rewrite Z.odd_add_mul_2. reflexivity.
Qed.

Lemma bn_mult_half_exact x prime :
  normalized x -> normalized prime ->
  normalized (bn_mult_half x prime) /\
  value (bn_mult_half x prime)
  = (value x + (if Z.odd (value x) then value prime else 0)) / 2.
Proof.
  intros [Lx Fx] [Lp Fp].
  rewrite bn_mult_half_chain by assumption. cbv zeta.
  destruct x as [|x0 x]; [discriminate|].
  destruct prime as [|p0 p]; [discriminate|].
  rewrite value_odd. cbn [get nth]. rewrite xodd_mask.
  destruct (half_terms_spec (Z.odd x0) (x0 :: x) (p0 :: p) Fx Fp ltac:(congruence))
    as (F & Len & V).
  cbv zeta in F, Len, V.
  set (xodd := if Z.odd x0 then Z.ones 32 else 0) in *.
  destruct (half_terms xodd (x0 :: x) (p0 :: p)) as [|y0 ys]; [discriminate|].
  cbn [hd tl]. inversion F as [|? ? Hy F']; subst.
  assert (H0 : 0 <= shr y0 1 <= 2^30).
  { rewrite shr_div by lia. change (2^1) with 2.
    split; [apply Z.div_pos; lia|].
    apply Z.lt_le_incl. apply Z.div_lt_upper_bound; lia. }
  destruct (half_chain_spec ys (shr y0 1) H0 F') as (l & c & El & Fl & Ll & Hc & E).
  rewrite El. rewrite Lx in Len. simpl in Len. injection Len as Len.
  rewrite Len in *. change (30 * Z.of_nat 8) with 240 in E.
  rewrite shr_div in E by lia. change (2^1) with 2 in E.
  assert (Vh : value (l ++ [c]) = value (y0 :: ys) / 2).
  { rewrite value_app, Ll. change (30 * Z.of_nat 8) with 240.
    cbn [value]. rewrite half_cons. lia. }
  rewrite V in Vh.
  pose proof (value_normalized _ (conj Lx Fx)) as Bx.
  pose proof (value_normalized _ (conj Lp Fp)) as Bp.
  set (s := value (x0 :: x) + (if Z.odd x0 then value (p0 :: p) else 0)) in *.
  assert (Bs : 0 <= s < 2^271) by (unfold s; destruct (Z.odd x0); lia).
  assert (Bh : 0 <= s / 2 < 2^270).
  { split; [apply Z.div_pos; lia|]. apply Z.div_lt_upper_bound; lia. }
  assert (Bc : c < 2^30).
  { pose proof (value_nonneg _ Fl).
    rewrite value_app, Ll in Vh. change (30 * Z.of_nat 8) with 240 in Vh.
    cbn [value] in Vh. nia. }
  split; [|assumption].
  split.
  - rewrite length_app, Ll. reflexivity.
  - apply Forall_app. split; [assumption|].
    constructor; [unfold is_limb; lia|constructor].
Qed.

(** X11: [bn_mult_half]: [(x + prime) / 2] for odd [x] and [x / 2] for even [x];
    hence half of [x] modulo an odd prime, and partly reduced whenever [x]
    was. *)
Theorem bn_mult_half_value x prime :
  normalized x -> normalized prime -> Z.odd (value prime) = true ->
  normalized (bn_mult_half x prime) /\
  2 * value (bn_mult_half x prime)
  = value x + (if Z.odd (value x) then value prime else 0) /\
  (2 * value (bn_mult_half x prime)) mod value prime = value x mod value prime /\
  (value x < 2 * value prime ->
   value (bn_mult_half x prime) < 2 * value prime).
Proof.
  intros Nx Np Op.
  destruct (bn_mult_half_exact x prime Nx Np) as [N V].
  set (s := value x + (if Z.odd (value x) then value prime else 0)) in *.
  assert (Ev : Z.even s = true).
  { unfold s. destruct (Z.odd (value x)) eqn:Ox.
    - rewrite Z.even_add. rewrite <- !Z.negb_odd, Ox, Op. reflexivity.
    - rewrite Z.add_0_r, <- Z.negb_odd, Ox. reflexivity. }
  assert (E2 : 2 * value (bn_mult_half x prime) = s).
  { rewrite V. apply Z.even_spec in Ev. destruct Ev as [k Ek].
    rewrite Ek. rewrite (Z.mul_comm 2 k), Z.div_mul by lia. lia. }
  split; [assumption|]. split; [assumption|].
  pose proof (value_normalized _ Np) as Bp.
  split.
  - rewrite E2. unfold s. destruct (Z.odd (value x)).
    + replace (value x + value prime) with (value x + 1 * value prime) by lia.
      apply Z_mod_plus_full.
    + rewrite Z.add_0_r. reflexivity.
  - intros Hlt. unfold s in E2. destruct (Z.odd (value x)); lia.
Qed.

(** ** Division by 58 and by 1000 *)

Lemma bn_divmod58_chain a :
  length a = 9%nat -> bn_divmod58 a = div_chain 58 4 18512790 a.
Proof. nine a. reflexivity. Qed.

Lemma bn_divmod1000_chain a :
  length a = 9%nat -> bn_divmod1000 a = div_chain 1000 824 1073741 a.
Proof. nine a. reflexivity. Qed.

Section DivChain.

Variables d c m : Z.
Hypothesis d_pos : 0 < d.
Hypothesis c_nonneg : 0 <= c.
Hypothesis m_nonneg : 0 <= m.
Hypothesis split_base : m * d + c = 2^30.
Hypothesis no_overflow : (d - 1) * c < 2^31.

Lemma div_step rem x :
  0 <= rem < d -> is_limb x ->
  let tmp := add32 (mul32 rem c) x in
  let q := add32 (mul32 rem m) (tmp / d) in
  is_limb q /\ 0 <= tmp mod d < d /\ rem * 2^30 + x = d * q + tmp mod d.
Proof.
  intros Hr Hx tmp q. unfold is_limb in Hx.
  assert (Hrc : 0 <= rem * c <= (d - 1) * c).
  { split; [apply Z.mul_nonneg_nonneg; lia|].
    apply Z.mul_le_mono_nonneg_r; lia. }
  assert (Et : tmp = rem * c + x).
  { unfold tmp, add32, mul32, wrap32.
    rewrite (Z.mod_small (rem * c)) by lia. apply Z.mod_small. lia. }
  assert (Es : rem * 2^30 + x = (rem * m) * d + tmp) by (rewrite Et; nia).
  assert (Ht : 0 <= tmp) by lia.
  pose proof (Z.mod_pos_bound tmp d d_pos) as Hm.
  pose proof (Z.div_mod tmp d ltac:(lia)) as Hd.
  assert (Hq0 : 0 <= tmp / d) by (apply Z.div_pos; lia).
  assert (Hrm : 0 <= rem * m) by (apply Z.mul_nonneg_nonneg; lia).
  assert (Hlt : rem * m + tmp / d < 2^30).
  { assert (rem * 2^30 + x < d * 2^30) by nia.
    assert (d * (rem * m + tmp / d) <= rem * 2^30 + x) by nia.
    nia. }
  assert (Eq : q = rem * m + tmp / d).
  { unfold q, add32, mul32, wrap32.
    rewrite (Z.mod_small (rem * m)) by lia. apply Z.mod_small. lia. }
  split; [unfold is_limb; lia|]. split; [assumption|].
  rewrite Eq. lia.
Qed.

Lemma div_chain_spec a :
  Forall is_limb a -> a <> [] ->
  Forall is_limb (fst (div_chain d c m a)) /\
  length (fst (div_chain d c m a)) = length a /\
  0 <= snd (div_chain d c m a) < d /\
  value a = d * value (fst (div_chain d c m a)) + snd (div_chain d c m a).
Proof.
  induction 1 as [|x t Hx Ht IH]; intros Hne; [congruence|].
  cbn [div_chain]. destruct t as [|y t].
  - cbn [fst snd value length]. unfold is_limb in *.
    pose proof (Z.mod_pos_bound x d d_pos).
    pose proof (Z.div_mod x d ltac:(lia)).
    assert (0 <= x / d) by (apply Z.div_pos; lia).
    assert (x / d < 2^30) by (apply Z.div_lt_upper_bound; nia).
    split; [constructor; [lia|constructor]|].
    split; [reflexivity|]. split; lia.
  - destruct (IH ltac:(discriminate)) as (F & Len & Hr & V).
    destruct (div_chain d c m (y :: t)) as [q rem]. cbn [fst snd] in *.
    destruct (div_step rem x Hr Hx) as (Hq & Hm & E).
    split; [constructor; assumption|].
    split; [simpl; simpl in Len; lia|]. split; [assumption|].
    cbn [value] in *. rewrite V. nia.
Qed.

Lemma div_chain_value a :
  normalized a ->
  normalized (fst (div_chain d c m a)) /\
  value (fst (div_chain d c m a)) = value a / d /\
  snd (div_chain d c m a) = value a mod d.
Proof.
  intros [L F].
  destruct (div_chain_spec a F) as (Fq & Len & Hr & V).
  { destruct a; discriminate. }
  split; [split; [congruence|assumption]|].
  split.
  - apply Z.div_unique with (r := snd (div_chain d c m a)); [lia|].
    exact V.
  - apply Z.mod_unique with (q := value (fst (div_chain d c m a))); [lia|].
    exact V.
Qed.

End DivChain.

Lemma bn_divmod1000_spec a :
  normalized a ->
  normalized (fst (bn_divmod1000 a)) /\
  value (fst (bn_divmod1000 a)) = value a / 1000 /\
  snd (bn_divmod1000 a) = value a mod 1000.
Proof.
  intros N. rewrite bn_divmod1000_chain by apply N.
  apply div_chain_value; (assumption || lia || reflexivity).
Qed.

(** X12: [bn_divmod1000]: quotient and remainder of the division by 1000. *)
Theorem bn_divmod1000_value a :
  normalized a ->
  normalized (fst (bn_divmod1000 a)) /\
  value (fst (bn_divmod1000 a)) = value a / 1000 /\
  snd (bn_divmod1000 a) = value a mod 1000 /\
  value a = 1000 * value (fst (bn_divmod1000 a)) + snd (bn_divmod1000 a).
Proof.
  intros N. destruct (bn_divmod1000_spec a N) as (Nq & Vq & Vr).
  split; [assumption|]. split; [assumption|]. split; [assumption|].
  rewrite Vq, Vr. apply Z.div_mod. lia.
Qed.

Lemma bn_divmod58_spec a :
  normalized a ->
  normalized (fst (bn_divmod58 a)) /\
  value (fst (bn_divmod58 a)) = value a / 58 /\
  snd (bn_divmod58 a) = value a mod 58.
Proof.
  intros N. rewrite bn_divmod58_chain by apply N.
  apply div_chain_value; (assumption || lia || reflexivity).
Qed.

(** X13: [bn_divmod58]: quotient and remainder of the division by 58. *)
Theorem bn_divmod58_value a :
  normalized a ->
  normalized (fst (bn_divmod58 a)) /\
  value (fst (bn_divmod58 a)) = value a / 58 /\
  snd (bn_divmod58 a) = value a mod 58 /\
  value a = 58 * value (fst (bn_divmod58 a)) + snd (bn_divmod58 a).
Proof.
  intros N. destruct (bn_divmod58_spec a N) as (Nq & Vq & Vr).
  split; [assumption|]. split; [assumption|]. split; [assumption|].
  rewrite Vq, Vr. apply Z.div_mod. lia.
Qed.

(** ** Counting decimal digits *)

Lemma bn_digitcount_rounds a :
  bn_digitcount a = snd (for_up 0 26 digit_round (a, 1)).
Proof. reflexivity. Qed.

Lemma pow1000 k : 1000 ^ Z.of_nat k = 10 ^ (3 * Z.of_nat k).
Proof. rewrite Z.pow_mul_r by lia. reflexivity. Qed.

Lemma for_up_S {S : Type} lo n (body : nat -> S -> S) s :
  for_up lo (Datatypes.S n) body s = for_up (Datatypes.S lo) n body (body lo s).
Proof. reflexivity. Qed.

Lemma digit_round_spec A k s :
  0 <= A -> normalized (fst s) -> value (fst s) = A / 1000 ^ Z.of_nat k ->
  digits_of (A mod 1000 ^ Z.of_nat k) (snd s) ->
  normalized (fst (digit_round k s)) /\
  value (fst (digit_round k s)) = A / 1000 ^ Z.of_nat (S k) /\
  digits_of (A mod 1000 ^ Z.of_nat (S k)) (snd (digit_round k s)).
Proof.
  destruct s as [val digits]. cbn [fst snd].
  intros HA N V D. unfold digit_round.
  destruct (bn_divmod1000_spec val N) as (Nq & Vq & Vr).
  destruct (bn_divmod1000 val) as [q limb]. cbn [fst snd] in *.
  assert (HK : 0 < 1000 ^ Z.of_nat k) by (apply Z.pow_pos_nonneg; lia).
  rewrite Nat2Z.inj_succ, Z.pow_succ_r by lia.
  rewrite (Z.mul_comm 1000).
  split; [assumption|]. split.
  - rewrite Vq, V. apply Z.div_div; lia.
  - rewrite Z.rem_mul_r by lia. rewrite <- V, <- Vr.
    pose proof (Z.mod_pos_bound A _ HK) as Hm.
    pose proof (Z.mod_pos_bound (value val) 1000 ltac:(lia)) as Hl.
    rewrite <- Vr in Hl.
    set (m := A mod 1000 ^ Z.of_nat k) in *.
    assert (P0 : 10 ^ (3 * Z.of_nat k) = 1000 ^ Z.of_nat k)
      by (symmetry; apply pow1000).
    assert (P1 : 10 ^ (3 * Z.of_nat k + 1) = 1000 ^ Z.of_nat k * 10)
      by (rewrite Z.pow_add_r, P0 by lia; reflexivity).
    assert (P2 : 10 ^ (3 * Z.of_nat k + 2) = 1000 ^ Z.of_nat k * 100)
      by (rewrite Z.pow_add_r, P0 by lia; reflexivity).
    assert (P3 : 10 ^ (3 * Z.of_nat k + 3) = 1000 ^ Z.of_nat k * 1000)
      by (rewrite Z.pow_add_r, P0 by lia; reflexivity).
    set (K := 1000 ^ Z.of_nat k) in *.
    unfold digits_of.
    destruct (Z.leb_spec 100 limb); [|destruct (Z.leb_spec 10 limb);
      [|destruct (Z.leb_spec 1 limb)]].
    + right. replace (3 * Z.of_nat k + 3 - 1) with (3 * Z.of_nat k + 2) by lia.
      rewrite P2, P3. nia.
    + right. replace (3 * Z.of_nat k + 2 - 1) with (3 * Z.of_nat k + 1) by lia.
      rewrite P1, P2. nia.
    + right. replace (3 * Z.of_nat k + 1 - 1) with (3 * Z.of_nat k) by lia.
      rewrite P0, P1. nia.
    + replace limb with 0 by lia.
      rewrite Z.mul_0_r, Z.add_0_r. exact D.
Qed.

Lemma digit_loop_spec A n : forall k s,
  0 <= A -> normalized (fst s) -> value (fst s) = A / 1000 ^ Z.of_nat k ->
  digits_of (A mod 1000 ^ Z.of_nat k) (snd s) ->
  digits_of (A mod 1000 ^ Z.of_nat (k + n)) (snd (for_up k n digit_round s)).
Proof.
  induction n as [|n IH]; intros k s HA N V D.
  - rewrite Nat.add_0_r. exact D.
  - rewrite for_up_S.
    destruct (digit_round_spec A k s HA N V D) as (N' & V' & D').
    replace (k + S n)%nat with (S k + n)%nat by lia.
    apply IH; assumption.
Qed.

Lemma bn_digitcount_spec a :
  normalized a -> value a < 10^78 ->
  digits_of (value a) (bn_digitcount a).
Proof.
  intros N Hlt. rewrite bn_digitcount_rounds.
  pose proof (value_normalized a N) as B.
  pose proof (digit_loop_spec (value a) 26 0 (a, 1) ltac:(lia) N) as H.
  cbn [fst snd] in H.
  change (1000 ^ Z.of_nat 0) with 1 in H.
  rewrite Z.div_1_r, Z.mod_1_r in H.
  specialize (H eq_refl (or_introl (conj eq_refl eq_refl))).
  change (1000 ^ Z.of_nat (0 + 26)) with (10^78) in H.
  rewrite Z.mod_small in H by lia. exact H.
Qed.


(** ** Bits *)

Lemma get_upd_same a : forall i v,
  (i < length a)%nat -> get (upd a i v) i = v.
Proof.
  unfold get. induction a as [|x a IH]; intros [|i] v L; simpl in *; try lia.
  apply IH. lia.
Qed.

Lemma get_upd_other a : forall i j v,
  i <> j -> get (upd a i v) j = get a j.
Proof.
  unfold get. induction a as [|x a IH]; intros [|i] [|j] v L; simpl in *;
    try reflexivity; try congruence.
  apply IH. congruence.
Qed.

Lemma Forall_upd (P : Z -> Prop) a : forall i v,
  Forall P a -> P v -> Forall P (upd a i v).
Proof.
  induction a as [|x a IH]; intros [|i] v F Hv; cbn [upd]; try assumption;
    inversion F; subst; constructor; auto.
Qed.

Lemma limb_mod x : is_limb x <-> x mod 2^30 = x.
Proof.
  unfold is_limb. split.
  - intros. apply Z.mod_small. lia.
  - intros <-. apply Z.mod_pos_bound. lia.
Qed.

Lemma land_limb x y : is_limb x -> is_limb (Z.land x y).
Proof.
  rewrite !limb_mod, <- !Z.land_ones by lia. intros E.
  rewrite <- E at 2.
  rewrite <- !Z.land_assoc. f_equal. apply Z.land_comm.
Qed.

Lemma lor_limb x y : is_limb x -> is_limb y -> is_limb (Z.lor x y).
Proof.
  rewrite !limb_mod, <- !Z.land_ones by lia. intros Ex Ey.
  rewrite Z.land_lor_distr_l. congruence.
Qed.

Lemma lxor_limb x y : is_limb x -> is_limb y -> is_limb (Z.lxor x y).
Proof.
  rewrite !limb_mod, <- !Z.land_ones by lia. intros Ex Ey.
  apply Z.bits_inj'. intros n Hn. rewrite Z.land_spec.
  destruct (Z.ltb_spec n 30).
  - rewrite Z.ones_spec_low by lia. apply andb_true_r.
  - rewrite Z.ones_spec_high, andb_false_r by lia.
    rewrite Z.lxor_spec, <- Ex, <- Ey, !Z.land_spec, Z.ones_spec_high by lia.
    rewrite !andb_false_r. reflexivity.
Qed.

Lemma testbit_cons x v n :
  is_limb x -> 0 <= n ->
  Z.testbit (x + 2^30 * v) n
  = if n <? 30 then Z.testbit x n else Z.testbit v (n - 30).
Proof.
  intros Hx Hn. unfold is_limb in Hx.
  rewrite (Z.mul_comm (2^30) v), <- lor_disjoint by lia.
  rewrite Z.lor_spec.
  destruct (Z.ltb_spec n 30).
  - rewrite Z.mul_pow2_bits_low by lia. apply orb_false_r.
  - rewrite Z.mul_pow2_bits by lia.
    replace x with (x mod 2^30) by (apply Z.mod_small; lia).
    rewrite Z.mod_pow2_bits_high by lia. reflexivity.
Qed.

(** Bit [n] of the number is bit [n mod 30] of limb [n / 30]. *)
Lemma testbit_value a :
  Forall is_limb a -> forall n, 0 <= n ->
  Z.testbit (value a) n = Z.testbit (get a (Z.to_nat (n / 30))) (n mod 30).
Proof.
  induction 1 as [|x t Hx Ht IH]; intros n Hn.
  - cbn [value]. unfold get.
    destruct (Z.to_nat (n / 30)); cbn [nth]; rewrite !Z.bits_0; reflexivity.
  - cbn [value]. rewrite testbit_cons by assumption.
    destruct (Z.ltb_spec n 30).
    + rewrite Z.div_small, Z.mod_small by lia. reflexivity.
    + rewrite IH by lia.
      assert (E1 : n / 30 = (n - 30) / 30 + 1).
      { replace n with ((n - 30) + 1 * 30) at 1 by lia.
        rewrite Z.div_add by lia. reflexivity. }
      assert (E2 : (n - 30) mod 30 = n mod 30).
      { replace n with ((n - 30) + 1 * 30) at 2 by lia.
        rewrite Z.mod_add by lia. reflexivity. }
      assert (0 <= (n - 30) / 30) by (apply Z.div_pos; lia).
      rewrite E1, E2, Z2Nat.inj_add by lia.
      change (Z.to_nat 1) with 1%nat. rewrite Nat.add_1_r. reflexivity.
Qed.

Lemma shl_one k : 0 <= k < 32 -> shl32 1 k = 2^k.
Proof.
  intros Hk. unfold shl32, wrap32. rewrite Z.shiftl_1_l.
  apply Z.mod_small. split; [lia|apply Z.pow_lt_mono_r; lia].
Qed.

Lemma bit_index bit :
  0 <= bit < 256 ->
  (Z.to_nat (bit / 30) < 9)%nat /\ 0 <= bit mod 30 < 30 /\ 0 <= bit / 30.
Proof.
  intros Hb.
  pose proof (Z.mod_pos_bound bit 30 ltac:(lia)).
  assert (0 <= bit / 30) by (apply Z.div_pos; lia).
  assert (bit / 30 < 9) by (apply Z.div_lt_upper_bound; lia).
  repeat split; lia.
Qed.

(** X15: [bn_testbit] returns the mask of the bit when bit [bit] of the number is
    set and zero otherwise. *)
Theorem bn_testbit_value a bit :
  normalized a -> 0 <= bit < 256 ->
  bn_testbit a bit = (if Z.testbit (value a) bit then 2^(bit mod 30) else 0) /\
  (bn_testbit a bit <> 0 <-> Z.testbit (value a) bit = true).
Proof.
  intros [L F] Hb. destruct (bit_index bit Hb) as (Hi & Hk & Hq).
  assert (E : bn_testbit a bit
              = if Z.testbit (value a) bit then 2^(bit mod 30) else 0).
  { unfold bn_testbit.
    rewrite shl_one, land_pow2, testbit_value by (assumption || lia).
    reflexivity. }
  split; [assumption|]. rewrite E.
  assert (0 < 2^(bit mod 30)) by (apply Z.pow_pos_nonneg; lia).
  destruct (Z.testbit (value a) bit); split; (congruence || lia).
Qed.

Lemma same_limb_bit bit n :
  0 <= bit -> 0 <= n -> Z.to_nat (n / 30) = Z.to_nat (bit / 30) ->
  (bit mod 30 =? n mod 30) = (bit =? n).
Proof.
  intros Hb Hn E.
  assert (0 <= bit / 30) by (apply Z.div_pos; lia).
  assert (0 <= n / 30) by (apply Z.div_pos; lia).
  apply Z2Nat.inj in E; [|lia|lia].
  pose proof (Z.div_mod bit 30 ltac:(lia)).
  pose proof (Z.div_mod n 30 ltac:(lia)).
  destruct (Z.eqb_spec (bit mod 30) (n mod 30)), (Z.eqb_spec bit n);
    (reflexivity || lia || congruence).
Qed.

Lemma other_limb_bit bit n :
  Z.to_nat (bit / 30) <> Z.to_nat (n / 30) -> (bit =? n) = false.
Proof. intros E. apply Z.eqb_neq. congruence. Qed.

(** X16: [bn_setbit] sets bit [bit] of the number. *)
Theorem bn_setbit_value a bit :
  normalized a -> 0 <= bit < 256 ->
  normalized (bn_setbit a bit) /\
  value (bn_setbit a bit) = Z.setbit (value a) bit.
Proof.
  intros [L F] Hb. destruct (bit_index bit Hb) as (Hi & Hk & Hq).
  unfold bn_setbit. cbv zeta. rewrite shl_one by lia.
  set (i := Z.to_nat (bit / 30)) in *.
  assert (Hl : is_limb (2 ^ (bit mod 30))).
  { unfold is_limb. split; [lia|apply Z.pow_lt_mono_r; lia]. }
  assert (Hv : is_limb (Z.lor (get a i) (2 ^ (bit mod 30)))).
  { apply lor_limb; [apply Forall_limb_get|]; assumption. }
  assert (F' : Forall is_limb (upd a i (Z.lor (get a i) (2 ^ (bit mod 30)))))
    by (apply Forall_upd; assumption).
  split; [split; [rewrite upd_length|]; assumption|].
  apply Z.bits_inj'. intros n Hn.
  rewrite Z.setbit_eqb by lia.
  rewrite !testbit_value by (assumption || lia).
  destruct (Nat.eq_dec i (Z.to_nat (n / 30))) as [E|E].
  - rewrite <- E, get_upd_same by lia.
    rewrite Z.lor_spec, Z.pow2_bits_eqb by lia.
    rewrite same_limb_bit by (lia || congruence).
    apply orb_comm.
  - rewrite get_upd_other by assumption.
    rewrite other_limb_bit by assumption. reflexivity.
Qed.

Lemma testbit_not32 y j :
  0 <= j < 32 -> Z.testbit (not32 y) j = negb (Z.testbit y j).
Proof.
  intros Hj. unfold not32, wrap32.
  replace (- y - 1) with (Z.lnot y) by (unfold Z.lnot; lia).
  rewrite Z.mod_pow2_bits_low by lia. apply Z.lnot_spec. lia.
Qed.

(** X17: [bn_clearbit] clears bit [bit] of the number. *)
Theorem bn_clearbit_value a bit :
  normalized a -> 0 <= bit < 256 ->
  normalized (bn_clearbit a bit) /\
  value (bn_clearbit a bit) = Z.clearbit (value a) bit.
Proof.
  intros [L F] Hb. destruct (bit_index bit Hb) as (Hi & Hk & Hq).
  unfold bn_clearbit. cbv zeta. rewrite shl_one by lia.
  set (i := Z.to_nat (bit / 30)) in *.
  assert (Hv : is_limb (Z.land (get a i) (not32 (2 ^ (bit mod 30))))).
  { apply land_limb. apply Forall_limb_get. assumption. }
  assert (F' : Forall is_limb (upd a i (Z.land (get a i) (not32 (2 ^ (bit mod 30))))))
    by (apply Forall_upd; assumption).
  split; [split; [rewrite upd_length|]; assumption|].
  apply Z.bits_inj'. intros n Hn.
  rewrite Z.clearbit_eqb by lia.
  rewrite !testbit_value by (assumption || lia).
  pose proof (Z.mod_pos_bound n 30 ltac:(lia)).
  destruct (Nat.eq_dec i (Z.to_nat (n / 30))) as [E|E].
  - rewrite <- E, get_upd_same by lia.
    rewrite Z.land_spec, testbit_not32, Z.pow2_bits_eqb by lia.
    rewrite same_limb_bit by (lia || congruence).
    reflexivity.
  - rewrite get_upd_other by assumption.
    rewrite other_limb_bit by assumption. rewrite andb_true_r. reflexivity.
Qed.

(** ** Exclusive or *)

Lemma bn_xor_zip b c :
  length b = 9%nat -> length c = 9%nat -> bn_xor b c = zip_with Z.lxor b c.
Proof. nine b. nine c. reflexivity. Qed.

Lemma zip_lxor_spec b : forall c,
  Forall is_limb b -> Forall is_limb c -> length b = length c ->
  Forall is_limb (zip_with Z.lxor b c) /\
  length (zip_with Z.lxor b c) = length b /\
  value (zip_with Z.lxor b c) = Z.lxor (value b) (value c).
Proof.
  induction b as [|x b IH]; intros [|y c] Hb Hc L; try discriminate;
    cbn [zip_with value length].
  - repeat split; auto.
  - inversion Hb as [|? ? Hx Hb']; inversion Hc as [|? ? Hy Hc']; subst.
    destruct (IH c Hb' Hc' ltac:(simpl in L; lia)) as (F & Len & V).
    pose proof (lxor_limb x y Hx Hy) as Hxy.
    split; [constructor; assumption|]. split; [simpl; lia|].
    rewrite V. apply Z.bits_inj'. intros n Hn.
    rewrite Z.lxor_spec, !testbit_cons by assumption.
    destruct (n <? 30); rewrite Z.lxor_spec; reflexivity.
Qed.

(** X18: [bn_xor] is the bitwise exclusive or of the two numbers. *)
Theorem bn_xor_value b c :
  normalized b -> normalized c ->
  normalized (bn_xor b c) /\ value (bn_xor b c) = Z.lxor (value b) (value c).
Proof.
  intros [Lb Fb] [Lc Fc]. rewrite bn_xor_zip by assumption.
  destruct (zip_lxor_spec b c Fb Fc ltac:(congruence)) as (F & Len & V).
  split; [split; [congruence|assumption]|assumption].
Qed.

(** ** Bit length *)

Lemma bn_bitcount_from a :
  length a = 9%nat ->
  bn_bitcount a = match bitcount_from 0 a with Some r => r | None => 0 end.
Proof. nine a. reflexivity. Qed.

Lemma log2_cons x v :
  is_limb x -> 0 < v -> Z.log2 (x + 2^30 * v) = 30 + Z.log2 v.
Proof.
  unfold is_limb. intros Hx Hv.
  pose proof (Z.log2_nonneg v).
  destruct (Z.log2_spec v Hv) as [Lo Hi].
  apply Z.log2_unique; [lia|].
  rewrite Z.pow_succ_r in Hi by lia.
  replace (Z.succ (30 + Z.log2 v)) with (30 + (Z.log2 v + 1)) by lia.
  rewrite !Z.pow_add_r by lia. rewrite Z.pow_1_r.
  set (P := 2 ^ Z.log2 v) in *. nia.
Qed.

Lemma bitcount_from_spec a : forall i,
  Forall is_limb a ->
  bitcount_from i a
  = if value a =? 0 then None
    else Some (Z.of_nat i * 30 + (Z.log2 (value a) + 1)).
Proof.
  induction a as [|x a IH]; intros i F; cbn [bitcount_from value].
  - reflexivity.
  - inversion F as [|? ? Hx F']; subst.
    rewrite (IH (S i) F'). pose proof (value_nonneg a F') as Hv.
    pose proof Hx as Hx'. unfold is_limb in Hx'.
    destruct (Z.eqb_spec (value a) 0) as [E|E].
    + rewrite E, Z.mul_0_r, Z.add_0_r. reflexivity.
    + destruct (Z.eqb_spec (x + 2^30 * value a) 0); [lia|].
      rewrite log2_cons by (assumption || lia).
      f_equal. lia.
Qed.

(** X19: [bn_bitcount] is the bit length of a normalized number. *)
Theorem bn_bitcount_value a :
  normalized a ->
  bn_bitcount a = if value a =? 0 then 0 else Z.log2 (value a) + 1.
Proof.
  intros [L F]. rewrite bn_bitcount_from by assumption.
  rewrite bitcount_from_spec by assumption.
  destruct (value a =? 0); reflexivity.
Qed.

(** ** Reading machine integers *)

Lemma bn_read_uint32_spec n :
  is_u32 n ->
  normalized (bn_read_uint32 n) /\ value (bn_read_uint32 n) = n.
Proof.
  unfold is_u32. intros Hn. unfold bn_read_uint32.
  rewrite land_mask, shr_div by lia.
  pose proof (Z.mod_pos_bound n (2^30) ltac:(lia)).
  pose proof (Z.div_mod n (2^30) ltac:(lia)).
  assert (0 <= n / 2^30 < 4).
  { split; [apply Z.div_pos; lia|]. apply Z.div_lt_upper_bound; lia. }
  split.
  - split; [reflexivity|].
    repeat (apply Forall_cons; [unfold is_limb; lia|]). apply Forall_nil.
  - cbn [value]. lia.
Qed.

Lemma bn_read_uint64_spec n :
  0 <= n < 2^64 ->
  normalized (bn_read_uint64 n) /\ value (bn_read_uint64 n) = n.
Proof.
  intros Hn. unfold bn_read_uint64. cbv zeta.
  rewrite !land_mask, !shr_div by lia.
  pose proof (Z.mod_pos_bound n (2^30) ltac:(lia)).
  pose proof (Z.div_mod n (2^30) ltac:(lia)).
  assert (0 <= n / 2^30 < 2^34).
  { split; [apply Z.div_pos; lia|]. apply Z.div_lt_upper_bound; lia. }
  pose proof (Z.mod_pos_bound (n / 2^30) (2^30) ltac:(lia)).
  pose proof (Z.div_mod (n / 2^30) (2^30) ltac:(lia)).
  assert (0 <= n / 2^30 / 2^30 < 16).
  { split; [apply Z.div_pos; lia|]. apply Z.div_lt_upper_bound; lia. }
  unfold wrap32.
  rewrite (Z.mod_small (n mod 2^30) (2^32)) by lia.
  rewrite (Z.mod_small ((n / 2^30) mod 2^30) (2^32)) by lia.
  rewrite (Z.mod_small (n / 2^30 / 2^30) (2^32)) by lia.
  split.
  - split; [reflexivity|].
    repeat (apply Forall_cons; [unfold is_limb; lia|]). apply Forall_nil.
  - cbn [value]. lia.
Qed.

(** X20: [bn_read_uint32] and [bn_read_uint64] give the normalized representation
    of their argument. *)
Theorem bn_read_uint_value n m :
  is_u32 n -> 0 <= m < 2^64 ->
  (normalized (bn_read_uint32 n) /\ value (bn_read_uint32 n) = n) /\
  (normalized (bn_read_uint64 m) /\ value (bn_read_uint64 m) = m).
Proof.
  intros Hn Hm.
  split; [apply bn_read_uint32_spec|apply bn_read_uint64_spec]; assumption.
Qed.

(** ** Exponentiation *)

Lemma get_value_digit e :
  Forall is_limb e -> forall i,
  get e i = (value e / 2^(30 * Z.of_nat i)) mod 2^30.
Proof.
  induction 1 as [|x t Hx Ht IH]; intros i.
  - unfold get. cbn [value]. rewrite Z.div_0_l, Z.mod_0_l by lia.
    destruct i; reflexivity.
  - unfold is_limb in Hx. cbn [value]. destruct i as [|i].
    + change (2 ^ (30 * Z.of_nat 0)) with 1. rewrite Z.div_1_r.
      rewrite (Z.mul_comm (2^30)), Z.mod_add by lia.
      rewrite Z.mod_small by lia. reflexivity.
    + change (get (x :: t) (S i)) with (get t i). rewrite IH.
      replace (30 * Z.of_nat (S i)) with (30 + 30 * Z.of_nat i) by lia.
      rewrite Z.pow_add_r, <- Z.div_div by lia.
      rewrite (Z.mul_comm (2^30)), Z.div_add, (Z.div_small x (2^30)) by lia.
      reflexivity.
Qed.

Section Power.

Variable prime : bignum256.
Variable b : Z.
Hypothesis prime_normalized : normalized prime.
Hypothesis prime_in_band : in_band (value prime).

Let P := value prime.

Lemma prime_bounds : 2^255 < P < 2^256.
Proof. unfold P. unfold in_band in prime_in_band. lia. Qed.

Lemma bn_multiply_pow e1 e2 k x :
  partly_reduced k prime -> partly_reduced x prime -> 0 <= e1 -> 0 <= e2 ->
  value k mod P = b ^ e1 mod P -> value x mod P = b ^ e2 mod P ->
  partly_reduced (bn_multiply k x prime) prime /\
  value (bn_multiply k x prime) mod P = b ^ (e1 + e2) mod P.
Proof.
  intros [Nk Bk] [Nx Bx] H1 H2 Ek Ex.
  pose proof prime_bounds as HP. fold P in Bk, Bx.
  pose proof (value_normalized k Nk). pose proof (value_normalized x Nx).
  destruct (bn_multiply_spec k x prime Nk Nx prime_normalized prime_in_band)
    as (N & B & c & E).
  { fold P. nia. }
  fold P in B, E.
  split; [split; assumption|].
  rewrite E, mod_sub_multiple, Z.mul_mod, Ek, Ex, <- Z.mul_mod by lia.
  rewrite Z.pow_add_r by assumption. reflexivity.
Qed.

Lemma pow_bits_spec i n : forall limb x res s m,
  0 <= limb < 2 ^ Z.of_nat n -> 0 <= s -> 0 <= m ->
  partly_reduced x prime -> value x mod P = b ^ (2 ^ s) mod P ->
  partly_reduced res prime -> value res mod P = b ^ m mod P ->
  partly_reduced (snd (pow_bits i n limb x res prime)) prime /\
  value (snd (pow_bits i n limb x res prime)) mod P
  = b ^ (m + 2 ^ s * limb) mod P /\
  (i <> 8%nat ->
   partly_reduced (fst (pow_bits i n limb x res prime)) prime /\
   value (fst (pow_bits i n limb x res prime)) mod P
   = b ^ (2 ^ (s + Z.of_nat n)) mod P).
Proof.
  induction n as [|n IH]; intros limb x res s m Hl Hs Hm Rx Ex Rr Er.
  - cbn [pow_bits fst snd]. change (2 ^ Z.of_nat 0) with 1 in Hl.
    replace limb with 0 by lia.
    rewrite Z.mul_0_r, !Z.add_0_r. auto.
  - cbn [pow_bits].
    destruct (Nat.eqb i 8 && (limb =? 0)) eqn:Brk.
    + apply andb_prop in Brk. destruct Brk as [Ei El].
      apply Nat.eqb_eq in Ei. apply Z.eqb_eq in El. subst limb.
      cbn [fst snd]. rewrite Z.mul_0_r, Z.add_0_r.
      split; [assumption|]. split; [assumption|]. intros; contradiction.
    + cbv zeta.
      assert (H2s : 0 < 2 ^ s) by (apply Z.pow_pos_nonneg; lia).
      pose proof (Z.mod_pos_bound limb 2 ltac:(lia)) as Hb.
      pose proof (Z.div_mod limb 2 ltac:(lia)) as Hd.
      rewrite Nat2Z.inj_succ, Z.pow_succ_r in Hl by lia.
      assert (Hl' : 0 <= shr limb 1 < 2 ^ Z.of_nat n).
      { rewrite shr_div by lia. change (2^1) with 2.
        split; [apply Z.div_pos; lia|]. apply Z.div_lt_upper_bound; lia. }
      assert (R1 : let res1 := if Z.land limb 1 =? 0 then res
                               else bn_multiply x res prime in
                   partly_reduced res1 prime /\
                   value res1 mod P = b ^ (m + 2 ^ s * (limb mod 2)) mod P).
      { cbv zeta. rewrite land_one.
        destruct (Z.eqb_spec (limb mod 2) 0) as [E0|E0].
        - rewrite E0, Z.mul_0_r, Z.add_0_r. auto.
        - replace (limb mod 2) with 1 by lia. rewrite Z.mul_1_r.
          rewrite (Z.add_comm m).
          apply bn_multiply_pow; (assumption || lia). }
      cbv zeta in R1. destruct R1 as [Rr1 Er1].
      destruct (bn_multiply_pow (2 ^ s) (2 ^ s) x x Rx Rx
                  ltac:(lia) ltac:(lia) Ex Ex) as [Rx1 Ex1].
      replace (2 ^ s + 2 ^ s) with (2 ^ (s + 1)) in Ex1
        by (rewrite Z.pow_add_r by lia; lia).
      destruct (IH (shr limb 1) (bn_multiply x x prime)
                  (if Z.land limb 1 =? 0 then res else bn_multiply x res prime)
                  (s + 1) (m + 2 ^ s * (limb mod 2))
                  Hl' ltac:(lia) ltac:(nia) Rx1 Ex1 Rr1 Er1) as (A1 & A2 & A3).
      split; [assumption|]. split.
      * rewrite A2. f_equal. f_equal.
        rewrite shr_div by lia. change (2^1) with 2.
        rewrite Z.pow_add_r by lia. change (2^1) with 2.
        set (T := 2 ^ s) in *. set (h := limb / 2) in *.
        set (r := limb mod 2) in *. rewrite Hd. ring.
      * intros Hi. destruct (A3 Hi) as [B1 B2]. split; [assumption|].
        rewrite B2. f_equal. f_equal. f_equal. lia.
Qed.

Variable e : bignum256.
Variable f : nat -> bignum256 * bignum256 -> bignum256 * bignum256.
Hypothesis exponent_normalized : normalized e.
Hypothesis body_is_pow_bits :
  forall j x res, f j (x, res) = pow_bits j 30 (get e j) x res prime.

Lemma pow_loop_spec n : forall i x res,
  (i + n = 9)%nat ->
  partly_reduced res prime ->
  value res mod P = b ^ (value e mod 2 ^ (30 * Z.of_nat i)) mod P ->
  (n <> 0%nat ->
   partly_reduced x prime /\
   value x mod P = b ^ (2 ^ (30 * Z.of_nat i)) mod P) ->
  partly_reduced (snd (for_up i n f (x, res))) prime /\
  value (snd (for_up i n f (x, res))) mod P = b ^ value e mod P.
Proof.
  pose proof (value_normalized e exponent_normalized) as Be.
  induction n as [|n IH]; intros i x res Hi Rr Er Hx.
  - cbn [for_up snd]. split; [assumption|]. rewrite Er.
    replace i with 9%nat by lia. change (30 * Z.of_nat 9) with 270.
    rewrite (Z.mod_small (value e)) by lia. reflexivity.
  - rewrite for_up_S, body_is_pow_bits.
    destruct (Hx ltac:(discriminate)) as [Rx Ex].
    destruct exponent_normalized as [Le Fe].
    pose proof (Forall_limb_get e i Fe) as Hg. unfold is_limb in Hg.
    assert (H2 : 0 < 2 ^ (30 * Z.of_nat i)) by (apply Z.pow_pos_nonneg; lia).
    pose proof (Z.mod_pos_bound (value e) _ H2) as Hm.
    destruct (pow_bits_spec i 30 (get e i) x res (30 * Z.of_nat i)
                (value e mod 2 ^ (30 * Z.of_nat i))
                Hg ltac:(lia) ltac:(lia) Rx Ex Rr Er) as (A1 & A2 & A3).
    rewrite (surjective_pairing (pow_bits i 30 (get e i) x res prime)).
    apply IH.
    + lia.
    + assumption.
    + rewrite A2. f_equal. f_equal.
      rewrite (get_value_digit e Fe i).
      replace (30 * Z.of_nat (S i)) with (30 * Z.of_nat i + 30) by lia.
      rewrite (Z.pow_add_r 2 (30 * Z.of_nat i) 30) by lia.
      rewrite Z.rem_mul_r by lia. reflexivity.
    + intros Hn. destruct (A3 ltac:(lia)) as [B1 B2]. split; [assumption|].
      rewrite B2. f_equal. f_equal. f_equal. lia.
Qed.

Lemma pow_loop_value x :
  partly_reduced x prime -> value x = b ->
  normalized (bn_mod (snd (for_up 0 9 f (x, bn_one))) prime) /\
  value (bn_mod (snd (for_up 0 9 f (x, bn_one))) prime) = b ^ value e mod P.
Proof.
  intros Rx Eb. pose proof prime_bounds as HP.
  assert (R1 : partly_reduced bn_one prime).
  { split.
    - split; [reflexivity|].
      repeat (apply Forall_cons; [unfold is_limb; lia|]). apply Forall_nil.
    - change (value bn_one) with 1. fold P. lia. }
  destruct (pow_loop_spec 9 0 x bn_one eq_refl R1) as [[N B] E].
  - change (2 ^ (30 * Z.of_nat 0)) with 1. rewrite Z.mod_1_r. reflexivity.
  - intros _. split; [assumption|].
    change (2 ^ (30 * Z.of_nat 0)) with 1. rewrite Z.pow_1_r, Eb. reflexivity.
  - destruct (bn_mod_spec _ prime N prime_normalized ltac:(fold P; lia) B)
      as [Nm Vm].
    split; [assumption|]. rewrite Vm. exact E.
Qed.

End Power.

Lemma bn_inverse_loop x prime :
  bn_inverse x prime
  = bn_mod (snd (for_up 0 9 (fun i '(x, res) =>
                   let limb := get prime i in
                   let limb := if Nat.eqb i 0 then sub32 limb 2 else limb in
                   pow_bits i 30 limb x res prime) (x, bn_one))) prime.
Proof.
  unfold bn_inverse, bn_inverse_st.
  destruct (for_up 0 9 _ (x, bn_one)) as [x' res']. reflexivity.
Qed.

Lemma bn_sqrt_loop x prime :
  bn_sqrt x prime
  = bn_mod (snd (for_up 0 9 (fun i '(x, res) =>
                   let limb := get (sqrt_exponent prime) i in
                   pow_bits i 30 limb x res prime) (x, bn_one))) prime.
Proof.
  unfold bn_sqrt, bn_sqrt_st, sqrt_exponent.
  destruct (for_up 0 9 _ (x, bn_one)) as [x' res']. reflexivity.
Qed.

Lemma inverse_exponent_spec prime :
  normalized prime -> 2 <= get prime 0 ->
  normalized (inverse_exponent prime) /\
  value (inverse_exponent prime) = value prime - 2.
Proof.
  intros [L F] H2. unfold inverse_exponent.
  destruct prime as [|p0 t]; [discriminate|].
  cbn [get nth upd] in *. inversion F as [|? ? H0 Ft]; subst.
  unfold is_limb in H0.
  assert (E : sub32 p0 2 = p0 - 2)
    by (unfold sub32, wrap32; apply Z.mod_small; lia).
  rewrite E. split.
  - split; [assumption|]. constructor; [unfold is_limb; lia|assumption].
  - cbn [value]. lia.
Qed.

Lemma sqrt_exponent_spec prime :
  normalized prime -> value prime < 2^256 ->
  normalized (sqrt_exponent prime) /\
  value (sqrt_exponent prime) = (value prime + 1) / 4.
Proof.
  intros N B. unfold sqrt_exponent.
  pose proof (value_normalized prime N) as Bp.
  pose proof (Forall_limb_get prime 0 (proj2 N)) as H0. unfold is_limb in H0.
  destruct (bn_addi_spec prime 1 N ltac:(lia) ltac:(lia)) as [N1 V1].
  rewrite Z.mod_small in V1 by lia.
  destruct (bn_rshift_spec _ N1) as [N2 V2].
  destruct (bn_rshift_spec _ N2) as [N3 V3].
  split; [assumption|].
  rewrite V3, V2, V1, Z.div_div by lia. reflexivity.
Qed.

Lemma bn_inverse_power x prime :
  normalized x -> normalized prime -> in_band (value prime) ->
  value x < 2 * value prime -> 2 <= get prime 0 ->
  normalized (bn_inverse x prime) /\
  value (bn_inverse x prime) = value x ^ (value prime - 2) mod value prime.
Proof.
  intros Nx Np Band Bx H2.
  destruct (inverse_exponent_spec prime Np H2) as [Ne Ve].
  rewrite bn_inverse_loop, <- Ve.
  apply (pow_loop_value prime (value x) Np Band (inverse_exponent prime));
    [assumption| |split; assumption|reflexivity].
  intros j x0 res. cbv beta iota zeta. f_equal.
  unfold inverse_exponent. destruct j as [|j].
  - cbn [Nat.eqb]. rewrite get_upd_same; [reflexivity|].
    destruct Np as [L _]. rewrite L. lia.
  - cbn [Nat.eqb]. rewrite get_upd_other by discriminate. reflexivity.
Qed.

(** X21: [bn_inverse] returns the fully reduced power [x^(prime - 2) mod prime]. *)
Theorem bn_inverse_value x prime :
  normalized x -> normalized prime -> in_band (value prime) ->
  value x < 2 * value prime -> 2 <= get prime 0 ->
  normalized (bn_inverse x prime) /\
  value (bn_inverse x prime) = value x ^ (value prime - 2) mod value prime /\
  value (bn_inverse x prime) < value prime.
Proof.
  intros Nx Np Band Bx H2.
  destruct (bn_inverse_power x prime Nx Np Band Bx H2) as [N V].
  split; [assumption|]. split; [assumption|].
  rewrite V. apply Z.mod_pos_bound. unfold in_band in Band. lia.
Qed.

(** X22: [bn_sqrt] returns the fully reduced power [x^((prime + 1) / 4) mod prime]. *)
Theorem bn_sqrt_value x prime :
  normalized x -> normalized prime -> in_band (value prime) ->
  value x < 2 * value prime ->
  normalized (bn_sqrt x prime) /\
  value (bn_sqrt x prime) = value x ^ ((value prime + 1) / 4) mod value prime /\
  value (bn_sqrt x prime) < value prime.
Proof.
  intros Nx Np Band Bx.
  destruct (sqrt_exponent_spec prime Np) as [Ne Ve].
  { unfold in_band in Band. lia. }
  assert (H : normalized (bn_sqrt x prime) /\
              value (bn_sqrt x prime)
              = value x ^ value (sqrt_exponent prime) mod value prime).
  { rewrite bn_sqrt_loop.
    apply (pow_loop_value prime (value x) Np Band (sqrt_exponent prime));
      [assumption| |split; assumption|reflexivity].
    intros j x0 res. reflexivity. }
  destruct H as [N V]. rewrite Ve in V.
  split; [assumption|]. split; [assumption|].
  rewrite V. apply Z.mod_pos_bound. unfold in_band in Band. lia.
Qed.

(** X23: Multiplying [x] by [bn_inverse x], then [bn_mod], gives
    [x^(prime - 1) mod prime]. *)
Theorem bn_inverse_multiply_value x prime :
  normalized x -> normalized prime -> in_band (value prime) ->
  value x < 2 * value prime -> 2 <= get prime 0 ->
  value (bn_mod (bn_multiply x (bn_inverse x prime) prime) prime)
  = value x ^ (value prime - 1) mod value prime.
Proof.
  intros Nx Np Band Bx H2.
  assert (HP : 2^255 < value prime < 2^256) by (unfold in_band in Band; lia).
  pose proof (value_normalized x Nx) as Vx.
  set (P := value prime) in *.
  pose proof (bn_inverse_power x prime Nx Np Band Bx H2) as Hinv.
  fold P in Hinv.
  destruct Hinv as [Ni Vi].
  pose proof (Z.mod_pos_bound (value x ^ (P - 2)) P ltac:(lia)) as Bi.
  rewrite <- Vi in Bi.
  destruct (bn_multiply_spec x (bn_inverse x prime) prime Nx Ni Np Band)
    as (Nm & Bm & c & Em).
  { fold P. nia. }
  fold P in Bm, Em.
  destruct (bn_mod_spec _ prime Nm Np ltac:(fold P; lia) Bm) as [_ Vm].
  fold P in Vm. rewrite Vm, Em, mod_sub_multiple, Vi.
  rewrite Z.mul_mod_idemp_r by lia.
  replace (P - 1) with (1 + (P - 2)) by lia.
  rewrite Z.pow_add_r, Z.pow_1_r by lia. reflexivity.
Qed.

(** ** Byte strings as numbers *)

Lemma bn_read_be_chain data :
  bn_read_be data = read_chain 0 0 (be_words data).
Proof. reflexivity. Qed.

Lemma bn_read_le_chain data :
  bn_read_le data = read_chain 0 0 (le_words data).
Proof. reflexivity. Qed.

Lemma read_limb temp w k :
  0 <= k <= 30 -> 0 <= temp < 2^k -> 0 <= w ->
  Z.land (Z.lor temp (shl32 w k)) 0x3FFFFFFF = temp + 2^k * (w mod 2^(30 - k)).
Proof.
  intros Hk Ht Hw.
  assert (HA : 0 < 2^(30 - k)) by (apply Z.pow_pos_nonneg; lia).
  assert (HB : 0 < 2^k) by (apply Z.pow_pos_nonneg; lia).
  assert (HAB : 2^(30 - k) * 2^k = 2^30)
    by (rewrite <- Z.pow_add_r by lia; f_equal; lia).
  assert (H32 : 2^32 = (2^(30 - k) * 4) * 2^k) by lia.
  unfold shl32, wrap32. rewrite Z.shiftl_mul_pow2 by lia.
  rewrite H32 at 1. rewrite Z.mul_mod_distr_r by lia.
  rewrite lor_disjoint by lia. rewrite land_mask.
  rewrite Z.rem_mul_r by lia.
  set (A := 2^(30 - k)) in *. set (B := 2^k) in *.
  pose proof (Z.mod_pos_bound w A HA) as Hm.
  pose proof (Z.mod_pos_bound (w / A) 4 ltac:(lia)) as Hq.
  set (r := w mod A) in *. set (q := (w / A) mod 4) in *.
  symmetry. apply Z.mod_unique with (q := q); [left; nia|nia].
Qed.

Lemma read_chain_spec ws : forall temp i,
  0 <= temp < 2^(2 * Z.of_nat i) -> (i + length ws <= 15)%nat ->
  Forall is_u32 ws ->
  Forall is_limb (read_chain temp i ws) /\
  length (read_chain temp i ws) = S (length ws) /\
  value (read_chain temp i ws) = temp + 2^(2 * Z.of_nat i) * words_value ws.
Proof.
  induction ws as [|w ws IH]; intros temp i Ht Hi F.
  - cbn [read_chain value words_value length].
    assert (2^(2 * Z.of_nat i) <= 2^30) by (apply Z.pow_le_mono_r; simpl in Hi; lia).
    split; [constructor; [unfold is_limb; lia|constructor]|].
    split; [reflexivity|lia].
  - inversion F as [|? ? Hw F']; subst. unfold is_u32 in Hw.
    cbn [read_chain length] in *.
    rewrite read_limb by lia.
    assert (HA : 0 < 2^(30 - 2 * Z.of_nat i)) by (apply Z.pow_pos_nonneg; lia).
    assert (HB : 0 < 2^(2 * Z.of_nat i)) by (apply Z.pow_pos_nonneg; lia).
    assert (HAB : 2^(30 - 2 * Z.of_nat i) * 2^(2 * Z.of_nat i) = 2^30)
      by (rewrite <- Z.pow_add_r by lia; f_equal; lia).
    assert (HS : 2^(2 * Z.of_nat (S i)) = 4 * 2^(2 * Z.of_nat i)).
    { replace (2 * Z.of_nat (S i)) with (2 + 2 * Z.of_nat i) by lia.
      rewrite Z.pow_add_r by lia. reflexivity. }
    pose proof (Z.mod_pos_bound w _ HA) as Hm.
    pose proof (Z.div_mod w (2^(30 - 2 * Z.of_nat i)) ltac:(lia)) as Hd.
    assert (Hq : 0 <= shr w (30 - 2 * Z.of_nat i) < 2^(2 * Z.of_nat (S i))).
    { rewrite shr_div by lia. split; [apply Z.div_pos; lia|].
      apply Z.div_lt_upper_bound; [lia|]. rewrite HS. nia. }
    destruct (IH (shr w (30 - 2 * Z.of_nat i)) (S i) Hq ltac:(lia) F')
      as (Fl & Len & V).
    split.
    + constructor; [|assumption]. unfold is_limb.
      set (A := 2^(30 - 2 * Z.of_nat i)) in *. set (B := 2^(2 * Z.of_nat i)) in *.
      nia.
    + split; [cbn [length]; rewrite Len; reflexivity|].
      cbn [value words_value]. rewrite V, HS.
      rewrite shr_div in * by lia.
      set (A := 2^(30 - 2 * Z.of_nat i)) in *. set (B := 2^(2 * Z.of_nat i)) in *.
      set (r := w mod A) in *. set (q := w / A) in *.
      set (W := words_value ws).
      replace (2^30) with (A * B) by assumption. rewrite Hd.
      change (2^32) with (4 * 2^30). replace (2^30) with (A * B) by assumption.
      ring.
Qed.

Lemma word_of_bytes b0 b1 b2 b3 :
  is_u8 b0 -> is_u8 b1 -> is_u8 b2 -> is_u8 b3 ->
  Z.lor (Z.lor (Z.lor (shl32 b0 24) (shl32 b1 16)) (shl32 b2 8)) b3
  = b3 + 2^8 * (b2 + 2^8 * (b1 + 2^8 * b0)).
Proof.
  unfold is_u8. intros H0 H1 H2 H3.
  unfold shl32, wrap32. rewrite !Z.shiftl_mul_pow2 by lia.
  rewrite !Z.mod_small by lia.
  rewrite (Z.lor_comm (b0 * 2^24) (b1 * 2^16)).
  rewrite (lor_disjoint (b1 * 2^16) b0 24) by lia.
  rewrite (Z.lor_comm _ (b2 * 2^8)).
  replace (b1 * 2^16 + b0 * 2^24) with ((b1 + 2^8 * b0) * 2^16) by lia.
  rewrite (lor_disjoint (b2 * 2^8) (b1 + 2^8 * b0) 16) by lia.
  rewrite Z.lor_comm.
  replace (b2 * 2^8 + (b1 + 2^8 * b0) * 2^16)
    with ((b2 + 2^8 * (b1 + 2^8 * b0)) * 2^8) by lia.
  rewrite (lor_disjoint b3 (b2 + 2^8 * (b1 + 2^8 * b0)) 8) by lia. lia.
Qed.

Lemma u8_sum_u32 b0 b1 b2 b3 :
  is_u8 b0 -> is_u8 b1 -> is_u8 b2 -> is_u8 b3 ->
  is_u32 (b3 + 2^8 * (b2 + 2^8 * (b1 + 2^8 * b0))).
Proof. unfold is_u8, is_u32. lia. Qed.

Ltac u8_hyps :=
  repeat match goal with
         | H : Forall _ (_ :: _) |- _ => inversion H; clear H; subst
         end;
  match goal with H : Forall _ [] |- _ => clear H end.

Lemma be_words_value data :
  length data = 32%nat -> Forall is_u8 data ->
  Forall is_u32 (be_words data) /\ words_value (be_words data) = be_value data.
Proof.
  thirtytwo data. intros F. u8_hyps.
  cbv [be_words map seq read_be get nth Nat.sub Nat.mul Nat.add].
  rewrite !word_of_bytes by assumption.
  split.
  - repeat (apply Forall_cons; [apply u8_sum_u32; assumption|]). apply Forall_nil.
  - cbv [be_value rev app le_value words_value]. ring.
Qed.

Lemma le_words_value data :
  length data = 32%nat -> Forall is_u8 data ->
  Forall is_u32 (le_words data) /\ words_value (le_words data) = le_value data.
Proof.
  thirtytwo data. intros F. u8_hyps.
  cbv [le_words map seq read_le get nth Nat.sub Nat.mul Nat.add].
  rewrite !word_of_bytes by assumption.
  split.
  - repeat (apply Forall_cons; [apply u8_sum_u32; assumption|]). apply Forall_nil.
  - cbv [le_value words_value]. ring.
Qed.

Lemma le_value_bounds bytes :
  Forall is_u8 bytes -> 0 <= le_value bytes < 2^(8 * Z.of_nat (length bytes)).
Proof.
  induction 1 as [|x t Hx Ht IH]; [simpl; lia|].
  cbn [le_value length]. unfold is_u8 in Hx.
  replace (8 * Z.of_nat (S (length t))) with (8 + 8 * Z.of_nat (length t)) by lia.
  rewrite Z.pow_add_r by lia. nia.
Qed.

Lemma le_value_inj a : forall b,
  Forall is_u8 a -> Forall is_u8 b -> length a = length b ->
  le_value a = le_value b -> a = b.
Proof.
  induction a as [|x a IH]; intros [|y b] Ha Hb L E; try discriminate.
  - reflexivity.
  - inversion Ha as [|? ? Hx Ha']; inversion Hb as [|? ? Hy Hb']; subst.
    cbn [le_value] in E. unfold is_u8 in *.
    assert (x = y) by lia. subst y.
    f_equal. apply IH; [assumption|assumption|simpl in L; lia|lia].
Qed.

Lemma be_value_inj a b :
  Forall is_u8 a -> Forall is_u8 b -> length a = length b ->
  be_value a = be_value b -> a = b.
Proof.
  intros Ha Hb L E. apply rev_inj.
  apply le_value_inj; try assumption.
  - apply Forall_rev. assumption.
  - apply Forall_rev. assumption.
  - rewrite !length_rev. assumption.
Qed.

Lemma be_value_bounds bytes :
  Forall is_u8 bytes -> 0 <= be_value bytes < 2^(8 * Z.of_nat (length bytes)).
Proof.
  intros F. unfold be_value. rewrite <- (length_rev bytes).
  apply le_value_bounds. apply Forall_rev. assumption.
Qed.

Lemma read_words_spec ws :
  length ws = 8%nat -> Forall is_u32 ws ->
  normalized (read_chain 0 0 ws) /\ value (read_chain 0 0 ws) = words_value ws.
Proof.
  intros L F.
  destruct (read_chain_spec ws 0 0%nat ltac:(simpl; lia) ltac:(lia) F)
    as (Fl & Len & V).
  split; [split; [lia|assumption]|].
  rewrite V. change (2 ^ (2 * Z.of_nat 0)) with 1. lia.
Qed.

Lemma bn_read_be_spec data :
  length data = 32%nat -> Forall is_u8 data ->
  normalized (bn_read_be data) /\ value (bn_read_be data) = be_value data.
Proof.
  intros L F. destruct (be_words_value data L F) as [Fw Vw].
  rewrite bn_read_be_chain, <- Vw.
  apply read_words_spec; [reflexivity|assumption].
Qed.

Lemma bn_read_le_spec data :
  length data = 32%nat -> Forall is_u8 data ->
  normalized (bn_read_le data) /\ value (bn_read_le data) = le_value data.
Proof.
  intros L F. destruct (le_words_value data L F) as [Fw Vw].
  rewrite bn_read_le_chain, <- Vw.
  apply read_words_spec; [reflexivity|assumption].
Qed.

(** X24: [bn_read_be] and [bn_read_le] decode 32 bytes into the normalized
    representation of the number that the bytes encode. *)
Theorem bn_read_value data :
  length data = 32%nat -> Forall is_u8 data ->
  (normalized (bn_read_be data) /\ value (bn_read_be data) = be_value data) /\
  (normalized (bn_read_le data) /\ value (bn_read_le data) = le_value data).
Proof.
  intros L F. split; [apply bn_read_be_spec|apply bn_read_le_spec]; assumption.
Qed.

Lemma wrap8_u8 x : is_u8 (wrap8 x).
Proof. unfold is_u8, wrap8. apply Z.mod_pos_bound. lia. Qed.

Lemma bn_write_be_bytes x out :
  length x = 9%nat -> length out = 32%nat ->
  length (bn_write_be x out) = 32%nat /\ Forall is_u8 (bn_write_be x out).
Proof.
  nine x. thirtytwo out.
  cbv -[shl32 shr Z.lor Z.land wrap8 is_u8].
  split; [reflexivity|].
  repeat (apply Forall_cons; [apply wrap8_u8|]). apply Forall_nil.
Qed.

Lemma bn_write_le_bytes x out :
  length x = 9%nat -> length out = 32%nat ->
  length (bn_write_le x out) = 32%nat /\ Forall is_u8 (bn_write_le x out).
Proof.
  nine x. thirtytwo out.
  cbv -[shl32 shr Z.lor Z.land wrap8 is_u8].
  split; [reflexivity|].
  repeat (apply Forall_cons; [apply wrap8_u8|]). apply Forall_nil.
Qed.

(** X25: [bn_write_be] and [bn_write_le] write the 32-byte encodings of a
    normalized number below 2^256. *)
Theorem bn_write_value x out :
  normalized x -> value x < 2^256 -> length out = 32%nat ->
  (length (bn_write_be x out) = 32%nat /\ Forall is_u8 (bn_write_be x out) /\
   be_value (bn_write_be x out) = value x) /\
  (length (bn_write_le x out) = 32%nat /\ Forall is_u8 (bn_write_le x out) /\
   le_value (bn_write_le x out) = value x).
Proof.
  intros N B L.
  destruct (bn_write_be_bytes x out (proj1 N) L) as [Lb Fb].
  destruct (bn_write_le_bytes x out (proj1 N) L) as [Ll Fl].
  split; (split; [assumption|]; split; [assumption|]).
  - destruct (bn_read_be_spec _ Lb Fb) as [_ V].
    rewrite <- V, bn_read_write_be by assumption. reflexivity.
  - destruct (bn_read_le_spec _ Ll Fl) as [_ V].
    rewrite <- V, bn_read_write_le by assumption. reflexivity.
Qed.

(** X26: Encoding what was decoded gives the bytes back. *)
Theorem bn_write_read_roundtrip data out :
  length data = 32%nat -> Forall is_u8 data -> length out = 32%nat ->
  bn_write_be (bn_read_be data) out = data /\
  bn_write_le (bn_read_le data) out = data.
Proof.
  intros L F Lo.
  destruct (bn_read_be_spec data L F) as [Nb Vb].
  destruct (bn_read_le_spec data L F) as [Nl Vl].
  pose proof (be_value_bounds data F) as Bb.
  pose proof (le_value_bounds data F) as Bl.
  rewrite L in Bb, Bl. change (2 ^ (8 * Z.of_nat 32)) with (2^256) in Bb, Bl.
  destruct (bn_write_be_bytes (bn_read_be data) out (proj1 Nb) Lo) as [Lwb Fwb].
  destruct (bn_write_le_bytes (bn_read_le data) out (proj1 Nl) Lo) as [Lwl Fwl].
  split.
  - apply be_value_inj; [assumption|assumption|congruence|].
    destruct (bn_read_be_spec _ Lwb Fwb) as [_ V].
    rewrite <- V, bn_read_write_be by (assumption || lia). assumption.
  - apply le_value_inj; [assumption|assumption|congruence|].
    destruct (bn_read_le_spec _ Lwl Fwl) as [_ V].
    rewrite <- V, bn_read_write_le by (assumption || lia). assumption.
Qed.

(** ** Formatting integers *)

Lemma text_push_plain trailing n text :
  text_push trailing n (mk_afmt text 0 0) = mk_afmt (digit_char n :: text) 0 0.
Proof.
  unfold text_push. cbn [a_exponent a_decimals a_text Z.ltb Z.compare Z.leb].
  rewrite orb_true_r. reflexivity.
Qed.

Lemma decimal_text_app n : forall m v acc,
  decimal_text (n + m) v acc
  = decimal_text m (v / 10 ^ Z.of_nat n) (decimal_text n v acc).
Proof.
  induction n as [|n IH]; intros m v acc.
  - cbn [Nat.add decimal_text]. change (10 ^ Z.of_nat 0) with 1.
    rewrite Z.div_1_r. reflexivity.
  - cbn [Nat.add decimal_text]. rewrite IH. f_equal.
    rewrite Nat2Z.inj_succ, Z.pow_succ_r, Z.div_div
      by (try lia; apply Z.pow_pos_nonneg; lia).
    reflexivity.
Qed.

Lemma decimal_text_length n : forall v acc,
  length (decimal_text n v acc) = (n + length acc)%nat.
Proof.
  induction n as [|n IH]; intros v acc; cbn [decimal_text]; [reflexivity|].
  rewrite IH. simpl. lia.
Qed.

Lemma decimal_text_mod n : forall k v acc,
  (n <= k)%nat ->
  decimal_text n (v mod 10 ^ Z.of_nat k) acc = decimal_text n v acc.
Proof.
  induction n as [|n IH]; intros k v acc Hk; cbn [decimal_text]; [reflexivity|].
  destruct k as [|k]; [lia|].
  assert (HK : 0 < 10 ^ Z.of_nat k) by (apply Z.pow_pos_nonneg; lia).
  rewrite Nat2Z.inj_succ, Z.pow_succ_r by lia.
  assert (E1 : (v mod (10 * 10 ^ Z.of_nat k)) mod 10 = v mod 10).
  { rewrite Z.rem_mul_r by lia.
    rewrite (Z.mul_comm 10), Z.mod_add by lia. apply Z.mod_mod. lia. }
  assert (E2 : (v mod (10 * 10 ^ Z.of_nat k)) / 10 = (v / 10) mod 10 ^ Z.of_nat k).
  { rewrite Z.rem_mul_r by lia.
    rewrite (Z.mul_comm 10), Z.div_add by lia.
    rewrite (Z.div_small (v mod 10) 10) by (apply Z.mod_pos_bound; lia).
    reflexivity. }
  rewrite E1, E2. apply IH. lia.
Qed.

Lemma text_group_plain trailing limb text :
  text_group trailing limb (mk_afmt text 0 0)
  = mk_afmt (decimal_text 3 limb text) 0 0.
Proof.
  unfold text_group. cbv zeta. rewrite !text_push_plain. reflexivity.
Qed.

Lemma text_groups_plain trailing n : forall val text,
  normalized val ->
  normalized (fst (text_groups trailing n val (mk_afmt text 0 0))) /\
  value (fst (text_groups trailing n val (mk_afmt text 0 0)))
  = value val / 10 ^ Z.of_nat (3 * n) /\
  snd (text_groups trailing n val (mk_afmt text 0 0))
  = mk_afmt (decimal_text (3 * n) (value val) text) 0 0.
Proof.
  induction n as [|n IH]; intros val text N.
  - cbn [text_groups fst snd Nat.mul decimal_text].
    change (10 ^ Z.of_nat 0) with 1. rewrite Z.div_1_r. auto.
  - cbn [text_groups].
    destruct (bn_divmod1000_spec val N) as (Nq & Vq & Vr).
    destruct (bn_divmod1000 val) as [q limb]. cbn [fst snd] in Nq, Vq, Vr.
    rewrite text_group_plain.
    destruct (IH q (decimal_text 3 limb text) Nq) as (A1 & A2 & A3).
    split; [assumption|]. split.
    + rewrite A2, Vq.
      replace (3 * S n)%nat with (3 + 3 * n)%nat by lia.
      rewrite Nat2Z.inj_add, Z.pow_add_r, Z.div_div
        by (try lia; apply Z.pow_pos_nonneg; lia).
      reflexivity.
    + rewrite A3, Vq, Vr.
      replace (3 * S n)%nat with (3 + 3 * n)%nat by lia.
      rewrite decimal_text_app. f_equal. f_equal.
      apply (decimal_text_mod 3 3). lia.
Qed.

Lemma text_rest_plain trailing digits val text :
  normalized val -> 0 <= digits ->
  text_rest trailing digits val (mk_afmt text 0 0)
  = mk_afmt (decimal_text (Z.to_nat (digits mod 3)) (value val) text) 0 0.
Proof.
  intros N Hd. unfold text_rest.
  pose proof (Z.mod_pos_bound digits 3 ltac:(lia)) as Hm.
  destruct (bn_divmod1000_spec val N) as (_ & _ & Vr).
  destruct (bn_divmod1000 val) as [q limb]. cbn [snd] in Vr.
  assert (C : digits mod 3 = 0 \/ digits mod 3 = 1 \/ digits mod 3 = 2) by lia.
  destruct C as [E|[E|E]]; rewrite E.
  - reflexivity.
  - change (1 =? 0) with false. change (1 =? 2) with false.
    change (1 =? 1) with true. change (Z.to_nat 1) with 1%nat.
    cbv beta iota. rewrite text_push_plain, Vr.
    apply (f_equal (fun t => mk_afmt t 0 0)).
    exact (decimal_text_mod 1 3 (value val) text ltac:(lia)).
  - change (2 =? 0) with false. change (2 =? 2) with true.
    change (Z.to_nat 2) with 2%nat.
    cbv beta iota zeta. rewrite !text_push_plain, Vr.
    apply (f_equal (fun t => mk_afmt t 0 0)).
    exact (decimal_text_mod 2 3 (value val) text ltac:(lia)).
Qed.

Lemma decimal_text_head n : forall v acc,
  exists d t, 0 <= d < 10 /\ decimal_text (S n) v acc = digit_char d :: t.
Proof.
  induction n as [|n IH]; intros v acc.
  - exists (v mod 10), acc. split; [apply Z.mod_pos_bound; lia|reflexivity].
  - cbn [decimal_text]. apply (IH (v / 10) (digit_char (v mod 10) :: acc)).
Qed.

Lemma digit_char_visible d :
  0 <= d < 10 ->
  Ascii.eqb (digit_char d) zero = false /\
  Ascii.eqb (digit_char d) "."%char = false.
Proof.
  intros Hd.
  assert (C : d = 0 \/ d = 1 \/ d = 2 \/ d = 3 \/ d = 4 \/ d = 5 \/ d = 6
              \/ d = 7 \/ d = 8 \/ d = 9) by lia.
  repeat (destruct C as [->|C]; [split; reflexivity|]).
  subst d. split; reflexivity.
Qed.

(** The text of an integer: with [decimals = 0] and [exponent = 0] the text
    that [bn_format] writes is the decimal representation of the number. *)
Lemma format_text_integer amnt suffix trailing :
  normalized amnt -> value amnt < 10^78 ->
  format_text amnt suffix 0 0 trailing
  = Some (decimal_text (Z.to_nat (bn_digitcount amnt)) (value amnt) []).
Proof.
  intros N B.
  assert (Hd : 1 <= bn_digitcount amnt).
  { destruct (bn_digitcount_spec amnt N B) as [[_ E]|[H _]]; lia. }
  set (D := bn_digitcount amnt) in *.
  unfold format_text.
  replace (if bn_is_zero amnt then 0 else 0) with 0
    by (destruct (bn_is_zero amnt); reflexivity).
  cbv zeta. unfold text_body. cbn [a_exponent Z.to_nat text_exponent].
  cbv zeta. fold D.
  destruct (text_groups_plain trailing (Z.to_nat (D / 3)) amnt [] N)
    as (A1 & A2 & A3).
  destruct (text_groups trailing (Z.to_nat (D / 3)) amnt (mk_afmt [] 0 0))
    as [val a]. cbn [fst snd] in A1, A2, A3. subst a.
  rewrite text_rest_plain by (assumption || lia).
  rewrite A2.
  assert (H3 : 0 <= D / 3) by (apply Z.div_pos; lia).
  pose proof (Z.mod_pos_bound D 3 ltac:(lia)) as Hm.
  pose proof (Z.div_mod D 3 ltac:(lia)) as Hdm.
  rewrite <- decimal_text_app.
  replace (3 * Z.to_nat (D / 3) + Z.to_nat (D mod 3))%nat with (Z.to_nat D)
    by lia.
  destruct (Z.to_nat D) as [|n] eqn:En; [lia|].
  destruct (decimal_text_head n (value amnt) []) as (d & t & Hd10 & Et).
  rewrite Et. destruct (digit_char_visible d Hd10) as [V0 V1].
  unfold text_fuel. cbn [a_exponent a_decimals a_text Z.opp Z.to_nat Nat.add].
  cbn [text_while a_decimals a_text hd Z.ltb Z.compare orb].
  rewrite V0, V1. reflexivity.
Qed.

(** X27: [bn_format] of an integer ([decimals = 0], [exponent = 0]): when the
    buffer is large enough it holds the prefix, the decimal digits of the
    number, the suffix and the terminator, and the returned length is the
    length of that string; otherwise the function returns 0. *)
Theorem bn_format_integer amnt prefix suffix trailing out :
  normalized amnt -> value amnt < 10^78 ->
  (strlen_opt prefix + strlen_opt suffix + 1 <= length out)%nat ->
  let digits := Z.to_nat (bn_digitcount amnt) in
  let text := decimal_text digits (value amnt) [] in
  length text = digits /\
  if Nat.leb (strlen_opt prefix + digits + strlen_opt suffix + 1) (length out)
  then exists rest,
      bn_format amnt prefix suffix 0 0 trailing out
      = Some (Ok ((strlen_opt prefix + digits + strlen_opt suffix)%nat,
                  chars_opt prefix ++ text ++ chars_opt suffix ++ [zero] ++ rest))
  else exists out',
      bn_format amnt prefix suffix 0 0 trailing out = Some (Return0 out').
Proof.
  intros N B Hlen. cbv zeta.
  generalize (format_text_integer amnt suffix trailing N B).
  generalize (bn_format_spec amnt prefix suffix 0 0 trailing out Hlen).
  generalize (Z.to_nat (bn_digitcount amnt)). intros digits.
  generalize (bn_format amnt prefix suffix 0 0 trailing out).
  generalize (format_text amnt suffix 0 0 trailing).
  intros ft bf (text' & Et & H) E.
  assert (Lt : length (decimal_text digits (value amnt) []) = digits).
  { rewrite decimal_text_length. cbn [length]. apply Nat.add_0_r. }
  split; [assumption|].
  rewrite E in Et.
  assert (E' : decimal_text digits (value amnt) [] = text') by congruence.
  rewrite <- E' in H. rewrite Lt in H. exact H.
Qed.

(** ** Full reduction, selection and the long product *)

(** X28: [bn_mod] fully reduces a partly reduced number. *)
Theorem bn_mod_value x prime :
  normalized x -> normalized prime -> 0 < value prime ->
  value x < 2 * value prime ->
  normalized (bn_mod x prime) /\
  value (bn_mod x prime) = value x mod value prime /\
  value (bn_mod x prime) < value prime.
Proof.
  intros Nx Np Hp Hx. destruct (bn_mod_spec x prime Nx Np Hp Hx) as [N V].
  split; [assumption|]. split; [assumption|].
  rewrite V. apply Z.mod_pos_bound. assumption.
Qed.

(** X29: [bn_cmov] selects [truecase] for [cond = 1] and [falsecase] for
    [cond = 0]. *)
Theorem bn_cmov_value truecase falsecase :
  wf truecase -> wf falsecase ->
  bn_cmov 1 truecase falsecase = truecase /\
  bn_cmov 0 truecase falsecase = falsecase.
Proof.
  intros Wt Wf. split.
  - apply bn_cmov_true; [assumption|apply Wf].
  - apply bn_cmov_false; [apply Wt|assumption].
Qed.

Lemma bn_multiply_long_overwrites k x res :
  length k = 9%nat -> length x = 9%nat -> length res = 18%nat ->
  bn_multiply_long k x res = bn_multiply_long k x (repeat 0 18).
Proof.
  nine k. nine x. eighteen res.
  cbv [bn_multiply_long for_up upd get nth repeat Nat.sub Nat.add].
  reflexivity.
Qed.

(** X30: [bn_multiply_long] overwrites the eighteen limbs of [res] with the exact
    product, normalized, whatever [res] held before. *)
Theorem bn_multiply_long_value k x res :
  normalized k -> normalized x -> length res = 18%nat ->
  length (bn_multiply_long k x res) = 18%nat /\
  Forall is_limb (bn_multiply_long k x res) /\
  value (bn_multiply_long k x res) = value k * value x.
Proof.
  intros Nk Nx L.
  rewrite bn_multiply_long_overwrites by (apply Nk || apply Nx || assumption).
  apply bn_multiply_long_spec; assumption.
Qed.

(** ** Further instances on concrete inputs *)

Ltac bound_ok := vm_compute; split; first [reflexivity | discriminate].

Ltac list_ok :=
  cbv [repeat]; repeat (apply Forall_cons; [bound_ok|]); apply Forall_nil.

Ltac concrete :=
  repeat match goal with x := _ |- _ => subst x end;
  lazymatch goal with
  | |- normalized _ => limbs_ok
  | |- wf _ => limbs_ok
  | |- in_band _ => band_ok
  | |- Forall _ _ => list_ok
  | |- _ => vm_compute; first [reflexivity | discriminate | lia | bound_ok]
  end.

Lemma bn_is_zero_value_witness :
  let a := bn_read_uint32 5 in
  normalized a /\
  bn_is_zero a = (value a =? 0).
Proof.
  intros a.
  assert (H1 : normalized a) by concrete.
  split; [exact H1|].
  exact (bn_is_zero_value a H1).
Defined.

Lemma bn_add_value_witness :
  let a := bn_read_uint32 0x3FFFFFFF in
  let b := bn_read_uint32 5 in
  normalized a /\
  normalized b /\
  normalized (bn_add a b) /\
  value (bn_add a b) = (value a + value b) mod 2^270 /\
  (value a + value b < 2^270 -> value (bn_add a b) = value a + value b).
Proof.
  intros a b.
  assert (H1 : normalized a) by concrete.
  assert (H2 : normalized b) by concrete.
  split; [exact H1|].
  split; [exact H2|].
  exact (bn_add_value a b H1 H2).
Defined.

Lemma bn_addi_value_witness :
  let a := bn_read_uint32 0x3FFFFFFF in
  let b := 7 in
  normalized a /\
  0 <= b /\
  b + get a 0 < 2^32 /\
  normalized (bn_addi a b) /\
  value (bn_addi a b) = (value a + b) mod 2^270 /\
  (value a + b < 2^270 -> value (bn_addi a b) = value a + b).
Proof.
  intros a b.
  assert (H1 : normalized a) by concrete.
  assert (H2 : 0 <= b) by concrete.
  assert (H3 : b + get a 0 < 2^32) by concrete.
  split; [exact H1|].
  split; [exact H2|].
  split; [exact H3|].
  exact (bn_addi_value a b H1 H2 H3).
Defined.

Lemma bn_normalize_value_witness :
  let a := [0xFFFFFFF0; 0x40000000; 0; 0; 0; 0; 0; 0; 0] in
  length a = 9%nat /\
  Forall small_term a /\
  normalized (bn_normalize a) /\
  value (bn_normalize a) = value a mod 2^270.
Proof.
  intros a.
  assert (H1 : length a = 9%nat) by concrete.
  assert (H2 : Forall small_term a) by concrete.
  split; [exact H1|].
  split; [exact H2|].
  exact (bn_normalize_value a H1 H2).
Defined.

Lemma bn_subi_value_witness :
  let a := bn_read_uint32 3 in
  let b := 5 in
  let prime := secp256k1_prime in
  normalized a /\
  normalized prime /\
  0 <= b <= get prime 0 /\
  normalized (bn_subi a b prime) /\
  value (bn_subi a b prime) = (value a - b + value prime) mod 2^270.
Proof.
  intros a b prime.
  assert (H1 : normalized a) by concrete.
  assert (H2 : normalized prime) by concrete.
  assert (H3 : 0 <= b <= get prime 0) by concrete.
  split; [exact H1|].
  split; [exact H2|].
  split; [exact H3|].
  exact (bn_subi_value a b prime H1 H2 H3).
Defined.

Lemma bn_subtractmod_value_witness :
  let a := bn_read_uint32 3 in
  let b := bn_read_uint32 5 in
  let prime := secp256k1_prime in
  normalized a /\
  normalized b /\
  normalized prime /\
  normalized (bn_subtractmod a b prime) /\
  value (bn_subtractmod a b prime)
  = (value a + 2 * value prime - value b) mod 2^270 /\
  (value b <= value a + 2 * value prime < 2^270 ->
   value (bn_subtractmod a b prime) = value a + 2 * value prime - value b).
Proof.
  intros a b prime.
  assert (H1 : normalized a) by concrete.
  assert (H2 : normalized b) by concrete.
  assert (H3 : normalized prime) by concrete.
  split; [exact H1|].
  split; [exact H2|].
  split; [exact H3|].
  exact (bn_subtractmod_value a b prime H1 H2 H3).
Defined.

Lemma bn_addmod_value_witness :
  let a := secp256k1_prime in
  let b := secp256k1_prime in
  let prime := secp256k1_prime in
  normalized a /\
  normalized b /\
  wf prime /\
  in_band (value prime) /\
  normalized (bn_addmod a b prime) /\
  value (bn_addmod a b prime) < 2 * value prime /\
  value (bn_addmod a b prime) mod value prime
  = (value a + value b) mod value prime.
Proof.
  intros a b prime.
  assert (H1 : normalized a) by concrete.
  assert (H2 : normalized b) by concrete.
  assert (H3 : wf prime) by concrete.
  assert (H4 : in_band (value prime)) by concrete.
  split; [exact H1|].
  split; [exact H2|].
  split; [exact H3|].
  split; [exact H4|].
  exact (bn_addmod_value a b prime H1 H2 H3 H4).
Defined.

Lemma bn_mult_k_value_witness :
  let x := secp256k1_prime in
  let k := 4 in
  let prime := secp256k1_prime in
  normalized x /\
  0 <= k <= 4 /\
  wf prime /\
  in_band (value prime) /\
  normalized (bn_mult_k x k prime) /\
  value (bn_mult_k x k prime) < 2 * value prime /\
  value (bn_mult_k x k prime) mod value prime
  = (k * value x) mod value prime.
Proof.
  intros x k prime.
  assert (H1 : normalized x) by concrete.
  assert (H2 : 0 <= k <= 4) by concrete.
  assert (H3 : wf prime) by concrete.
  assert (H4 : in_band (value prime)) by concrete.
  split; [exact H1|].
  split; [exact H2|].
  split; [exact H3|].
  split; [exact H4|].
  exact (bn_mult_k_value x k prime H1 H2 H3 H4).
Defined.

Lemma bn_lshift_value_witness :
  let a := bn_read_uint32 0x3FFFFFFF in
  normalized a /\
  normalized (bn_lshift a) /\
  value (bn_lshift a) = (2 * value a) mod 2^270 /\
  (value a < 2^269 -> value (bn_lshift a) = 2 * value a).
Proof.
  intros a.
  assert (H1 : normalized a) by concrete.
  split; [exact H1|].
  exact (bn_lshift_value a H1).
Defined.

Lemma bn_rshift_value_witness :
  let a := bn_read_uint32 0x40000001 in
  normalized a /\
  normalized (bn_rshift a) /\ value (bn_rshift a) = value a / 2 /\
  value (bn_lshift (bn_rshift a)) = value a - value a mod 2.
Proof.
  intros a.
  assert (H1 : normalized a) by concrete.
  split; [exact H1|].
  exact (bn_rshift_value a H1).
Defined.

Lemma bn_mult_half_value_witness :
  let x := bn_read_uint32 3 in
  let prime := secp256k1_prime in
  normalized x /\
  normalized prime /\
  Z.odd (value prime) = true /\
  normalized (bn_mult_half x prime) /\
  2 * value (bn_mult_half x prime)
  = value x + (if Z.odd (value x) then value prime else 0) /\
  (2 * value (bn_mult_half x prime)) mod value prime = value x mod value prime /\
  (value x < 2 * value prime ->
   value (bn_mult_half x prime) < 2 * value prime).
Proof.
  intros x prime.
  assert (H1 : normalized x) by concrete.
  assert (H2 : normalized prime) by concrete.
  assert (H3 : Z.odd (value prime) = true) by concrete.
  split; [exact H1|].
  split; [exact H2|].
  split; [exact H3|].
  exact (bn_mult_half_value x prime H1 H2 H3).
Defined.

Lemma bn_divmod1000_value_witness :
  let a := bn_read_uint32 123456 in
  normalized a /\
  normalized (fst (bn_divmod1000 a)) /\
  value (fst (bn_divmod1000 a)) = value a / 1000 /\
  snd (bn_divmod1000 a) = value a mod 1000 /\
  value a = 1000 * value (fst (bn_divmod1000 a)) + snd (bn_divmod1000 a).
Proof.
  intros a.
  assert (H1 : normalized a) by concrete.
  split; [exact H1|].
  exact (bn_divmod1000_value a H1).
Defined.

Lemma bn_divmod58_value_witness :
  let a := bn_read_uint32 123456 in
  normalized a /\
  normalized (fst (bn_divmod58 a)) /\
  value (fst (bn_divmod58 a)) = value a / 58 /\
  snd (bn_divmod58 a) = value a mod 58 /\
  value a = 58 * value (fst (bn_divmod58 a)) + snd (bn_divmod58 a).
Proof.
  intros a.
  assert (H1 : normalized a) by concrete.
  split; [exact H1|].
  exact (bn_divmod58_value a H1).
Defined.


Lemma bn_testbit_value_witness :
  let a := bn_read_uint32 0x40000001 in
  let bit := 30 in
  normalized a /\
  0 <= bit < 256 /\
  bn_testbit a bit = (if Z.testbit (value a) bit then 2^(bit mod 30) else 0) /\
  (bn_testbit a bit <> 0 <-> Z.testbit (value a) bit = true).
Proof.
  intros a bit.
  assert (H1 : normalized a) by concrete.
  assert (H2 : 0 <= bit < 256) by concrete.
  split; [exact H1|].
  split; [exact H2|].
  exact (bn_testbit_value a bit H1 H2).
Defined.

Lemma bn_setbit_value_witness :
  let a := bn_read_uint32 5 in
  let bit := 255 in
  normalized a /\
  0 <= bit < 256 /\
  normalized (bn_setbit a bit) /\
  value (bn_setbit a bit) = Z.setbit (value a) bit.
Proof.
  intros a bit.
  assert (H1 : normalized a) by concrete.
  assert (H2 : 0 <= bit < 256) by concrete.
  split; [exact H1|].
  split; [exact H2|].
  exact (bn_setbit_value a bit H1 H2).
Defined.

Lemma bn_clearbit_value_witness :
  let a := secp256k1_prime in
  let bit := 255 in
  normalized a /\
  0 <= bit < 256 /\
  normalized (bn_clearbit a bit) /\
  value (bn_clearbit a bit) = Z.clearbit (value a) bit.
Proof.
  intros a bit.
  assert (H1 : normalized a) by concrete.
  assert (H2 : 0 <= bit < 256) by concrete.
  split; [exact H1|].
  split; [exact H2|].
  exact (bn_clearbit_value a bit H1 H2).
Defined.

Lemma bn_xor_value_witness :
  let b := bn_read_uint32 6 in
  let c := bn_read_uint32 3 in
  normalized b /\
  normalized c /\
  normalized (bn_xor b c) /\ value (bn_xor b c) = Z.lxor (value b) (value c).
Proof.
  intros b c.
  assert (H1 : normalized b) by concrete.
  assert (H2 : normalized c) by concrete.
  split; [exact H1|].
  split; [exact H2|].
  exact (bn_xor_value b c H1 H2).
Defined.

Lemma bn_bitcount_value_witness :
  let a := bn_read_uint32 0x40000001 in
  normalized a /\
  bn_bitcount a = if value a =? 0 then 0 else Z.log2 (value a) + 1.
Proof.
  intros a.
  assert (H1 : normalized a) by concrete.
  split; [exact H1|].
  exact (bn_bitcount_value a H1).
Defined.

Lemma bn_read_uint_value_witness :
  let n := 0xFFFFFFFF in
  let m := 0xFFFFFFFFFFFFFFFF in
  is_u32 n /\
  0 <= m < 2^64 /\
  (normalized (bn_read_uint32 n) /\ value (bn_read_uint32 n) = n) /\
  (normalized (bn_read_uint64 m) /\ value (bn_read_uint64 m) = m).
Proof.
  intros n m.
  assert (H1 : is_u32 n) by concrete.
  assert (H2 : 0 <= m < 2^64) by concrete.
  split; [exact H1|].
  split; [exact H2|].
  exact (bn_read_uint_value n m H1 H2).
Defined.

Lemma bn_inverse_value_witness :
  let x := bn_read_uint32 2 in
  let prime := secp256k1_prime in
  normalized x /\
  normalized prime /\
  in_band (value prime) /\
  value x < 2 * value prime /\
  2 <= get prime 0 /\
  normalized (bn_inverse x prime) /\
  value (bn_inverse x prime) = value x ^ (value prime - 2) mod value prime /\
  value (bn_inverse x prime) < value prime.
Proof.
  intros x prime.
  assert (H1 : normalized x) by concrete.
  assert (H2 : normalized prime) by concrete.
  assert (H3 : in_band (value prime)) by concrete.
  assert (H4 : value x < 2 * value prime) by concrete.
  assert (H5 : 2 <= get prime 0) by concrete.
  split; [exact H1|].
  split; [exact H2|].
  split; [exact H3|].
  split; [exact H4|].
  split; [exact H5|].
  exact (bn_inverse_value x prime H1 H2 H3 H4 H5).
Defined.

Lemma bn_sqrt_value_witness :
  let x := bn_read_uint32 4 in
  let prime := secp256k1_prime in
  normalized x /\
  normalized prime /\
  in_band (value prime) /\
  value x < 2 * value prime /\
  normalized (bn_sqrt x prime) /\
  value (bn_sqrt x prime) = value x ^ ((value prime + 1) / 4) mod value prime /\
  value (bn_sqrt x prime) < value prime.
Proof.
  intros x prime.
  assert (H1 : normalized x) by concrete.
  assert (H2 : normalized prime) by concrete.
  assert (H3 : in_band (value prime)) by concrete.
  assert (H4 : value x < 2 * value prime) by concrete.
  split; [exact H1|].
  split; [exact H2|].
  split; [exact H3|].
  split; [exact H4|].
  exact (bn_sqrt_value x prime H1 H2 H3 H4).
Defined.

Lemma bn_inverse_multiply_value_witness :
  let x := bn_read_uint32 2 in
  let prime := secp256k1_prime in
  normalized x /\
  normalized prime /\
  in_band (value prime) /\
  value x < 2 * value prime /\
  2 <= get prime 0 /\
  value (bn_mod (bn_multiply x (bn_inverse x prime) prime) prime)
  = value x ^ (value prime - 1) mod value prime.
Proof.
  intros x prime.
  assert (H1 : normalized x) by concrete.
  assert (H2 : normalized prime) by concrete.
  assert (H3 : in_band (value prime)) by concrete.
  assert (H4 : value x < 2 * value prime) by concrete.
  assert (H5 : 2 <= get prime 0) by concrete.
  split; [exact H1|].
  split; [exact H2|].
  split; [exact H3|].
  split; [exact H4|].
  split; [exact H5|].
  exact (bn_inverse_multiply_value x prime H1 H2 H3 H4 H5).
Defined.

Lemma bn_read_value_witness :
  let data := repeat 0xAB 32 in
  length data = 32%nat /\
  Forall is_u8 data /\
  (normalized (bn_read_be data) /\ value (bn_read_be data) = be_value data) /\
  (normalized (bn_read_le data) /\ value (bn_read_le data) = le_value data).
Proof.
  intros data.
  assert (H1 : length data = 32%nat) by concrete.
  assert (H2 : Forall is_u8 data) by concrete.
  split; [exact H1|].
  split; [exact H2|].
  exact (bn_read_value data H1 H2).
Defined.

Lemma bn_write_value_witness :
  let x := bn_read_uint32 0xDEADBEEF in
  let out := repeat 0 32 in
  normalized x /\
  value x < 2^256 /\
  length out = 32%nat /\
  (length (bn_write_be x out) = 32%nat /\ Forall is_u8 (bn_write_be x out) /\
   be_value (bn_write_be x out) = value x) /\
  (length (bn_write_le x out) = 32%nat /\ Forall is_u8 (bn_write_le x out) /\
   le_value (bn_write_le x out) = value x).
Proof.
  intros x out.
  assert (H1 : normalized x) by concrete.
  assert (H2 : value x < 2^256) by concrete.
  assert (H3 : length out = 32%nat) by concrete.
  split; [exact H1|].
  split; [exact H2|].
  split; [exact H3|].
  exact (bn_write_value x out H1 H2 H3).
Defined.

Lemma bn_write_read_roundtrip_witness :
  let data := repeat 0xAB 32 in
  let out := repeat 0 32 in
  length data = 32%nat /\
  Forall is_u8 data /\
  length out = 32%nat /\
  bn_write_be (bn_read_be data) out = data /\
  bn_write_le (bn_read_le data) out = data.
Proof.
  intros data out.
  assert (H1 : length data = 32%nat) by concrete.
  assert (H2 : Forall is_u8 data) by concrete.
  assert (H3 : length out = 32%nat) by concrete.
  split; [exact H1|].
  split; [exact H2|].
  split; [exact H3|].
  exact (bn_write_read_roundtrip data out H1 H2 H3).
Defined.

Lemma bn_format_integer_witness :
  let amnt := bn_read_uint32 1234 in
  let prefix := Some ["$"%char] in
  let suffix := @None (list ascii) in
  let trailing := false in
  let out := repeat "x"%char 8 in
  normalized amnt /\
  value amnt < 10^78 /\
  (strlen_opt prefix + strlen_opt suffix + 1 <= length out)%nat /\
  (let digits := Z.to_nat (bn_digitcount amnt) in
   let text := decimal_text digits (value amnt) [] in
   length text = digits /\
   if Nat.leb (strlen_opt prefix + digits + strlen_opt suffix + 1) (length out)
   then exists rest,
       bn_format amnt prefix suffix 0 0 trailing out
       = Some (Ok ((strlen_opt prefix + digits + strlen_opt suffix)%nat,
                   chars_opt prefix ++ text ++ chars_opt suffix ++ [zero] ++ rest))
   else exists out',
       bn_format amnt prefix suffix 0 0 trailing out = Some (Return0 out')).
Proof.
  intros amnt prefix suffix trailing out.
  assert (H1 : normalized amnt) by concrete.
  assert (H2 : value amnt < 10^78) by concrete.
  assert (H3 : (strlen_opt prefix + strlen_opt suffix + 1 <= length out)%nat) by concrete.
  split; [exact H1|].
  split; [exact H2|].
  split; [exact H3|].
  exact (bn_format_integer amnt prefix suffix trailing out H1 H2 H3).
Defined.

Lemma bn_mod_value_witness :
  let x := secp256k1_prime in
  let prime := secp256k1_prime in
  normalized x /\
  normalized prime /\
  0 < value prime /\
  value x < 2 * value prime /\
  normalized (bn_mod x prime) /\
  value (bn_mod x prime) = value x mod value prime /\
  value (bn_mod x prime) < value prime.
Proof.
  intros x prime.
  assert (H1 : normalized x) by concrete.
  assert (H2 : normalized prime) by concrete.
  assert (H3 : 0 < value prime) by concrete.
  assert (H4 : value x < 2 * value prime) by concrete.
  split; [exact H1|].
  split; [exact H2|].
  split; [exact H3|].
  split; [exact H4|].
  exact (bn_mod_value x prime H1 H2 H3 H4).
Defined.

Lemma bn_cmov_value_witness :
  let truecase := bn_read_uint32 0xFFFFFFFF in
  let falsecase := secp256k1_prime in
  wf truecase /\
  wf falsecase /\
  bn_cmov 1 truecase falsecase = truecase /\
  bn_cmov 0 truecase falsecase = falsecase.
Proof.
  intros truecase falsecase.
  assert (H1 : wf truecase) by concrete.
  assert (H2 : wf falsecase) by concrete.
  split; [exact H1|].
  split; [exact H2|].
  exact (bn_cmov_value truecase falsecase H1 H2).
Defined.

Lemma bn_multiply_long_value_witness :
  let k := secp256k1_prime in
  let x := secp256k1_prime in
  let res := repeat 7 18 in
  normalized k /\
  normalized x /\
  length res = 18%nat /\
  length (bn_multiply_long k x res) = 18%nat /\
  Forall is_limb (bn_multiply_long k x res) /\
  value (bn_multiply_long k x res) = value k * value x.
Proof.
  intros k x res.
  assert (H1 : normalized k) by concrete.
  assert (H2 : normalized x) by concrete.
  assert (H3 : length res = 18%nat) by concrete.
  split; [exact H1|].
  split; [exact H2|].
  split; [exact H3|].
  exact (bn_multiply_long_value k x res H1 H2 H3).
Defined.
